(** * SOR trace files: the binary codec of [otdr_parser.py] and the trace
      analyzer of [otdr_algorithm.py], embedded and verified.

    The development follows the source top to bottom: Python values and
    exceptions, the primitive codec, the Map directory, the typed block
    decoders, the file assembler, the encoder helpers and the analyzer.
    Definitions keep the names of the Python functions they embed. *)

From Stdlib Require Import ZArith List Lia Bool String Sorted.
From Stdlib.Strings Require Import Byte.
From Stdlib Require Import PrimFloat FloatOps SpecFloat FloatAxioms.
Import ListNotations.
Set Warnings "-inexact-float".
Local Open Scope string_scope.
Local Open Scope list_scope.
Local Open Scope Z_scope.

(* ------------------------------------------------------------------ *)
(** ** Python values *)

(** [bytes]: an immutable sequence of octets. *)
Definition bytes := list byte.

(** [str]: a sequence of Unicode code points. *)
Definition pystr := list Z.

(** An ASCII literal of the source, as a [str]. *)
Definition str_lit (s : string) : pystr :=
  map (fun b => Z.of_N (Byte.to_N b)) (list_byte_of_string s).

Definition byte_val (b : byte) : Z := Z.of_N (Byte.to_N b).

Definition byte_of_Z (z : Z) : byte :=
  match Byte.of_N (Z.to_N z) with Some b => b | None => x00 end.

(** [len(x)] as a Python integer. *)
Definition len {A : Type} (l : list A) : Z := Z.of_nat (List.length l).

Fixpoint pystr_eqb (a b : pystr) : bool :=
  match a, b with
  | [], [] => true
  | x :: a', y :: b' => (x =? y) && pystr_eqb a' b'
  | _, _ => false
  end.

Fixpoint bytes_eqb (a b : bytes) : bool :=
  match a, b with
  | [], [] => true
  | x :: a', y :: b' => Byte.eqb x y && bytes_eqb a' b'
  | _, _ => false
  end.

(** Exceptions the embedded code can meet.  [ParseError] is the module's own
    class.  [KeyboardInterrupt] derives from [BaseException] only, so an
    [except Exception] clause lets it through; every other class derives
    from [Exception]. *)
Inductive exn : Type :=
| ParseError (msg : string)
| StructError (msg : string)
| PlainException (msg : string)
| UnicodeEncodeError (msg : string)
| AttributeError (msg : string)
| IndexError (msg : string)
| ZeroDivisionError (msg : string)
| OverflowError (msg : string)
| LibraryError (msg : string)
| KeyboardInterrupt.

Inductive result (A : Type) : Type :=
| Ok (a : A)
| Raise (e : exn).
Arguments Ok {A} a.
Arguments Raise {A} e.

Definition is_ParseError (e : exn) : Prop :=
  match e with ParseError _ => True | _ => False end.

(** Slicing [l[a:b]] and [l[a:]] with Python's treatment of negative and
    oversized indices. *)
Definition slice_index (n i : Z) : Z :=
  if i <? 0 then Z.max 0 (i + n) else Z.min i n.

Definition py_slice {A : Type} (l : list A) (a b : Z) : list A :=
  let s := slice_index (len l) a in
  let e := slice_index (len l) b in
  firstn (Z.to_nat (e - s)) (skipn (Z.to_nat s) l).

Definition py_slice_from {A : Type} (l : list A) (a : Z) : list A :=
  skipn (Z.to_nat (slice_index (len l) a)) l.

(* ------------------------------------------------------------------ *)
(** ** UTF-8 *)

Definition is_cont (c : Z) : bool := (0x80 <=? c) && (c <=? 0xBF).
Definition in_range (lo hi c : Z) : bool := (lo <=? c) && (c <=? hi).

(** [bytes.decode("utf-8")] in strict mode: [None] stands for
    [UnicodeDecodeError].  Overlong forms, surrogates and values above
    U+10FFFF are rejected. *)
Fixpoint utf8_decode (bs : bytes) : option pystr :=
  match bs with
  | [] => Some []
  | b0 :: r1 =>
    let c0 := byte_val b0 in
    if c0 <? 0x80 then option_map (cons c0) (utf8_decode r1)
    else if c0 <? 0xC2 then None
    else if c0 <? 0xE0 then
      match r1 with
      | b1 :: r2 =>
        let c1 := byte_val b1 in
        if is_cont c1
        then option_map (cons ((c0 - 0xC0) * 64 + (c1 - 0x80))) (utf8_decode r2)
        else None
      | _ => None
      end
    else if c0 <? 0xF0 then
      match r1 with
      | b1 :: b2 :: r3 =>
        let c1 := byte_val b1 in
        let c2 := byte_val b2 in
        let lo := if c0 =? 0xE0 then 0xA0 else 0x80 in
        let hi := if c0 =? 0xED then 0x9F else 0xBF in
        if in_range lo hi c1 && is_cont c2
        then option_map
               (cons ((c0 - 0xE0) * 4096 + (c1 - 0x80) * 64 + (c2 - 0x80)))
               (utf8_decode r3)
        else None
      | _ => None
      end
    else if c0 <? 0xF5 then
      match r1 with
      | b1 :: b2 :: b3 :: r4 =>
        let c1 := byte_val b1 in
        let c2 := byte_val b2 in
        let c3 := byte_val b3 in
        let lo := if c0 =? 0xF0 then 0x90 else 0x80 in
        let hi := if c0 =? 0xF4 then 0x8F else 0xBF in
        if in_range lo hi c1 && is_cont c2 && is_cont c3
        then option_map
               (cons ((c0 - 0xF0) * 262144 + (c1 - 0x80) * 4096
                      + (c2 - 0x80) * 64 + (c3 - 0x80)))
               (utf8_decode r4)
        else None
      | _ => None
      end
    else None
  end.

(** [c.encode('utf-8')] for a single character: [None] stands for
    [UnicodeEncodeError] (a lone surrogate cannot be encoded). *)
Definition utf8_encode_char (c : Z) : option bytes :=
  if c <? 0 then None
  else if c <? 0x80 then Some [byte_of_Z c]
  else if c <? 0x800 then
    Some [byte_of_Z (0xC0 + c / 64); byte_of_Z (0x80 + c mod 64)]
  else if in_range 0xD800 0xDFFF c then None
  else if c <? 0x10000 then
    Some [byte_of_Z (0xE0 + c / 4096); byte_of_Z (0x80 + (c / 64) mod 64);
          byte_of_Z (0x80 + c mod 64)]
  else if c <? 0x110000 then
    Some [byte_of_Z (0xF0 + c / 262144); byte_of_Z (0x80 + (c / 4096) mod 64);
          byte_of_Z (0x80 + (c / 64) mod 64); byte_of_Z (0x80 + c mod 64)]
  else None.

Fixpoint utf8_encode (s : pystr) : option bytes :=
  match s with
  | [] => Some []
  | c :: s' =>
    match utf8_encode_char c, utf8_encode s' with
    | Some e, Some r => Some (e ++ r)
    | _, _ => None
    end
  end.

(* ------------------------------------------------------------------ *)
(** ** Parser helpers *)

(** The decoders thread [(data, offset)] and return [(value, offset)] or
    raise: a state-and-error monad over the cursor, reading the buffer. *)
Definition parser (A : Type) : Type := bytes -> Z -> result (A * Z).

Definition ret {A : Type} (a : A) : parser A := fun _ offset => Ok (a, offset).

Definition bind {A B : Type} (p : parser A) (f : A -> parser B) : parser B :=
  fun data offset =>
    match p data offset with
    | Ok (a, offset') => f a data offset'
    | Raise e => Raise e
    end.

Notation "x <- p ;; k" := (bind p (fun x => k))
  (at level 61, p at next level, right associativity).
Notation "p ;;; k" := (bind p (fun _ => k))
  (at level 61, right associativity).

(** [for _ in range(n): x, offset = p(data, offset); xs.append(x)].
    [range] of a negative count is empty. *)
Fixpoint repeat_nat {A : Type} (n : nat) (p : parser A) : parser (list A) :=
  match n with
  | O => ret []
  | S n' => x <- p ;; xs <- repeat_nat n' p ;; ret (x :: xs)
  end.

Definition repeat_range {A : Type} (n : Z) (p : parser A) : parser (list A) :=
  repeat_nat (Z.to_nat n) p.

(** [struct.unpack_from(fmt, data, offset)] for a format of [size] bytes:
    the bytes it reads, or [struct.error].  Negative offsets count from the
    end of the buffer. *)
Definition unpack_from (size : Z) (data : bytes) (offset : Z) : result bytes :=
  let n := len data in
  if offset <? 0 then
    if 0 <? offset + size then
      Raise (StructError "not enough data to unpack at negative offset")
    else if offset + n <? 0 then
      Raise (StructError "offset out of range for buffer")
    else Ok (firstn (Z.to_nat size) (skipn (Z.to_nat (offset + n)) data))
  else if n - offset <? size then
    Raise (StructError "unpack_from requires a larger buffer")
  else Ok (firstn (Z.to_nat size) (skipn (Z.to_nat offset) data)).

(** Little-endian value of a run of bytes, and its two's-complement reading. *)
Fixpoint le_unsigned (bs : bytes) : Z :=
  match bs with
  | [] => 0
  | b :: r => byte_val b + 256 * le_unsigned r
  end.

Definition to_signed (bits u : Z) : Z :=
  if u <? 2 ^ (bits - 1) then u else u - 2 ^ bits.

Definition parse_le_i16 : parser Z := fun data offset =>
  if len data <? offset + 2 then
    Raise (ParseError "Unexpected end of data in i16")
  else
    match unpack_from 2 data offset with
    | Ok raw => Ok (to_signed 16 (le_unsigned raw), offset + 2)
    | Raise e => Raise e
    end.

Definition parse_le_i32 : parser Z := fun data offset =>
  if len data <? offset + 4 then
    Raise (ParseError "Unexpected end of data in i32")
  else
    match unpack_from 4 data offset with
    | Ok raw => Ok (to_signed 32 (le_unsigned raw), offset + 4)
    | Raise e => Raise e
    end.

Definition parse_le_u16 : parser Z := fun data offset =>
  if len data <? offset + 2 then
    Raise (ParseError "Unexpected end of data in u16")
  else
    match unpack_from 2 data offset with
    | Ok raw => Ok (le_unsigned raw, offset + 2)
    | Raise e => Raise e
    end.

Definition parse_le_u32 : parser Z := fun data offset =>
  if len data <? offset + 4 then
    Raise (ParseError "Unexpected end of data in u32")
  else
    match unpack_from 4 data offset with
    | Ok raw => Ok (le_unsigned raw, offset + 4)
    | Raise e => Raise e
    end.

(** [fixed_length_str(data, offset, n_bytes)]; the width comes first so that
    the decoders below can chain it. *)
Definition fixed_length_str (n_bytes : Z) : parser pystr := fun data offset =>
  if len data <? offset + n_bytes then
    Raise (ParseError "Unexpected end of data in fixed_length_str")
  else
    let s := py_slice data offset (offset + n_bytes) in
    match utf8_decode s with
    | Some decoded => Ok (decoded, offset + n_bytes)
    | None => Raise (ParseError "Failed to decode fixed_length_str")
    end.

(** [data.find(b'\0', start)]: the least index at or after [start] holding a
    zero byte, or [-1]. *)
Fixpoint find_nul_from (l : bytes) (i : Z) : Z :=
  match l with
  | [] => -1
  | b :: r => if Byte.eqb b x00 then i else find_nul_from r (i + 1)
  end.

Definition bytes_find_nul (data : bytes) (start : Z) : Z :=
  let s := slice_index (len data) start in
  find_nul_from (skipn (Z.to_nat s) data) s.

Definition null_terminated_chunk : parser bytes := fun data offset =>
  let e := bytes_find_nul data offset in
  if e =? -1 then Raise (ParseError "Null terminator not found")
  else Ok (py_slice data offset e, e + 1).

Definition null_terminated_str : parser pystr := fun data offset =>
  match null_terminated_chunk data offset with
  | Ok (chunk, new_offset) =>
    match utf8_decode chunk with
    | Some decoded => Ok (decoded, new_offset)
    | None => Raise (ParseError "Failed to decode null_terminated_str")
    end
  | Raise e => Raise e
  end.

(** [block_header(data, offset, header)]: the header is a literal of the
    source; it returns the new offset only. *)
Definition block_header (header : string) : parser unit := fun data offset =>
  match utf8_encode (str_lit header) with
  | None => Raise (UnicodeEncodeError "header")
  | Some expected =>
    if negb (bytes_eqb (py_slice data offset (offset + len expected)) expected)
    then Raise (ParseError (String.append "Expected header '"
                              (String.append header "' not found")))
    else
      let offset := offset + len expected in
      if negb (bytes_eqb (py_slice data offset (offset + 1)) [x00])
      then Raise (ParseError "Expected null terminator after header")
      else Ok (tt, offset + 1)
  end.

(* ------------------------------------------------------------------ *)
(** ** Types

    The dataclasses of the source.  A field name that two classes share
    carries the class's initials here. *)

Record BlockInfo : Type := {
  identifier : pystr;
  bi_revision_number : Z;
  size : Z
}.

Record MapBlock : Type := {
  revision_number : Z;
  block_size : Z;
  block_count : Z;
  block_info : list BlockInfo
}.

Record GeneralParametersBlock : Type := {
  language_code : pystr;
  cable_id : pystr;
  fiber_id : pystr;
  fiber_type : Z;
  nominal_wavelength : Z;
  originating_location : pystr;
  terminating_location : pystr;
  cable_code : pystr;
  current_data_flag : pystr;
  user_offset : Z;
  user_offset_distance : Z;
  operator : pystr;
  gp_comment : pystr
}.

Record SupplierParametersBlock : Type := {
  supplier_name : pystr;
  otdr_mainframe_id : pystr;
  otdr_mainframe_sn : pystr;
  optical_module_id : pystr;
  optical_module_sn : pystr;
  software_revision : pystr;
  other : pystr
}.

Record FixedParametersBlock : Type := {
  date_time_stamp : Z;
  units_of_distance : pystr;
  actual_wavelength : Z;
  acquisition_offset : Z;
  acquisition_offset_distance : Z;
  total_n_pulse_widths_used : Z;
  pulse_widths_used : list Z;
  data_spacing : list Z;
  n_data_points_for_pulse_widths_used : list Z;
  group_index : Z;
  backscatter_coefficient : Z;
  number_of_averages : Z;
  averaging_time : Z;
  acquisition_range : Z;
  acquisition_range_distance : Z;
  front_panel_offset : Z;
  noise_floor_level : Z;
  noise_floor_scale_factor : Z;
  power_offset_first_point : Z;
  loss_threshold : Z;
  reflectance_threshold : Z;
  end_of_fibre_threshold : Z;
  trace_type : pystr;
  window_coordinate_1 : Z;
  window_coordinate_2 : Z;
  window_coordinate_3 : Z;
  window_coordinate_4 : Z
}.

Record KeyEvent : Type := {
  ke_event_number : Z;
  ke_event_propogation_time : Z;
  ke_attenuation_coefficient_lead_in_fiber : Z;
  ke_event_loss : Z;
  ke_event_reflectance : Z;
  ke_event_code : pystr;
  ke_loss_measurement_technique : pystr;
  ke_marker_location_1 : Z;
  ke_marker_location_2 : Z;
  ke_marker_location_3 : Z;
  ke_marker_location_4 : Z;
  ke_marker_location_5 : Z;
  ke_comment : pystr
}.

Record LastKeyEvent : Type := {
  lke_event_number : Z;
  lke_event_propogation_time : Z;
  lke_attenuation_coefficient_lead_in_fiber : Z;
  lke_event_loss : Z;
  lke_event_reflectance : Z;
  lke_event_code : pystr;
  lke_loss_measurement_technique : pystr;
  lke_marker_location_1 : Z;
  lke_marker_location_2 : Z;
  lke_marker_location_3 : Z;
  lke_marker_location_4 : Z;
  lke_marker_location_5 : Z;
  lke_comment : pystr;
  end_to_end_loss : Z;
  end_to_end_marker_position_1 : Z;
  end_to_end_marker_position_2 : Z;
  optical_return_loss : Z;
  optical_return_loss_marker_position_1 : Z;
  optical_return_loss_marker_position_2 : Z
}.

Record KeyEvents : Type := {
  number_of_key_events : Z;
  kes_key_events : list KeyEvent;
  kes_last_key_event : LastKeyEvent
}.

Record Landmark : Type := {
  landmark_number : Z;
  landmark_code : pystr;
  landmark_location : Z;
  related_event_number : Z;
  gps_longitude : Z;
  gps_latitude : Z;
  fiber_correction_factor_lead_in_fiber : Z;
  sheath_marker_entering_landmark : Z;
  sheath_marker_leaving_landmark : Z;
  units_of_sheath_marks_leaving_landmark : pystr;
  mode_field_diameter_leaving_landmark : Z;
  lm_comment : pystr
}.

Record DataPointsAtScaleFactor : Type := {
  n_points : Z;
  scale_factor : Z;
  dp_data : list Z
}.

Record DataPoints : Type := {
  number_of_data_points : Z;
  total_number_scale_factors_used : Z;
  scale_factors : list DataPointsAtScaleFactor
}.

Record LinkParameters : Type := {
  number_of_landmarks : Z;
  landmarks : list Landmark
}.

Record ProprietaryBlock : Type := {
  pb_header : pystr;
  pb_data : bytes
}.

Record SORFile : Type := {
  sor_map : MapBlock;
  general_parameters : option GeneralParametersBlock;
  supplier_parameters : option SupplierParametersBlock;
  fixed_parameters : option FixedParametersBlock;
  key_events : option KeyEvents;
  link_parameters : option LinkParameters;
  data_points : option DataPoints;
  proprietary_blocks : list ProprietaryBlock
}.

(* ------------------------------------------------------------------ *)
(** ** Parser functions *)

Definition map_block_info : parser BlockInfo :=
  header_str <- null_terminated_str ;;
  revision_number <- parse_le_u16 ;;
  size <- parse_le_i32 ;;
  ret {| identifier := header_str;
         bi_revision_number := revision_number;
         size := size |}.

Definition map_block : parser MapBlock :=
  block_header "Map" ;;;
  revision_number <- parse_le_u16 ;;
  block_size <- parse_le_i32 ;;
  block_count <- parse_le_i16 ;;
  let blocks_to_read := block_count - 1 in
  if blocks_to_read <? 0 then
    (fun _ _ => Raise (ParseError "Invalid block count in map_block"))
  else
    block_infos <- repeat_range blocks_to_read map_block_info ;;
    ret {| revision_number := revision_number;
           block_size := block_size;
           block_count := block_count;
           block_info := block_infos |}.

Definition general_parameters_block : parser GeneralParametersBlock :=
  block_header "GenParams" ;;;
  language_code <- fixed_length_str 2 ;;
  cable_id <- null_terminated_str ;;
  fiber_id <- null_terminated_str ;;
  fiber_type <- parse_le_i16 ;;
  nominal_wavelength <- parse_le_i16 ;;
  originating_location <- null_terminated_str ;;
  terminating_location <- null_terminated_str ;;
  cable_code <- null_terminated_str ;;
  current_data_flag <- fixed_length_str 2 ;;
  user_offset <- parse_le_i32 ;;
  user_offset_distance <- parse_le_i32 ;;
  operator_str <- null_terminated_str ;;
  comment <- null_terminated_str ;;
  ret {| language_code := language_code;
         cable_id := cable_id;
         fiber_id := fiber_id;
         fiber_type := fiber_type;
         nominal_wavelength := nominal_wavelength;
         originating_location := originating_location;
         terminating_location := terminating_location;
         cable_code := cable_code;
         current_data_flag := current_data_flag;
         user_offset := user_offset;
         user_offset_distance := user_offset_distance;
         operator := operator_str;
         gp_comment := comment |}.

Definition supplier_parameters_block : parser SupplierParametersBlock :=
  block_header "SupParams" ;;;
  supplier_name <- null_terminated_str ;;
  otdr_mainframe_id <- null_terminated_str ;;
  otdr_mainframe_sn <- null_terminated_str ;;
  optical_module_id <- null_terminated_str ;;
  optical_module_sn <- null_terminated_str ;;
  software_revision <- null_terminated_str ;;
  other <- null_terminated_str ;;
  ret {| supplier_name := supplier_name;
         otdr_mainframe_id := otdr_mainframe_id;
         otdr_mainframe_sn := otdr_mainframe_sn;
         optical_module_id := optical_module_id;
         optical_module_sn := optical_module_sn;
         software_revision := software_revision;
         other := other |}.

Definition fixed_parameters_block : parser FixedParametersBlock :=
  block_header "FxdParams" ;;;
  date_time_stamp <- parse_le_u32 ;;
  units_of_distance <- fixed_length_str 2 ;;
  actual_wavelength <- parse_le_i16 ;;
  acquisition_offset <- parse_le_i32 ;;
  acquisition_offset_distance <- parse_le_i32 ;;
  total_n_pulse_widths_used <- parse_le_i16 ;;
  pulse_widths_used <- repeat_range total_n_pulse_widths_used parse_le_i16 ;;
  data_spacing <- repeat_range total_n_pulse_widths_used parse_le_i32 ;;
  n_data_points_for_pulse_widths_used <-
    repeat_range total_n_pulse_widths_used parse_le_i32 ;;
  group_index <- parse_le_i32 ;;
  backscatter_coefficient <- parse_le_i16 ;;
  number_of_averages <- parse_le_i32 ;;
  averaging_time <- parse_le_u16 ;;
  acquisition_range <- parse_le_i32 ;;
  acquisition_range_distance <- parse_le_i32 ;;
  front_panel_offset <- parse_le_i32 ;;
  noise_floor_level <- parse_le_u16 ;;
  noise_floor_scale_factor <- parse_le_i16 ;;
  power_offset_first_point <- parse_le_u16 ;;
  loss_threshold <- parse_le_u16 ;;
  reflectance_threshold <- parse_le_u16 ;;
  end_of_fibre_threshold <- parse_le_u16 ;;
  trace_type <- fixed_length_str 2 ;;
  window_coordinate_1 <- parse_le_i32 ;;
  window_coordinate_2 <- parse_le_i32 ;;
  window_coordinate_3 <- parse_le_i32 ;;
  window_coordinate_4 <- parse_le_i32 ;;
  ret {| date_time_stamp := date_time_stamp;
         units_of_distance := units_of_distance;
         actual_wavelength := actual_wavelength;
         acquisition_offset := acquisition_offset;
         acquisition_offset_distance := acquisition_offset_distance;
         total_n_pulse_widths_used := total_n_pulse_widths_used;
         pulse_widths_used := pulse_widths_used;
         data_spacing := data_spacing;
         n_data_points_for_pulse_widths_used :=
           n_data_points_for_pulse_widths_used;
         group_index := group_index;
         backscatter_coefficient := backscatter_coefficient;
         number_of_averages := number_of_averages;
         averaging_time := averaging_time;
         acquisition_range := acquisition_range;
         acquisition_range_distance := acquisition_range_distance;
         front_panel_offset := front_panel_offset;
         noise_floor_level := noise_floor_level;
         noise_floor_scale_factor := noise_floor_scale_factor;
         power_offset_first_point := power_offset_first_point;
         loss_threshold := loss_threshold;
         reflectance_threshold := reflectance_threshold;
         end_of_fibre_threshold := end_of_fibre_threshold;
         trace_type := trace_type;
         window_coordinate_1 := window_coordinate_1;
         window_coordinate_2 := window_coordinate_2;
         window_coordinate_3 := window_coordinate_3;
         window_coordinate_4 := window_coordinate_4 |}.

Definition key_event : parser KeyEvent :=
  event_number <- parse_le_i16 ;;
  event_propogation_time <- parse_le_i32 ;;
  attenuation_coefficient_lead_in_fiber <- parse_le_i16 ;;
  event_loss <- parse_le_i16 ;;
  event_reflectance <- parse_le_i32 ;;
  event_code <- fixed_length_str 6 ;;
  loss_measurement_technique <- fixed_length_str 2 ;;
  marker_location_1 <- parse_le_i32 ;;
  marker_location_2 <- parse_le_i32 ;;
  marker_location_3 <- parse_le_i32 ;;
  marker_location_4 <- parse_le_i32 ;;
  marker_location_5 <- parse_le_i32 ;;
  comment <- null_terminated_str ;;
  ret {| ke_event_number := event_number;
         ke_event_propogation_time := event_propogation_time;
         ke_attenuation_coefficient_lead_in_fiber :=
           attenuation_coefficient_lead_in_fiber;
         ke_event_loss := event_loss;
         ke_event_reflectance := event_reflectance;
         ke_event_code := event_code;
         ke_loss_measurement_technique := loss_measurement_technique;
         ke_marker_location_1 := marker_location_1;
         ke_marker_location_2 := marker_location_2;
         ke_marker_location_3 := marker_location_3;
         ke_marker_location_4 := marker_location_4;
         ke_marker_location_5 := marker_location_5;
         ke_comment := comment |}.

Definition last_key_event : parser LastKeyEvent :=
  event_number <- parse_le_i16 ;;
  event_propogation_time <- parse_le_i32 ;;
  attenuation_coefficient_lead_in_fiber <- parse_le_i16 ;;
  event_loss <- parse_le_i16 ;;
  event_reflectance <- parse_le_i32 ;;
  event_code <- fixed_length_str 6 ;;
  loss_measurement_technique <- fixed_length_str 2 ;;
  marker_location_1 <- parse_le_i32 ;;
  marker_location_2 <- parse_le_i32 ;;
  marker_location_3 <- parse_le_i32 ;;
  marker_location_4 <- parse_le_i32 ;;
  marker_location_5 <- parse_le_i32 ;;
  comment <- null_terminated_str ;;
  end_to_end_loss <- parse_le_i32 ;;
  end_to_end_marker_position_1 <- parse_le_i32 ;;
  end_to_end_marker_position_2 <- parse_le_i32 ;;
  optical_return_loss <- parse_le_u16 ;;
  optical_return_loss_marker_position_1 <- parse_le_i32 ;;
  optical_return_loss_marker_position_2 <- parse_le_i32 ;;
  ret {| lke_event_number := event_number;
         lke_event_propogation_time := event_propogation_time;
         lke_attenuation_coefficient_lead_in_fiber :=
           attenuation_coefficient_lead_in_fiber;
         lke_event_loss := event_loss;
         lke_event_reflectance := event_reflectance;
         lke_event_code := event_code;
         lke_loss_measurement_technique := loss_measurement_technique;
         lke_marker_location_1 := marker_location_1;
         lke_marker_location_2 := marker_location_2;
         lke_marker_location_3 := marker_location_3;
         lke_marker_location_4 := marker_location_4;
         lke_marker_location_5 := marker_location_5;
         lke_comment := comment;
         end_to_end_loss := end_to_end_loss;
         end_to_end_marker_position_1 := end_to_end_marker_position_1;
         end_to_end_marker_position_2 := end_to_end_marker_position_2;
         optical_return_loss := optical_return_loss;
         optical_return_loss_marker_position_1 :=
           optical_return_loss_marker_position_1;
         optical_return_loss_marker_position_2 :=
           optical_return_loss_marker_position_2 |}.

Definition key_events_block : parser KeyEvents :=
  block_header "KeyEvents" ;;;
  number_of_key_events <- parse_le_i16 ;;
  let n_key_events := number_of_key_events - 1 in
  if n_key_events <? 0 then
    (fun _ _ => Raise (ParseError "Invalid number of key events"))
  else
    key_events_list <- repeat_range n_key_events key_event ;;
    lke <- last_key_event ;;
    ret {| number_of_key_events := number_of_key_events;
           kes_key_events := key_events_list;
           kes_last_key_event := lke |}.

Definition landmark : parser Landmark :=
  block_header "LnkParams" ;;;
  landmark_number <- parse_le_i16 ;;
  landmark_code <- fixed_length_str 2 ;;
  landmark_location <- parse_le_i32 ;;
  related_event_number <- parse_le_i16 ;;
  gps_longitude <- parse_le_i32 ;;
  gps_latitude <- parse_le_i32 ;;
  fiber_correction_factor_lead_in_fiber <- parse_le_i16 ;;
  sheath_marker_entering_landmark <- parse_le_i32 ;;
  sheath_marker_leaving_landmark <- parse_le_i32 ;;
  units_of_sheath_marks_leaving_landmark <- fixed_length_str 2 ;;
  mode_field_diameter_leaving_landmark <- parse_le_i16 ;;
  comment <- null_terminated_str ;;
  ret {| landmark_number := landmark_number;
         landmark_code := landmark_code;
         landmark_location := landmark_location;
         related_event_number := related_event_number;
         gps_longitude := gps_longitude;
         gps_latitude := gps_latitude;
         fiber_correction_factor_lead_in_fiber :=
           fiber_correction_factor_lead_in_fiber;
         sheath_marker_entering_landmark := sheath_marker_entering_landmark;
         sheath_marker_leaving_landmark := sheath_marker_leaving_landmark;
         units_of_sheath_marks_leaving_landmark :=
           units_of_sheath_marks_leaving_landmark;
         mode_field_diameter_leaving_landmark :=
           mode_field_diameter_leaving_landmark;
         lm_comment := comment |}.

Definition link_parameters_block : parser LinkParameters :=
  block_header "LnkParams" ;;;
  number_of_landmarks <- parse_le_i16 ;;
  landmarks_list <- repeat_range number_of_landmarks landmark ;;
  ret {| number_of_landmarks := number_of_landmarks;
         landmarks := landmarks_list |}.

Definition data_points_at_scale_factor : parser DataPointsAtScaleFactor :=
  n_points <- parse_le_i32 ;;
  scale_factor <- parse_le_i16 ;;
  data_points_list <- repeat_range n_points parse_le_u16 ;;
  ret {| n_points := n_points;
         scale_factor := scale_factor;
         dp_data := data_points_list |}.

Definition data_points_block : parser DataPoints :=
  block_header "DataPts" ;;;
  number_of_data_points <- parse_le_i32 ;;
  total_number_scale_factors_used <- parse_le_i16 ;;
  scale_factors <-
    repeat_range total_number_scale_factors_used data_points_at_scale_factor ;;
  ret {| number_of_data_points := number_of_data_points;
         total_number_scale_factors_used := total_number_scale_factors_used;
         scale_factors := scale_factors |}.

(** The payload is everything after the header string; the returned offset
    is [len(data)]. *)
Definition proprietary_block : parser ProprietaryBlock := fun data offset =>
  match null_terminated_str data offset with
  | Ok (header, offset) =>
    Ok ({| pb_header := header; pb_data := py_slice_from data offset |},
        len data)
  | Raise e => Raise e
  end.

(* ------------------------------------------------------------------ *)
(** ** High-level file parser *)

Definition MSG_OFFSET : string :=
  "Error with block data – offset value is incorrect".
Definition MSG_POSITION : string :=
  "Error with block data – reported block position or length is incorrect".

(** The [for bi in map_blk.block_info] loop of [extract_block_data]: the
    state is [(offset, length)]; [break] returns it, running off the end of
    the directory returns it too. *)
Fixpoint walk_block_info (header : pystr) (infos : list BlockInfo)
    (offset length : Z) : result (Z * Z) :=
  match infos with
  | [] => Ok (offset, length)
  | bi :: rest =>
    let length := size bi in
    if pystr_eqb (identifier bi) header then Ok (offset, length)
    else
      let new_offset := offset + size bi in
      if new_offset <? offset then Raise (ParseError MSG_OFFSET)
      else walk_block_info header rest new_offset length
  end.

Definition extract_block_data (data : bytes) (header : pystr)
    (map_blk : MapBlock) : result bytes :=
  match walk_block_info header (block_info map_blk) (block_size map_blk) 0 with
  | Raise e => Raise e
  | Ok (offset, length) =>
    let final_byte := offset + length in
    if (len data <? offset) || (len data <? final_byte)
    then Raise (ParseError MSG_POSITION)
    else Ok (py_slice data offset final_byte)
  end.

(** The local variables [parse_file] fills while it walks the directory. *)
Record blocks : Type := {
  b_general_parameters : option GeneralParametersBlock;
  b_supplier_parameters : option SupplierParametersBlock;
  b_fixed_parameters : option FixedParametersBlock;
  b_key_events : option KeyEvents;
  b_link_parameters : option LinkParameters;
  b_data_points : option DataPoints;
  b_proprietary_blocks : list ProprietaryBlock
}.

Definition no_blocks : blocks :=
  {| b_general_parameters := None; b_supplier_parameters := None;
     b_fixed_parameters := None; b_key_events := None;
     b_link_parameters := None; b_data_points := None;
     b_proprietary_blocks := [] |}.

(** [try: block_data = extract_block_data(...) except ParseError: b""].
    Only [ParseError] is caught. *)
Definition block_data_of (data : bytes) (bi : BlockInfo) (map_blk : MapBlock)
    : result bytes :=
  match extract_block_data data (identifier bi) map_blk with
  | Ok block_data => Ok block_data
  | Raise (ParseError _) => Ok []
  | Raise e => Raise e
  end.

Definition run {A B : Type} (p : parser A) (block_data : bytes)
    (k : A -> B) : result B :=
  match p block_data 0 with
  | Ok (a, _) => Ok (k a)
  | Raise e => Raise e
  end.

(** The [if]/[elif] chain on [bi.identifier]. *)
Definition dispatch (bi : BlockInfo) (block_data : bytes) (st : blocks)
    : result blocks :=
  let id := identifier bi in
  if pystr_eqb id (str_lit "SupParams") then
    run supplier_parameters_block block_data (fun sp =>
      {| b_general_parameters := b_general_parameters st;
         b_supplier_parameters := Some sp;
         b_fixed_parameters := b_fixed_parameters st;
         b_key_events := b_key_events st;
         b_link_parameters := b_link_parameters st;
         b_data_points := b_data_points st;
         b_proprietary_blocks := b_proprietary_blocks st |})
  else if pystr_eqb id (str_lit "GenParams") then
    run general_parameters_block block_data (fun gp =>
      {| b_general_parameters := Some gp;
         b_supplier_parameters := b_supplier_parameters st;
         b_fixed_parameters := b_fixed_parameters st;
         b_key_events := b_key_events st;
         b_link_parameters := b_link_parameters st;
         b_data_points := b_data_points st;
         b_proprietary_blocks := b_proprietary_blocks st |})
  else if pystr_eqb id (str_lit "FxdParams") then
    run fixed_parameters_block block_data (fun fp =>
      {| b_general_parameters := b_general_parameters st;
         b_supplier_parameters := b_supplier_parameters st;
         b_fixed_parameters := Some fp;
         b_key_events := b_key_events st;
         b_link_parameters := b_link_parameters st;
         b_data_points := b_data_points st;
         b_proprietary_blocks := b_proprietary_blocks st |})
  else if pystr_eqb id (str_lit "KeyEvents") then
    run key_events_block block_data (fun ke =>
      {| b_general_parameters := b_general_parameters st;
         b_supplier_parameters := b_supplier_parameters st;
         b_fixed_parameters := b_fixed_parameters st;
         b_key_events := Some ke;
         b_link_parameters := b_link_parameters st;
         b_data_points := b_data_points st;
         b_proprietary_blocks := b_proprietary_blocks st |})
  else if pystr_eqb id (str_lit "LnkParams") then Ok st
  else if pystr_eqb id (str_lit "DataPts") then
    run data_points_block block_data (fun dp =>
      {| b_general_parameters := b_general_parameters st;
         b_supplier_parameters := b_supplier_parameters st;
         b_fixed_parameters := b_fixed_parameters st;
         b_key_events := b_key_events st;
         b_link_parameters := b_link_parameters st;
         b_data_points := Some dp;
         b_proprietary_blocks := b_proprietary_blocks st |})
  else if pystr_eqb id (str_lit "Cksum") then Ok st
  else
    run proprietary_block block_data (fun pb =>
      {| b_general_parameters := b_general_parameters st;
         b_supplier_parameters := b_supplier_parameters st;
         b_fixed_parameters := b_fixed_parameters st;
         b_key_events := b_key_events st;
         b_link_parameters := b_link_parameters st;
         b_data_points := b_data_points st;
         b_proprietary_blocks := b_proprietary_blocks st ++ [pb] |}).

(** One iteration of [for bi in map_blk.block_info] in [parse_file]. *)
Definition parse_entry (data : bytes) (map_blk : MapBlock) (bi : BlockInfo)
    (st : blocks) : result blocks :=
  match block_data_of data bi map_blk with
  | Ok block_data => dispatch bi block_data st
  | Raise e => Raise e
  end.

Fixpoint parse_entries (data : bytes) (map_blk : MapBlock)
    (infos : list BlockInfo) (st : blocks) : result blocks :=
  match infos with
  | [] => Ok st
  | bi :: rest =>
    match parse_entry data map_blk bi st with
    | Ok st' => parse_entries data map_blk rest st'
    | Raise e => Raise e
    end
  end.

Definition parse_file (data : bytes) : result SORFile :=
  match map_block data 0 with
  | Raise e => Raise e
  | Ok (map_blk, _) =>
    match parse_entries data map_blk (block_info map_blk) no_blocks with
    | Raise e => Raise e
    | Ok st =>
      Ok {| sor_map := map_blk;
            general_parameters := b_general_parameters st;
            supplier_parameters := b_supplier_parameters st;
            fixed_parameters := b_fixed_parameters st;
            key_events := b_key_events st;
            link_parameters := b_link_parameters st;
            data_points := b_data_points st;
            proprietary_blocks := b_proprietary_blocks st |}
    end
  end.

(* ------------------------------------------------------------------ *)
(** ** Encoder helpers *)

Definition MSG_WIDE : string :=
  "A character in a fixed-length string requires more than one byte".

(** The [for c in s] loop of [encode_fixed_length_str], accumulating
    [bytes_list]. *)
Fixpoint encode_chars (s : pystr) (bytes_list : bytes) : result bytes :=
  match s with
  | [] => Ok bytes_list
  | c :: s' =>
    match utf8_encode_char c with
    | None => Raise (UnicodeEncodeError "surrogates not allowed")
    | Some encoded =>
      if negb (len encoded =? 1) then Raise (PlainException MSG_WIDE)
      else encode_chars s' (bytes_list ++ firstn 1 encoded)
    end
  end.

(** [encode_fixed_length_str(b, s, length)] extends the bytearray [b] in
    place; the embedding returns its new contents.  [length] is not used by
    the source. *)
Definition encode_fixed_length_str (b : bytes) (s : pystr) (length : Z)
    : result bytes :=
  match encode_chars s [] with
  | Ok bytes_list => Ok (b ++ bytes_list)
  | Raise e => Raise e
  end.

(* ------------------------------------------------------------------ *)
(** ** Trace analyzer ([otdr_algorithm.py]) *)

Definition MIN_SPACING : Z := 10.

(** [coallesce_results] is duck-typed: it subtracts two hits and compares
    the difference with 75.  The interface is that one test; the analyzer
    uses it on float64 distances, the specification's examples on integers. *)
Class Distance (T : Type) : Type := {
  gap_exceeds_75 : T -> T -> bool   (* [x - start > 75] *)
}.

#[export] Instance Distance_Z : Distance Z := {
  gap_exceeds_75 x start := 75 <? x - start
}.

#[export] Instance Distance_float : Distance float := {
  gap_exceeds_75 x start := PrimFloat.ltb 75%float (PrimFloat.sub x start)
}.

Section Coalesce.
Context {T : Type} `{Distance T}.

(** A two-element list [[start, end]]. *)
Definition interval : Type := (T * T)%type.

(** Body of [for i in range(1, len(detected_fiber_issues))]; the state is
    [(intervaled_results, curr_interval)].  The appended interval is a copy,
    and [curr_interval] is then rebound to a fresh list. *)
Definition coallesce_step (st : list interval * interval) (hit : T)
    : list interval * interval :=
  let '(intervaled_results, curr_interval) := st in
  if gap_exceeds_75 hit (fst curr_interval)
  then (intervaled_results ++ [curr_interval], (hit, hit))
  else (intervaled_results, (fst curr_interval, hit)).

Definition coallesce_results (detected_fiber_issues : list T)
    : list interval :=
  match detected_fiber_issues with
  | [] => []
  | first :: rest =>
    let '(intervaled_results, curr_interval) :=
      fold_left coallesce_step rest ([], (first, first)) in
    intervaled_results ++ [curr_interval]
  end.

(** The same computation as the specification words it: open an interval at
    the first hit; a later hit closes it and opens a new one when it lies
    more than 75 past the interval's start, and otherwise becomes its end;
    the last interval is emitted. *)
Fixpoint coalesce_from (start finish : T) (hits : list T) : list interval :=
  match hits with
  | [] => [(start, finish)]
  | hit :: rest =>
    if gap_exceeds_75 hit start
    then (start, finish) :: coalesce_from hit hit rest
    else coalesce_from start hit rest
  end.

Definition coalesce_spec (hits : list T) : list interval :=
  match hits with
  | [] => []
  | first :: rest => coalesce_from first first rest
  end.

End Coalesce.

(** *** Python and NumPy arithmetic on float64 *)

(** [float(n)] for a Python integer: round to nearest even; a value beyond
    the float64 range raises [OverflowError]. *)
Definition float_of_Z (n : Z) : result float :=
  let f := SF2Prim (binary_normalize prec emax n 0 false) in
  if PrimFloat.is_infinity f
  then Raise (OverflowError "int too large to convert to float")
  else Ok f.

(** [a / b] on Python floats. *)
Definition py_truediv (a b : float) : result float :=
  if PrimFloat.eqb b 0%float
  then Raise (ZeroDivisionError "float division by zero")
  else Ok (PrimFloat.div a b).

(** NumPy's ordering test for float64 in sorting and searching: NaN sorts
    last. *)
Definition np_less (a b : float) : bool :=
  PrimFloat.ltb a b || (PrimFloat.is_nan b && negb (PrimFloat.is_nan a)).

(** [np.searchsorted(a, v)] ([side='left']): binary search. *)
Fixpoint bisect_left (fuel : nat) (a : list float) (key : float)
    (imin imax : nat) : nat :=
  match fuel with
  | O => imin
  | S fuel' =>
    if (imin <? imax)%nat then
      let imid := (imin + (imax - imin) / 2)%nat in
      if np_less (nth imid a 0%float) key
      then bisect_left fuel' a key (S imid) imax
      else bisect_left fuel' a key imin imid
    else imin
  end.

Definition np_searchsorted (a : list float) (v : float) : nat :=
  bisect_left (S (List.length a)) a v 0 (List.length a).

(** [x[mask]] for a boolean mask: the lengths must agree. *)
Fixpoint mask_select {A : Type} (x : list A) (mask : list bool) : list A :=
  match x, mask with
  | xi :: x', m :: mask' =>
    if m then xi :: mask_select x' mask' else mask_select x' mask'
  | _, _ => []
  end.

Definition np_bool_index {A : Type} (x : list A) (mask : list bool)
    : result (list A) :=
  if (List.length x =? List.length mask)%nat then Ok (mask_select x mask)
  else Raise (IndexError "boolean index did not match indexed array").

(** *** The analysis window (lines 52-55 and 64-68 of the source) *)

(** [valid_indices]. *)
Definition valid_indices (scan_type : string) (fiber_distance : float)
    (spacing : list float) : list bool :=
  if String.eqb scan_type "short" && PrimFloat.ltb 8000%float fiber_distance
  then map (fun d => PrimFloat.leb d 8500%float) spacing
  else map (fun d => PrimFloat.leb d fiber_distance) spacing.

(** [(spacing_filtered, scaled_data_filtered)]. *)
Definition filter_window (scan_type : string) (fiber_distance : float)
    (spacing scaled_data : list float) : result (list float * list float) :=
  let mask := valid_indices scan_type fiber_distance spacing in
  match np_bool_index spacing mask with
  | Raise e => Raise e
  | Ok spacing_filtered =>
    match np_bool_index scaled_data mask with
    | Raise e => Raise e
    | Ok scaled_data_filtered => Ok (spacing_filtered, scaled_data_filtered)
    end
  end.

(** [(spacing_trimmed, scaled_data_trimmed)]. *)
Definition trim_window (start_panel : float)
    (spacing_filtered scaled_data_filtered : list float)
    : list float * list float :=
  let start_idx := np_searchsorted spacing_filtered start_panel in
  (skipn start_idx spacing_filtered, skipn start_idx scaled_data_filtered).

(** *** Event classification (lines 78-92) *)

Record detect_state : Type := {
  last_detected_point : float;
  back_reflections : list float;
  fiber_issues : list float
}.

Definition index {A : Type} (x : list A) (i : nat) : result A :=
  match nth_error x i with
  | Some v => Ok v
  | None => Raise (IndexError "index out of bounds")
  end.

(** Body of [for i in range(1, len(slope))], with Python's short-circuit
    evaluation of [and]. *)
Definition detect_step (slope curve spacing_trimmed : list float) (i : nat)
    (st : detect_state) : result detect_state :=
  match index slope i with
  | Raise e => Raise e
  | Ok drop_amount =>
    let record_back_reflection :=
      if PrimFloat.ltb drop_amount (-0.005)%float then
        match index curve i with
        | Raise e => Raise e
        | Ok c =>
          if PrimFloat.ltb c 0%float then
            match index spacing_trimmed i with
            | Raise e => Raise e
            | Ok d =>
              Ok {| last_detected_point := last_detected_point st;
                    back_reflections := back_reflections st ++ [d];
                    fiber_issues := fiber_issues st |}
            end
          else Ok st
        end
      else Ok st in
    if PrimFloat.leb 0.005%float drop_amount then
      match index spacing_trimmed i with
      | Raise e => Raise e
      | Ok d =>
        if PrimFloat.leb 10%float (PrimFloat.sub d (last_detected_point st))
        then Ok {| last_detected_point := d;
                   back_reflections := back_reflections st;
                   fiber_issues := fiber_issues st ++ [d] |}
        else record_back_reflection
      end
    else record_back_reflection
  end.

Fixpoint detect_loop (slope curve spacing_trimmed : list float)
    (indices : list nat) (st : detect_state) : result detect_state :=
  match indices with
  | [] => Ok st
  | i :: rest =>
    match detect_step slope curve spacing_trimmed i st with
    | Raise e => Raise e
    | Ok st' => detect_loop slope curve spacing_trimmed rest st'
    end
  end.

(** [x.attr] where [x] may be [None]. *)
Definition getattr {A B : Type} (x : option A) (attr : A -> B) (name : string)
    : result B :=
  match x with
  | Some a => Ok (attr a)
  | None =>
    Raise (AttributeError
             (String.append "'NoneType' object has no attribute '"
                (String.append name "'")))
  end.

(** [x[0]] on a Python list. *)
Definition first_item {A : Type} (x : list A) : result A :=
  match x with
  | v :: _ => Ok v
  | [] => Raise (IndexError "list index out of range")
  end.

Definition rbind {A B : Type} (r : result A) (f : A -> result B) : result B :=
  match r with
  | Ok a => f a
  | Raise e => Raise e
  end.

Notation "'let*' x := r 'in' k" := (rbind r (fun x => k))
  (at level 10, x pattern, r at level 100, k at level 200).

(** [str(e)]. *)
Definition exn_str (e : exn) : string :=
  match e with
  | ParseError m | StructError m | PlainException m | UnicodeEncodeError m
  | AttributeError m | IndexError m | ZeroDivisionError m | OverflowError m
  | LibraryError m => m
  | KeyboardInterrupt => ""
  end.

(** [isinstance(e, Exception)]: what an [except Exception] clause catches. *)
Definition is_Exception (e : exn) : bool :=
  match e with
  | KeyboardInterrupt => false
  | _ => true
  end.

(** The dictionary [plot_and_detect] returns.  The log text interpolates the
    two merged lists; they are kept as values here. *)
Inductive info : Type :=
| Logs (merged_back_reflections merged_fiber_issues : list (float * float))
| Error (err : string).

Section Analyzer.

(** The NumPy and SciPy array routines the analyzer calls.  They are not
    code of this repository: each is a parameter, free to return an array
    or to raise. *)

(** [-(65535 - np.array(data)) / float(sf)]. *)
Variable np_scale_samples : list Z -> Z -> result (list float).
(** [np.arange(start, stop, step)]. *)
Variable np_arange : float -> float -> float -> result (list float).
(** [gaussian_filter1d(x, sigma=sigma)]. *)
Variable gaussian_filter1d : list float -> Z -> result (list float).
(** [np.gradient(f, x)]. *)
Variable np_gradient : list float -> list float -> result (list float).

(** The [try] body of [plot_and_detect]: the two merged hit lists. *)
Definition analysis (sor_file : SORFile) (plot_name : string)
    (start_panel fiber_distance : float) (scan_type : string)
    : result (list (float * float) * list (float * float)) :=
  let speed_of_light := 299792458.0%float in
  let* gi := getattr (fixed_parameters sor_file) group_index "group_index" in
  let* gi_f := float_of_Z gi in
  let refractive_index := PrimFloat.div gi_f 100000.0%float in
  let* speed_of_light_in_fibre := py_truediv speed_of_light refractive_index in
  let* ds := getattr (fixed_parameters sor_file) data_spacing "data_spacing" in
  let* ds0 := first_item ds in
  let* ds0_f := float_of_Z ds0 in
  let seconds_per_10k_points := PrimFloat.div ds0_f 1e10%float in
  let metres_per_data_spacing :=
    PrimFloat.mul (PrimFloat.div seconds_per_10k_points 10000.0%float)
                  speed_of_light_in_fibre in
  let* sfs := getattr (data_points sor_file) scale_factors "scale_factors" in
  let* sf0 := first_item sfs in
  let sf := scale_factor sf0 in
  let* scaled_data := np_scale_samples (dp_data sf0) sf in
  let* n_f := float_of_Z (len scaled_data) in
  let* full := np_arange 0%float
                 (PrimFloat.mul metres_per_data_spacing n_f)
                 metres_per_data_spacing in
  let spacing := firstn (List.length scaled_data) full in
  let* (spacing_filtered, scaled_data_filtered) :=
    filter_window scan_type fiber_distance spacing scaled_data in
  let* fpo := getattr (fixed_parameters sor_file) front_panel_offset
                "front_panel_offset" in
  let* fpo_f := float_of_Z fpo in
  let seconds_to_front_panel := PrimFloat.div fpo_f 1e10%float in
  let* uo := getattr (general_parameters sor_file) user_offset
               "user_offset" in
  let* uo_f := float_of_Z uo in
  let seconds_to_launch_connector := PrimFloat.div uo_f 1e10%float in
  let metres_to_front_panel :=
    PrimFloat.mul seconds_to_front_panel speed_of_light_in_fibre in
  let metres_to_launch_connector :=
    PrimFloat.add
      (PrimFloat.mul seconds_to_launch_connector speed_of_light_in_fibre)
      metres_to_front_panel in
  let '(spacing_trimmed, scaled_data_trimmed) :=
    trim_window start_panel spacing_filtered scaled_data_filtered in
  let sigma_value := 50 in
  let* smoothed_data := gaussian_filter1d scaled_data_trimmed sigma_value in
  let* slope := np_gradient smoothed_data spacing_trimmed in
  let* curve := np_gradient slope spacing_trimmed in
  let* st := detect_loop slope curve spacing_trimmed
               (seq 1 (List.length slope - 1))
               {| last_detected_point := (-10)%float;
                  back_reflections := [];
                  fiber_issues := [] |} in
  let merged_back_reflections := coallesce_results (back_reflections st) in
  let merged_fiber_issues := coallesce_results (fiber_issues st) in
  Ok (merged_back_reflections, merged_fiber_issues).

(** [plot_and_detect]: the body above under [try], and
    [except Exception as e] returning the failure pair. *)
Definition plot_and_detect (sor_file : SORFile) (plot_name : string)
    (start_panel fiber_distance : float) (scan_type : string)
    : result (bool * info) :=
  match analysis sor_file plot_name start_panel fiber_distance scan_type with
  | Ok (merged_back_reflections, merged_fiber_issues) =>
    Ok (true, Logs merged_back_reflections merged_fiber_issues)
  | Raise e =>
    if is_Exception e then
      let err :=
        String.append "Failed to analyze sor file with error " (exn_str e) in
      Ok (false, Error err)
    else Raise e
  end.

End Analyzer.

(* ------------------------------------------------------------------ *)
(** ** Vocabulary of the properties *)

(** A hit list in nondecreasing order. *)
Fixpoint nondecreasing (hits : list Z) : Prop :=
  match hits with
  | [] => True
  | x :: rest =>
    match rest with
    | [] => True
    | y :: _ => x <= y /\ nondecreasing rest
    end
  end.

(** [x] lies within the closed interval [i]. *)
Definition within (x : Z) (i : Z * Z) : bool :=
  (fst i <=? x) && (x <=? snd i).

(** How many of the intervals hold [x]. *)
Definition holders (x : Z) (intervals : list (Z * Z)) : nat :=
  List.length (filter (within x) intervals).

(** Interval starts in strictly increasing order. *)
Definition starts_increasing (intervals : list (Z * Z)) : Prop :=
  StronglySorted Z.lt (map fst intervals).

(** Bytes left in the buffer past a cursor. *)
Definition remaining (data : bytes) (offset : Z) : Z :=
  Z.max 0 (len data - offset).

(** [raw] is a contiguous run of bytes of [data]. *)
Definition inside (data raw : bytes) : Prop :=
  exists start : nat,
    (start + List.length raw <= List.length data)%nat
    /\ raw = firstn (List.length raw) (skipn start data).

(** The [width] bytes of [data] at a nonnegative [offset]. *)
Definition field (data : bytes) (offset width : Z) : bytes :=
  firstn (Z.to_nat width) (skipn (Z.to_nat offset) data).

(** The two exceptions [encode_fixed_length_str] can end with. *)
Definition is_encoding_error (e : exn) : Prop :=
  match e with
  | PlainException msg => msg = MSG_WIDE
  | UnicodeEncodeError _ => True
  | _ => False
  end.

(** The shape the four integer readers share: the length guard, then
    [struct.unpack_from] and [decode] on the bytes it returns. *)
Definition int_reader (width : Z) (decode : bytes -> Z) (msg : string)
    : parser Z := fun data offset =>
  if len data <? offset + width then Raise (ParseError msg)
  else
    match unpack_from width data offset with
    | Ok raw => Ok (decode raw, offset + width)
    | Raise e => Raise e
    end.


(** Sum of the declared sizes of directory entries. *)
Fixpoint sum_sizes (infos : list BlockInfo) : Z :=
  match infos with
  | [] => 0
  | bi :: rest => size bi + sum_sizes rest
  end.

(** Where the [k]-th listed block begins: the Map's [block_size] plus the
    sizes of the entries before it. *)
Definition entry_start (map_blk : MapBlock) (k : nat) : Z :=
  block_size map_blk + sum_sizes (firstn k (block_info map_blk)).

(** The entries strictly before the first one named [header] (all of them
    when none is). *)
Fixpoint preceding (header : pystr) (infos : list BlockInfo)
    : list BlockInfo :=
  match infos with
  | [] => []
  | bi :: rest =>
    if pystr_eqb (identifier bi) header then []
    else bi :: preceding header rest
  end.

(** A directory of two blocks after a 20-byte Map, and a 30-byte buffer. *)
Definition demo_map : MapBlock :=
  {| revision_number := 200; block_size := 20; block_count := 3;
     block_info :=
       [ {| identifier := str_lit "GenParams"; bi_revision_number := 200;
            size := 4 |};
         {| identifier := str_lit "Cksum"; bi_revision_number := 200;
            size := 6 |} ] |}.

Definition demo_buffer : bytes :=
  list_byte_of_string "Map-directory-bytes:GENPcksum!".

(** The same directory with a negative size on its first entry. *)
Definition negative_map : MapBlock :=
  {| revision_number := 200; block_size := 20; block_count := 3;
     block_info :=
       [ {| identifier := str_lit "GenParams"; bi_revision_number := 200;
            size := -4 |};
         {| identifier := str_lit "Cksum"; bi_revision_number := 200;
            size := 6 |} ] |}.

(** Offset of the first pulse width in a FxdParams block that starts at
    [offset]: the ten header bytes and the six leading fields. *)
Definition arrays_base (offset : Z) : Z := offset + 28.

(** Number of elements the three count-driven loops read. *)
Definition array_count (fp : FixedParametersBlock) : Z :=
  Z.max 0 (total_n_pulse_widths_used fp).

(** [width] little-endian bytes of [v] (two's complement), as
    [struct.pack] writes them. *)
Fixpoint le_bytes (width : nat) (v : Z) : bytes :=
  match width with
  | O => []
  | S width' => byte_of_Z (v mod 256) :: le_bytes width' (v / 256)
  end.

(** A FxdParams block with the given group index, count field and arrays;
    the other fields are those of a 1550 nm trace. *)
Definition fxd_buffer (gi count : Z) (pw ds ndp : list Z) : bytes :=
  list_byte_of_string "FxdParams" ++ [x00]
  ++ le_bytes 4 1700000000 ++ list_byte_of_string "km"
  ++ le_bytes 2 1550 ++ le_bytes 4 0 ++ le_bytes 4 0
  ++ le_bytes 2 count
  ++ List.concat (map (le_bytes 2) pw)
  ++ List.concat (map (le_bytes 4) ds)
  ++ List.concat (map (le_bytes 4) ndp)
  ++ le_bytes 4 gi ++ le_bytes 2 800 ++ le_bytes 4 3000
  ++ le_bytes 2 30 ++ le_bytes 4 1000 ++ le_bytes 4 2000 ++ le_bytes 4 (-7)
  ++ le_bytes 2 40000 ++ le_bytes 2 1000 ++ le_bytes 2 0
  ++ le_bytes 2 200 ++ le_bytes 2 40000 ++ le_bytes 2 3000
  ++ list_byte_of_string "ST"
  ++ le_bytes 4 0 ++ le_bytes 4 0 ++ le_bytes 4 0 ++ le_bytes 4 0.

Definition fxd_block (gi count : Z) (pw ds ndp : list Z)
    : FixedParametersBlock :=
  {| date_time_stamp := 1700000000;
     units_of_distance := str_lit "km";
     actual_wavelength := 1550;
     acquisition_offset := 0;
     acquisition_offset_distance := 0;
     total_n_pulse_widths_used := count;
     pulse_widths_used := pw;
     data_spacing := ds;
     n_data_points_for_pulse_widths_used := ndp;
     group_index := gi;
     backscatter_coefficient := 800;
     number_of_averages := 3000;
     averaging_time := 30;
     acquisition_range := 1000;
     acquisition_range_distance := 2000;
     front_panel_offset := -7;
     noise_floor_level := 40000;
     noise_floor_scale_factor := 1000;
     power_offset_first_point := 0;
     loss_threshold := 200;
     reflectance_threshold := 40000;
     end_of_fibre_threshold := 3000;
     trace_type := str_lit "ST";
     window_coordinate_1 := 0;
     window_coordinate_2 := 0;
     window_coordinate_3 := 0;
     window_coordinate_4 := 0 |}.

(** A decoder started at a nonnegative cursor either returns a nonnegative
    cursor or raises [ParseError], and nothing else. *)
Definition sound {A : Type} (p : parser A) : Prop :=
  forall (data : bytes) (offset : Z), 0 <= offset ->
    match p data offset with
    | Ok (_, offset') => 0 <= offset'
    | Raise e => is_ParseError e
    end.

(** The identifiers [parse_file] recognises and does not decode. *)
Definition skipped (id : pystr) : Prop :=
  id = str_lit "LnkParams" \/ id = str_lit "Cksum".

(** The aggregate of a file none of whose blocks was decoded. *)
Definition empty_sor (map_blk : MapBlock) : SORFile :=
  {| sor_map := map_blk;
     general_parameters := None; supplier_parameters := None;
     fixed_parameters := None; key_events := None;
     link_parameters := None; data_points := None;
     proprietary_blocks := [] |}.

(** A file that is a Map alone, listing one block of 1000 bytes that the
    buffer does not hold. *)
Definition lone_map_buffer (id : string) : bytes :=
  list_byte_of_string "Map" ++ [x00] ++ le_bytes 2 200
  ++ le_bytes 4 (19 + len (list_byte_of_string id)) ++ le_bytes 2 2
  ++ list_byte_of_string id ++ [x00] ++ le_bytes 2 200 ++ le_bytes 4 1000.

Definition lone_map (id : string) : MapBlock :=
  {| revision_number := 200;
     block_size := 19 + len (list_byte_of_string id);
     block_count := 2;
     block_info := [ {| identifier := str_lit id;
                        bi_revision_number := 200; size := 1000 |} ] |}.

(** The cap of the analysis window as the specification words it. *)
Definition window_cap (scan_type : string) (fiber_distance : float) : float :=
  if String.eqb scan_type "short" && PrimFloat.ltb 8000%float fiber_distance
  then 8500%float
  else fiber_distance.

(** [d <= cap] on float64, as the source tests it. *)
Definition at_most (cap d : float) : Prop := PrimFloat.leb d cap = true.

(** Both ends of every interval satisfy [P]. *)
Definition ends_satisfy (P : float -> Prop) (intervals : list (float * float))
    : Prop :=
  Forall (fun i => P (fst i) /\ P (snd i)) intervals.

(** An aggregate with the blocks the analyzer reads. *)
Definition sor_with (fp : option FixedParametersBlock)
    (gp : option GeneralParametersBlock) (dp : option DataPoints) : SORFile :=
  {| sor_map := {| revision_number := 200; block_size := 0;
                   block_count := 1; block_info := [] |};
     general_parameters := gp; supplier_parameters := None;
     fixed_parameters := fp; key_events := None;
     link_parameters := None; data_points := dp;
     proprietary_blocks := [] |}.

(** A stand-in for a library routine that raises. *)
Definition library_raises {A B C : Type} (msg : string)
    : A -> B -> result C :=
  fun _ _ => Raise (LibraryError msg).

(** A decoder started inside the buffer ends inside it, and not before the
    place it started from. *)
Definition stays_inside {A : Type} (p : parser A) : Prop :=
  forall (data : bytes) (offset : Z) (a : A) (offset' : Z),
    0 <= offset <= len data ->
    p data offset = Ok (a, offset') ->
    offset <= offset' <= len data.

(** The value ranges of the four integer formats. *)
Definition is_i16 (v : Z) : Prop := -32768 <= v <= 32767.
Definition is_u16 (v : Z) : Prop := 0 <= v <= 65535.
Definition is_i32 (v : Z) : Prop := -2147483648 <= v <= 2147483647.
Definition is_u32 (v : Z) : Prop := 0 <= v <= 4294967295.

(** A Map of one GenParams entry, and a DataPts block of three samples. *)
Definition map_buffer : bytes := lone_map_buffer "GenParams".

Definition data_points_buffer : bytes :=
  list_byte_of_string "DataPts" ++ [x00]
  ++ le_bytes 4 3 ++ le_bytes 2 1
  ++ le_bytes 4 3 ++ le_bytes 2 1000
  ++ le_bytes 2 65000 ++ le_bytes 2 64000 ++ le_bytes 2 63000.

(** A KeyEvents block that declares one event: the last one alone. *)
Definition key_events_buffer : bytes :=
  list_byte_of_string "KeyEvents" ++ [x00] ++ le_bytes 2 1
  ++ le_bytes 2 1 ++ le_bytes 4 5000 ++ le_bytes 2 200 ++ le_bytes 2 (-30)
  ++ le_bytes 4 (-45000) ++ list_byte_of_string "1F9999"
  ++ list_byte_of_string "LS"
  ++ le_bytes 4 0 ++ le_bytes 4 0 ++ le_bytes 4 0 ++ le_bytes 4 0
  ++ le_bytes 4 0 ++ list_byte_of_string "end" ++ [x00]
  ++ le_bytes 4 1200 ++ le_bytes 4 0 ++ le_bytes 4 5000
  ++ le_bytes 2 35000 ++ le_bytes 4 0 ++ le_bytes 4 5000.

(** A proprietary block: a vendor tag, a NUL, and three payload bytes. *)
Definition vendor_buffer : bytes :=
  list_byte_of_string "VendorX" ++ [x00; x01; x00; xff].

(** An optional block is present. *)
Definition present {A : Type} (x : option A) : bool :=
  match x with Some _ => true | None => false end.

(** The directory lists an entry named [name]. *)
Definition listed (name : string) (infos : list BlockInfo) : bool :=
  existsb (fun bi => pystr_eqb (identifier bi) (str_lit name)) infos.

(** The identifier is one of the seven tags [parse_file] tests for. *)
Definition known_id (id : pystr) : bool :=
  pystr_eqb id (str_lit "SupParams") || pystr_eqb id (str_lit "GenParams")
  || pystr_eqb id (str_lit "FxdParams") || pystr_eqb id (str_lit "KeyEvents")
  || pystr_eqb id (str_lit "LnkParams") || pystr_eqb id (str_lit "DataPts")
  || pystr_eqb id (str_lit "Cksum").

(** The entries that decode as proprietary blocks. *)
Definition unknown_entries (infos : list BlockInfo) : list BlockInfo :=
  filter (fun bi => negb (known_id (identifier bi))) infos.

(** A file of a Map that lists a vendor block and a checksum, followed by
    the vendor block's eleven bytes. *)
Definition vendor_file : bytes :=
  list_byte_of_string "Map" ++ [x00] ++ le_bytes 2 200
  ++ le_bytes 4 38 ++ le_bytes 2 3
  ++ list_byte_of_string "VendorX" ++ [x00] ++ le_bytes 2 100 ++ le_bytes 4 11
  ++ list_byte_of_string "Cksum" ++ [x00] ++ le_bytes 2 100 ++ le_bytes 4 8
  ++ vendor_buffer.


(** A Map that declares a negative [block_size] before one entry of two
    bytes, and a 20-byte file whose Map declares [block_size = -8] and lists
    one vendor block of four bytes. *)
Definition negative_start_map : MapBlock :=
  {| revision_number := 0; block_size := -1; block_count := 2;
     block_info := [ {| identifier := str_lit "A"; bi_revision_number := 0;
                        size := 2 |} ] |}.

Definition negative_start_file : bytes :=
  list_byte_of_string "Map" ++ [x00] ++ le_bytes 2 200
  ++ le_bytes 4 (-8) ++ le_bytes 2 2
  ++ list_byte_of_string "X" ++ [x00] ++ le_bytes 2 200 ++ le_bytes 4 4.

(** A computation raises nothing that an [except Exception] clause lets
    through. *)
Definition raises_Exception {A : Type} (r : result A) : Prop :=
  forall e : exn, r = Raise e -> is_Exception e = true.

(** NumPy's [-(65535 - np.array(data)) / float(sf)] on float64.  The
    division follows IEEE 754: a zero divisor gives an infinity or a NaN
    (and a warning), not an exception. *)
Fixpoint np_scale_ieee_all (data : list Z) (divisor : float)
    : result (list float) :=
  match data with
  | [] => Ok []
  | x :: rest =>
    let* numerator := float_of_Z (- (65535 - x)) in
    let* scaled := np_scale_ieee_all rest divisor in
    Ok (PrimFloat.div numerator divisor :: scaled)
  end.

Definition np_scale_ieee (data : list Z) (sf : Z) : result (list float) :=
  let* divisor := float_of_Z sf in
  np_scale_ieee_all data divisor.

(** A stand-in for a routine that answers an array of NaN as long as its
    first argument, and one for a routine interrupted from the keyboard. *)
Definition all_nan {B : Type} : list float -> B -> result (list float) :=
  fun x _ => Ok (map (fun _ => PrimFloat.nan) x).

Definition interrupted {A B C : Type} : A -> B -> result C :=
  fun _ _ => Raise KeyboardInterrupt.

(** A trace of three samples whose scale factor is zero. *)
Definition zero_scale_trace : SORFile :=
  sor_with (Some (fxd_block 146800 1 [10] [100] [3]))
    (Some {| language_code := str_lit "EN"; cable_id := str_lit "C1";
             fiber_id := str_lit "F1"; fiber_type := 652;
             nominal_wavelength := 1550; originating_location := str_lit "A";
             terminating_location := str_lit "B"; cable_code := str_lit "CC";
             current_data_flag := str_lit "NC"; user_offset := 0;
             user_offset_distance := 0; operator := str_lit "op";
             gp_comment := str_lit "" |})
    (Some {| number_of_data_points := 3;
             total_number_scale_factors_used := 1;
             scale_factors := [ {| n_points := 3; scale_factor := 0;
                                   dp_data := [65000; 64000; 65535] |} ] |}).

(* ------------------------------------------------------------------ *)
(** ** Vocabulary of the coalescing invariants on float64 *)

(** Neither NaN nor an infinity. *)
Definition SFfinite (x : spec_float) : bool :=
  match x with
  | S754_zero _ | S754_finite _ _ _ => true
  | _ => false
  end.

(** A float64 that is neither NaN nor an infinity. *)
Definition finite64 (x : float) : bool := SFfinite (Prim2SF x).

(** A hit list in nondecreasing order, as float64 compares. *)
Fixpoint nondecreasing64 (hits : list float) : Prop :=
  match hits with
  | [] => True
  | x :: rest =>
    match rest with
    | [] => True
    | y :: _ => PrimFloat.leb x y = true /\ nondecreasing64 rest
    end
  end.

(** [x] lies within the closed interval [i]. *)
Definition within64 (x : float) (i : float * float) : bool :=
  PrimFloat.leb (fst i) x && PrimFloat.leb x (snd i).

(** How many of the intervals hold [x]. *)
Definition holders64 (x : float) (intervals : list (float * float)) : nat :=
  List.length (filter (within64 x) intervals).

(** Interval starts in strictly increasing order. *)
Definition starts_increasing64 (intervals : list (float * float)) : Prop :=
  StronglySorted (fun a b => PrimFloat.ltb a b = true) (map fst intervals).

(** [a <= b] and [b - a <= 75], the difference being the float64 one. *)
Definition well_formed64 (i : float * float) : Prop :=
  PrimFloat.leb (fst i) (snd i) = true
  /\ PrimFloat.leb (PrimFloat.sub (snd i) (fst i)) 75%float = true.

(** The exact value of a finite float64 in units of [2^k], when it is a
    whole number of them. *)
Definition exact_at (k : Z) (x : float) : option Z :=
  match Prim2SF x with
  | S754_zero _ => Some 0
  | S754_finite s m e =>
    if k <=? e then Some (cond_Zopp s (Z.pos m) * 2 ^ (e - k)) else None
  | _ => None
  end.

(* ------------------------------------------------------------------ *)
(** ** Encoders and map bookkeeping ([otdr_parser.py], lines 691-740) *)

(** [struct.pack(fmt, val)] for a signed little-endian format of [bits]
    bits: two's complement, least significant byte first, or [struct.error]
    when [val] does not fit.  CPython words the error differently for a
    value beyond a C long; [range_msg] is the wording of the format. *)
Definition struct_pack (bits : Z) (range_msg : string) (val : Z)
    : result bytes :=
  if (val <? - 2 ^ 63) || (2 ^ 63 <=? val)
  then Raise (StructError "argument out of range")
  else if (val <? - 2 ^ (bits - 1)) || (2 ^ (bits - 1) <=? val)
  then Raise (StructError range_msg)
  else Ok (le_bytes (Z.to_nat (bits / 8)) (val mod 2 ^ bits)).

(** The encoders extend the bytearray [b] in place and return nothing; the
    embedding returns the new contents of [b].  An encoder that raises has
    not touched [b]. *)
Definition encode_null_terminated_str (b : bytes) (s : pystr)
    : result bytes :=
  match utf8_encode s with
  | None => Raise (UnicodeEncodeError "surrogates not allowed")
  | Some encoded => Ok ((b ++ encoded) ++ [x00])
  end.

Definition encode_le_i16 (b : bytes) (val : Z) : result bytes :=
  match struct_pack 16 "short format requires -32768 <= number <= 32767" val
  with
  | Raise e => Raise e
  | Ok packed => Ok (b ++ packed)
  end.

Definition encode_le_i32 (b : bytes) (val : Z) : result bytes :=
  match struct_pack 32
          "'i' format requires -2147483648 <= number <= 2147483647" val
  with
  | Raise e => Raise e
  | Ok packed => Ok (b ++ packed)
  end.

Definition MSG_MISSING : string :=
  "BlockInfo block is missing for one of your blocks in the Map!".

(** The [for x in m.block_info] search of [add_block]: the first entry named
    [block_id], or [None]. *)
Fixpoint find_block_info (block_id : pystr) (infos : list BlockInfo)
    : option BlockInfo :=
  match infos with
  | [] => None
  | x :: rest =>
    if pystr_eqb (identifier x) block_id then Some x
    else find_block_info block_id rest
  end.

(** [add_block(b, m, nm, block, gen_block_func, block_id)] mutates the
    bytearray [b] and the new map [nm]; the embedding returns their new
    contents.  Both are touched only after the last [raise], so a call that
    raises leaves them as they were.  [gen_block_func] is a thunk, run only
    when [block] is not [None]; an exception of it that derives from
    [Exception] is re-raised as [Exception(err)], whose text is that of
    [err], and any other passes through. *)
Definition add_block {B : Type} (b : bytes) (m nm : MapBlock)
    (block : option B) (gen_block_func : unit -> result bytes)
    (block_id : pystr) : result (bytes * MapBlock) :=
  match block with
  | None => Ok (b, nm)
  | Some _ =>
    match gen_block_func tt with
    | Raise err =>
      if is_Exception err then Raise (PlainException (exn_str err))
      else Raise err
    | Ok block_bytes =>
      match find_block_info block_id (block_info m) with
      | None => Raise (PlainException MSG_MISSING)
      | Some found =>
        let new_block_info :=
          {| identifier := block_id;
             bi_revision_number := bi_revision_number found;
             size := len block_bytes |} in
        Ok (b ++ block_bytes,
            {| revision_number := revision_number nm;
               block_size := block_size nm + (len block_id + 1 + 2 + 4);
               block_count := block_count nm + 1;
               block_info := block_info nm ++ [new_block_info] |})
      end
    end
  end.

(* ------------------------------------------------------------------ *)
(** ** Vocabulary of the encoder properties *)

(** Every character is ASCII. *)
Definition all_ascii (s : pystr) : Prop := Forall (fun c => 0 <= c < 128) s.

(** The bookkeeping [add_block] maintains between the bytes written so far
    and the directory built so far: the count is one more than the entries
    (the Map counts itself), every size is a length, and the sizes add up
    to the bytes written. *)
Definition consistent (b : bytes) (nm : MapBlock) : Prop :=
  block_count nm = 1 + len (block_info nm)
  /\ Forall (fun bi => 0 <= size bi) (block_info nm)
  /\ len b = sum_sizes (block_info nm).

(** A source map with revisions for two blocks, an empty new map whose
    [block_size] is that of a Map with no entries, and two generators. *)
Definition source_map : MapBlock :=
  {| revision_number := 200; block_size := 0; block_count := 3;
     block_info :=
       [ {| identifier := str_lit "GenParams"; bi_revision_number := 201;
            size := 0 |};
         {| identifier := str_lit "DataPts"; bi_revision_number := 202;
            size := 0 |} ] |}.

Definition new_map : MapBlock :=
  {| revision_number := 200; block_size := 12; block_count := 1;
     block_info := [] |}.

Definition gen_bytes (payload : bytes) : unit -> result bytes :=
  fun _ => Ok payload.

(** The size the directory's last entry declares ([0] for an empty
    directory): what [length] holds when the walk of [extract_block_data]
    runs off the end. *)
Definition last_size (infos : list BlockInfo) : Z :=
  last (map size infos) 0.

(** The identifiers a directory lists. *)
Definition identifiers (map_blk : MapBlock) : list pystr :=
  map identifier (block_info map_blk).

(** Where the listed blocks end: the Map's [block_size] plus every size. *)
Definition blocks_end (map_blk : MapBlock) : Z :=
  block_size map_blk + sum_sizes (block_info map_blk).

(* ------------------------------------------------------------------ *)
(** ** Vocabulary of the analyzer properties *)

(** The state the classification loop of [plot_and_detect] starts from:
    [last_detected_point = -MIN_SPACING] and two empty lists. *)
Definition initial_state : detect_state :=
  {| last_detected_point := (-10)%float;
     back_reflections := [];
     fiber_issues := [] |}.

(** Each distance of [hits] is at least [MIN_SPACING] past the one before
    it, [prev] standing before the first, as the source tests it on
    float64: [d - prev >= 10]. *)
Fixpoint spaced (prev : float) (hits : list float) : Prop :=
  match hits with
  | [] => True
  | d :: rest =>
    PrimFloat.leb 10%float (PrimFloat.sub d prev) = true /\ spaced d rest
  end.

(** [d] is the distance of a sample whose slope is at least [0.005]. *)
Definition rising_at (slope spacing_trimmed : list float) (d : float)
    : Prop :=
  exists (i : nat) (drop_amount : float),
    index slope i = Ok drop_amount
    /\ PrimFloat.leb 0.005%float drop_amount = true
    /\ index spacing_trimmed i = Ok d.

(** [d] is the distance of a sample whose slope is below [-0.005] and whose
    curvature is negative. *)
Definition falling_at (slope curve spacing_trimmed : list float) (d : float)
    : Prop :=
  exists (i : nat) (drop_amount c : float),
    index slope i = Ok drop_amount
    /\ PrimFloat.ltb drop_amount (-0.005)%float = true
    /\ index curve i = Ok c
    /\ PrimFloat.ltb c 0%float = true
    /\ index spacing_trimmed i = Ok d.

(** The test of the analysis window on a (distance, sample) pair. *)
Definition in_window (scan_type : string) (fiber_distance : float)
    (p : float * float) : bool :=
  PrimFloat.leb (fst p) (window_cap scan_type fiber_distance).

(** General parameters of a trace, and stand-ins for the array routines:
    one that returns a fixed array, one that returns its first argument. *)
Definition gen_params : GeneralParametersBlock :=
  {| language_code := str_lit "EN"; cable_id := str_lit "C1";
     fiber_id := str_lit "F1"; fiber_type := 652;
     nominal_wavelength := 1550; originating_location := str_lit "A";
     terminating_location := str_lit "B"; cable_code := str_lit "CC";
     current_data_flag := str_lit "NC"; user_offset := 0;
     user_offset_distance := 0; operator := str_lit "op";
     gp_comment := str_lit "" |}.

Definition fixed_array {A B : Type} (x : list float)
    : A -> B -> result (list float) :=
  fun _ _ => Ok x.

Definition pass_through {B : Type} : list float -> B -> result (list float) :=
  fun x _ => Ok x.

(** A trace of three samples. *)
Definition three_samples : SORFile :=
  sor_with (Some (fxd_block 146800 1 [10] [100] [3])) (Some gen_params)
    (Some {| number_of_data_points := 3;
             total_number_scale_factors_used := 1;
             scale_factors := [ {| n_points := 3; scale_factor := 1000;
                                   dp_data := [65000; 64000; 63000] |} ] |}).

(* ------------------------------------------------------------------ *)
(** ** Vocabulary of the coalescing properties *)

Section Runs.
Context {T : Type} `{Distance T}.

(** A run of consecutive hits: its first hit and the hits after it. *)
Definition hit_run : Type := (T * list T)%type.

Definition run_hits (r : hit_run) : list T := fst r :: snd r.

(** The interval a run gives: its first hit and its last one. *)
Definition run_ends (r : hit_run) : T * T := (fst r, last (snd r) (fst r)).

(** No hit of the run lies more than 75 past the run's first hit. *)
Definition run_within (r : hit_run) : Prop :=
  Forall (fun hit => gap_exceeds_75 hit (fst r) = false) (snd r).

(** Each run after the first opens with a hit more than 75 past the first
    hit of the run before it. *)
Fixpoint runs_split (runs : list hit_run) : Prop :=
  match runs with
  | [] => True
  | r1 :: rest =>
    match rest with
    | [] => True
    | r2 :: _ => gap_exceeds_75 (fst r2) (fst r1) = true /\ runs_split rest
    end
  end.

End Runs.
(* ================================================================== *)
(** * Properties *)

(** ** Interval coalescing *)

Section CoalesceFacts.
Context {T : Type} `{Distance T}.

Lemma fold_coallesce_step (hits : list T) :
  forall (acc : list (@interval T)) (start finish : T),
    (let '(res, curr) := fold_left coallesce_step hits (acc, (start, finish))
     in res ++ [curr])
    = acc ++ coalesce_from start finish hits.
Proof.
  induction hits as [|hit rest IH]; intros acc start finish; simpl.
  - reflexivity.
  - destruct (gap_exceeds_75 hit start).
    + rewrite IH, <- app_assoc. reflexivity.
    + apply IH.
Qed.

Lemma coallesce_results_spec (hits : list T) :
  coallesce_results hits = coalesce_spec hits.
Proof.
  destruct hits as [|first rest]; simpl.
  - reflexivity.
  - apply (fold_coallesce_step rest [] first first).
Qed.

End CoalesceFacts.

(** C3.  [coallesce_results] on the hits 10, 12, 14, 100, 102 returns the
    intervals [10,14] and [100,102]; on no hits it returns no interval; and
    for every hit list, of any distance type, the loop of the source computes
    what the specification describes: an interval opened at the first hit,
    closed (and a new one opened) exactly when a hit lies more than 75 past
    the current start, extended otherwise, the last interval emitted. *)
Theorem coallesce_results_law :
  coallesce_results [10; 12; 14; 100; 102] = [(10, 14); (100, 102)]
  /\ coallesce_results (@nil Z) = []
  /\ (forall (T : Type) (D : Distance T) (hits : list T),
        coallesce_results hits = coalesce_spec hits)
  /\ (forall (T : Type) (D : Distance T) (start finish hit : T) (rest : list T),
        coalesce_from start finish (hit :: rest) =
        if gap_exceeds_75 hit start
        then (start, finish) :: coalesce_from hit hit rest
        else coalesce_from start hit rest)
  /\ (forall (T : Type) (D : Distance T) (start finish : T),
        coalesce_from start finish [] = [(start, finish)]).
Proof.
  split; [reflexivity|].
  split; [reflexivity|].
  split; [intros; apply coallesce_results_spec|].
  split; intros; reflexivity.
Qed.

(** Invariant of the coalescing recursion on nondecreasing integer hits: the
    open interval [start, finish] is no wider than 75 and the hits still to
    come are not below [finish]. *)
Lemma nondecreasing_tail (x : Z) (rest : list Z) :
  nondecreasing (x :: rest) -> nondecreasing rest.
Proof. destruct rest; simpl; tauto. Qed.

Lemma nondecreasing_lower (x : Z) (rest : list Z) :
  nondecreasing (x :: rest) -> Forall (fun y => x <= y) rest.
Proof.
  revert x. induction rest as [|y rest IH]; intros x Hx; constructor.
  - simpl in Hx. tauto.
  - destruct Hx as [Hxy Hrest]. specialize (IH y Hrest).
    eapply Forall_impl; [|exact IH]. simpl. intros; lia.
Qed.

Lemma holders_none (x : Z) (intervals : list (Z * Z)) (bound : Z) :
  x <= bound -> Forall (fun i => bound < fst i) intervals ->
  holders x intervals = 0%nat.
Proof.
  intros Hx Hall. unfold holders.
  induction Hall as [|i rest Hi _ IH]; simpl; [reflexivity|].
  unfold within at 1.
  destruct (Z.leb_spec (fst i) x); simpl; [lia|exact IH].
Qed.

Lemma holders_cons (x : Z) (i : Z * Z) (intervals : list (Z * Z)) :
  holders x (i :: intervals)
  = ((if within x i then 1 else 0) + holders x intervals)%nat.
Proof. unfold holders. simpl. destruct (within x i); reflexivity. Qed.

Lemma coalesce_from_invariant (hits : list Z) :
  forall start finish : Z,
    start <= finish <= start + 75 ->
    nondecreasing (finish :: hits) ->
    exists finish' rest,
      coalesce_from start finish hits = (start, finish') :: rest
      /\ finish <= finish' <= start + 75
      /\ Forall (fun i => start + 75 < fst i) rest
      /\ Forall (fun i => fst i <= snd i <= fst i + 75) rest
      /\ starts_increasing ((start, finish') :: rest)
      /\ (forall x, start <= x <= finish ->
            holders x ((start, finish') :: rest) = 1%nat)
      /\ (forall x, In x hits ->
            holders x ((start, finish') :: rest) = 1%nat).
Proof.
  induction hits as [|hit rest IH]; intros start finish Hsf Hnd.
  - exists finish, []. simpl. repeat split; try lia; auto.
    + repeat constructor.
    + intros x Hx. unfold holders, within; simpl.
      destruct (Z.leb_spec start x), (Z.leb_spec x finish); simpl; lia.
  - pose proof (nondecreasing_tail _ _ Hnd) as Hnd'.
    assert (Hfh : finish <= hit) by (simpl in Hnd; tauto).
    simpl coalesce_from.
    change (gap_exceeds_75 hit start) with (75 <? hit - start).
    destruct (Z.ltb_spec 75 (hit - start)) as [Hgap|Hgap].
    + destruct (IH hit hit ltac:(lia) Hnd')
        as (f' & tl & Heq & Hf' & Hfar & Hwf & Hinc & Hcur & Hrest).
      exists finish, ((hit, f') :: tl). rewrite Heq.
      assert (Hfar' : Forall (fun i => start + 75 < fst i) ((hit, f') :: tl)).
      { constructor; [simpl; lia|].
        eapply Forall_impl; [|exact Hfar]. simpl. intros; lia. }
      repeat split; try lia; auto.
      * unfold starts_increasing in *. simpl map. constructor; [exact Hinc|].
        change (hit :: map fst tl) with (map fst ((hit, f') :: tl)).
        apply Forall_map.
        eapply Forall_impl; [|exact Hfar']. simpl. intros; lia.
      * intros x Hx. rewrite holders_cons.
        rewrite (holders_none x _ (start + 75) ltac:(lia) Hfar').
        unfold within; simpl.
        destruct (Z.leb_spec start x), (Z.leb_spec x finish); simpl; lia.
      * intros x Hin.
        assert (Hx : hit <= x).
        { destruct Hin as [->|Hin]; [lia|].
          pose proof (nondecreasing_lower _ _ Hnd') as Hlow.
          rewrite Forall_forall in Hlow. apply Hlow, Hin. }
        rewrite holders_cons.
        replace (within x (start, finish)) with false.
        { destruct Hin as [->|Hin]; [apply Hcur; lia|apply Hrest; exact Hin]. }
        unfold within; simpl.
        destruct (Z.leb_spec start x), (Z.leb_spec x finish); simpl; lia.
    + assert (Hnd2 : nondecreasing (hit :: rest)) by exact Hnd'.
      destruct (IH start hit ltac:(lia) Hnd2)
        as (f' & tl & Heq & Hf' & Hfar & Hwf & Hinc & Hcur & Hrest).
      exists f', tl. rewrite Heq.
      repeat split; try lia; auto.
      * intros x Hx. apply Hcur. lia.
      * intros x [->|Hin]; [apply Hcur; lia|apply Hrest; exact Hin].
Qed.

(** On a nondecreasing list of integer hit distances, every interval
    [a, b] that [coallesce_results] returns has [a <= b] and [b - a <= 75],
    the intervals come in strictly increasing order of their starts, and
    every input hit lies within exactly one of them. *)
Lemma coallesce_results_invariants_int (hits : list Z) :
  nondecreasing hits ->
  Forall (fun i => fst i <= snd i /\ snd i - fst i <= 75)
         (coallesce_results hits)
  /\ starts_increasing (coallesce_results hits)
  /\ (forall x, In x hits -> holders x (coallesce_results hits) = 1%nat).
Proof.
  intros Hnd. rewrite coallesce_results_spec.
  destruct hits as [|first rest]; simpl coalesce_spec.
  - repeat split; [constructor|constructor|intros x []].
  - assert (Hnd' : nondecreasing (first :: rest)) by exact Hnd.
    destruct (coalesce_from_invariant rest first first ltac:(lia) Hnd')
      as (f' & tl & Heq & Hf' & Hfar & Hwf & Hinc & Hcur & Hrest).
    rewrite Heq. repeat split.
    + constructor; [simpl; lia|].
      eapply Forall_impl; [|exact Hwf]. simpl. intros; lia.
    + exact Hinc.
    + intros x [->|Hin]; [apply Hcur; lia|apply Hrest; exact Hin].
Qed.

(** ** Order and subtraction on float64 *)

Ltac sf_order :=
  unfold SFleb, SFltb, SFcompare;
  repeat match goal with
         | |- context [Pos.compare_cont Eq ?a ?b] =>
           change (Pos.compare_cont Eq a b) with (Pos.compare a b)
         end;
  repeat match goal with
         | |- context [Z.compare ?a ?b] => destruct (Z.compare_spec a b)
         | |- context [Pos.compare ?a ?b] => destruct (Pos.compare_spec a b)
         end;
  simpl; intros; subst;
  try discriminate; try reflexivity; try lia.

Lemma SFleb_trans (x y z : spec_float) :
  SFleb x y = true -> SFleb y z = true -> SFleb x z = true.
Proof.
  destruct x as [sx|sx| |sx mx ex], y as [sy|sy| |sy my ey],
    z as [sz|sz| |sz mz ez];
    try (destruct sx); try (destruct sy); try (destruct sz);
    sf_order.
Qed.

Lemma SFltb_leb_trans (x y z : spec_float) :
  SFltb x y = true -> SFleb y z = true -> SFltb x z = true.
Proof.
  destruct x as [sx|sx| |sx mx ex], y as [sy|sy| |sy my ey],
    z as [sz|sz| |sz mz ez];
    try (destruct sx); try (destruct sy); try (destruct sz);
    sf_order.
Qed.

Lemma SFleb_ltb_trans (x y z : spec_float) :
  SFleb x y = true -> SFltb y z = true -> SFltb x z = true.
Proof.
  destruct x as [sx|sx| |sx mx ex], y as [sy|sy| |sy my ey],
    z as [sz|sz| |sz mz ez];
    try (destruct sx); try (destruct sy); try (destruct sz);
    sf_order.
Qed.

Lemma SFltb_leb (x y : spec_float) : SFltb x y = true -> SFleb x y = true.
Proof.
  unfold SFltb, SFleb. destruct (SFcompare x y) as [[ | | ]|];
    try discriminate; reflexivity.
Qed.

Lemma SFltb_not_geb (x y : spec_float) :
  SFltb x y = true -> SFleb y x = false.
Proof.
  destruct x as [sx|sx| |sx mx ex], y as [sy|sy| |sy my ey];
    try (destruct sx); try (destruct sy); sf_order.
Qed.

Lemma SFleb_refl (x : spec_float) : SFfinite x = true -> SFleb x x = true.
Proof.
  destruct x as [sx|sx| |sx mx ex]; try discriminate; intros _;
    try (destruct sx); sf_order.
Qed.

(** Two finite values that compare equal are the same value, or two
    zeros. *)
Lemma SFleb_cases (x y : spec_float) :
  SFfinite x = true -> SFfinite y = true -> SFleb x y = true ->
  SFltb x y = true \/ x = y
  \/ (exists sx sy, x = S754_zero sx /\ y = S754_zero sy).
Proof.
  destruct x as [sx|sx| |sx mx ex], y as [sy|sy| |sy my ey];
    try discriminate; intros _ _.
  - right. right. eauto.
  - destruct sy; sf_order; auto.
  - destruct sx; sf_order; auto.
  - destruct sx, sy; sf_order; auto.
Qed.

Section Subtraction.
Variables prec emax : Z.

Lemma shr_1_nonneg (mrs : shr_record) :
  0 <= shr_m mrs -> 0 <= shr_m (shr_1 mrs).
Proof.
  destruct mrs as [m r s]. destruct m as [|[p|p|]|p]; simpl; lia.
Qed.

Lemma iter_shr_1_nonneg (p : positive) :
  forall mrs : shr_record,
    0 <= shr_m mrs -> 0 <= shr_m (iter_pos shr_1 p mrs).
Proof.
  induction p as [p IH|p IH|]; intros mrs Hm; simpl.
  - apply IH, IH, shr_1_nonneg, Hm.
  - apply IH, IH, Hm.
  - apply shr_1_nonneg, Hm.
Qed.

Lemma shr_fexp_nonneg (m e : Z) (l : location) :
  0 <= m -> 0 <= shr_m (fst (shr_fexp prec emax m e l)).
Proof.
  intros Hm. unfold shr_fexp, shr.
  assert (Hloc : 0 <= shr_m (shr_record_of_loc m l))
    by (destruct l as [|[ | | ]]; exact Hm).
  destruct (fexp prec emax (Zdigits2 m + e) - e) as [|p|p]; simpl;
    [exact Hloc|apply iter_shr_1_nonneg; exact Hloc|exact Hloc].
Qed.

Lemma round_nearest_even_nonneg (mx : Z) (lx : location) :
  0 <= mx -> 0 <= round_nearest_even mx lx.
Proof.
  intros Hm. destruct lx as [|[ | | ]]; simpl; try lia.
  destruct (Z.even mx); lia.
Qed.

Lemma binary_round_aux_not_nan (sx : bool) (mx ex : Z) (lx : location) :
  0 <= mx -> binary_round_aux prec emax sx mx ex lx <> S754_nan.
Proof.
  intros Hm. unfold binary_round_aux.
  pose proof (shr_fexp_nonneg mx ex lx Hm) as H1.
  destruct (shr_fexp prec emax mx ex lx) as [mrs' e']. simpl in H1.
  pose proof (shr_fexp_nonneg
                (round_nearest_even (shr_m mrs') (loc_of_shr_record mrs'))
                e' loc_Exact
                (round_nearest_even_nonneg _ _ H1)) as H2.
  destruct (shr_fexp prec emax _ e' loc_Exact) as [mrs'' e'']. simpl in H2.
  destruct (shr_m mrs'') as [|m|m]; [discriminate| |lia].
  destruct (e'' <=? emax - prec); discriminate.
Qed.

Lemma binary_normalize_not_nan (m e : Z) (szero : bool) :
  binary_normalize prec emax m e szero <> S754_nan.
Proof.
  unfold binary_normalize, binary_round.
  destruct m as [|p|p]; [discriminate| |];
    destruct (shl_align p e _) as [mz ez];
    apply binary_round_aux_not_nan; lia.
Qed.

Lemma SFsub_not_nan (x y : spec_float) :
  SFfinite x = true -> SFfinite y = true -> SFsub prec emax x y <> S754_nan.
Proof.
  destruct x as [sx|sx| |sx mx ex], y as [sy|sy| |sy my ey];
    try discriminate; intros _ _; unfold SFsub;
    try (destruct sx, sy; discriminate); try discriminate.
  apply binary_normalize_not_nan.
Qed.

Lemma SFsub_diag (x : spec_float) :
  SFfinite x = true -> exists s, SFsub prec emax x x = S754_zero s.
Proof.
  destruct x as [sx|sx| |sx mx ex]; try discriminate; intros _; unfold SFsub.
  - destruct sx; eauto.
  - rewrite Z.sub_diag. simpl. eauto.
Qed.

Lemma SFsub_zeros (sx sy : bool) (z : spec_float) :
  SFfinite z = true ->
  SFsub prec emax (S754_zero sx) z = SFsub prec emax (S754_zero sy) z
  \/ exists s s',
       SFsub prec emax (S754_zero sx) z = S754_zero s
       /\ SFsub prec emax (S754_zero sy) z = S754_zero s'.
Proof.
  destruct z as [sz|sz| |sz mz ez]; try discriminate; intros _; unfold SFsub.
  - right. destruct sx, sy, sz; eauto.
  - left. reflexivity.
Qed.

End Subtraction.

(** A positive finite bound [c]: what stays at or below it. *)
Lemma SFltb_zero (c : spec_float) (s : bool) :
  SFfinite c = true -> SFleb (S754_zero false) c = true ->
  SFltb c (S754_zero s) = false.
Proof.
  destruct c as [sc|sc| |sc mc ec]; try discriminate; intros _;
    try (destruct sc); sf_order.
Qed.

Lemma SFnot_ltb_leb (c r : spec_float) :
  SFfinite c = true -> r <> S754_nan ->
  SFltb c r = false -> SFleb r c = true.
Proof.
  destruct c as [sc|sc| |sc mc ec], r as [sr|sr| |sr mr er];
    try discriminate; intros _ Hr; try congruence;
    try (destruct sc); try (destruct sr); sf_order.
Qed.

(** ** The coalescing invariants on float64 *)

Lemma leb64_refl (x : float) : finite64 x = true -> PrimFloat.leb x x = true.
Proof. rewrite leb_spec. apply SFleb_refl. Qed.

Lemma leb64_trans (x y z : float) :
  PrimFloat.leb x y = true -> PrimFloat.leb y z = true ->
  PrimFloat.leb x z = true.
Proof. rewrite !leb_spec. apply SFleb_trans. Qed.

Lemma ltb64_leb_trans (x y z : float) :
  PrimFloat.ltb x y = true -> PrimFloat.leb y z = true ->
  PrimFloat.ltb x z = true.
Proof. rewrite !leb_spec, !ltb_spec. apply SFltb_leb_trans. Qed.

Lemma leb64_ltb_trans (x y z : float) :
  PrimFloat.leb x y = true -> PrimFloat.ltb y z = true ->
  PrimFloat.ltb x z = true.
Proof. rewrite !leb_spec, !ltb_spec. apply SFleb_ltb_trans. Qed.

Lemma ltb64_leb (x y : float) :
  PrimFloat.ltb x y = true -> PrimFloat.leb x y = true.
Proof. rewrite leb_spec, ltb_spec. apply SFltb_leb. Qed.

Lemma ltb64_not_geb (x y : float) :
  PrimFloat.ltb x y = true -> PrimFloat.leb y x = false.
Proof. rewrite leb_spec, ltb_spec. apply SFltb_not_geb. Qed.

Lemma gap64_spec (x start : float) :
  gap_exceeds_75 x start
  = SFltb (Prim2SF 75%float) (SF64sub (Prim2SF x) (Prim2SF start)).
Proof.
  change (gap_exceeds_75 x start)
    with (PrimFloat.ltb 75%float (PrimFloat.sub x start)).
  rewrite ltb_spec, sub_spec. reflexivity.
Qed.

Lemma gap64_self (x : float) :
  finite64 x = true -> gap_exceeds_75 x x = false.
Proof.
  intros Hx. rewrite gap64_spec.
  destruct (SFsub_diag prec emax (Prim2SF x) Hx) as [s Hs].
  unfold SF64sub. rewrite Hs. apply SFltb_zero; reflexivity.
Qed.

Lemma gap64_separates (finish hit start : float) :
  finite64 finish = true -> finite64 hit = true -> finite64 start = true ->
  PrimFloat.leb finish hit = true ->
  gap_exceeds_75 finish start = false ->
  gap_exceeds_75 hit start = true ->
  PrimFloat.ltb finish hit = true.
Proof.
  unfold finite64. rewrite leb_spec, ltb_spec, !gap64_spec. unfold SF64sub.
  intros Hf Hh Hs Hle Hnear Hfar.
  destruct (SFleb_cases _ _ Hf Hh Hle) as [Hlt|[Heq|(sx & sy & Hx & Hy)]].
  - exact Hlt.
  - rewrite Heq in Hnear. congruence.
  - rewrite Hx in Hnear. rewrite Hy in Hfar.
    destruct (SFsub_zeros prec emax sx sy _ Hs) as [Hsame|(s & s' & H1 & H2)].
    + rewrite Hsame in Hnear. congruence.
    + rewrite H2 in Hfar. rewrite SFltb_zero in Hfar by reflexivity.
      discriminate.
Qed.

Lemma gap64_narrow (a b : float) :
  finite64 a = true -> finite64 b = true ->
  gap_exceeds_75 b a = false ->
  PrimFloat.leb (PrimFloat.sub b a) 75%float = true.
Proof.
  unfold finite64. rewrite gap64_spec, leb_spec, sub_spec.
  intros Ha Hb Hgap. apply SFnot_ltb_leb; [reflexivity| |exact Hgap].
  apply SFsub_not_nan; assumption.
Qed.

Lemma nondecreasing64_tail (x : float) (rest : list float) :
  nondecreasing64 (x :: rest) -> nondecreasing64 rest.
Proof. destruct rest; simpl; tauto. Qed.

Lemma nondecreasing64_lower (x : float) (rest : list float) :
  nondecreasing64 (x :: rest) ->
  Forall (fun y => PrimFloat.leb x y = true) rest.
Proof.
  revert x. induction rest as [|y rest IH]; intros x Hx; constructor.
  - simpl in Hx. tauto.
  - destruct Hx as [Hxy Hrest]. specialize (IH y Hrest).
    eapply Forall_impl; [|exact IH]. simpl. intros z Hz.
    eapply leb64_trans; eauto.
Qed.

Lemma holders64_cons (x : float) (i : float * float)
    (intervals : list (float * float)) :
  holders64 x (i :: intervals)
  = ((if within64 x i then 1 else 0) + holders64 x intervals)%nat.
Proof. unfold holders64. simpl. destruct (within64 x i); reflexivity. Qed.

Lemma holders64_none (x bound : float) (intervals : list (float * float)) :
  PrimFloat.leb x bound = true ->
  Forall (fun i => PrimFloat.ltb bound (fst i) = true) intervals ->
  holders64 x intervals = 0%nat.
Proof.
  intros Hx Hall.
  induction Hall as [|i rest Hi _ IH]; [reflexivity|].
  rewrite holders64_cons, IH. unfold within64.
  rewrite (ltb64_not_geb x (fst i)) by (eapply leb64_ltb_trans; eauto).
  reflexivity.
Qed.

Lemma coalesce_from_invariant64 (hits : list float) :
  forall start finish : float,
    finite64 start = true ->
    Forall (fun x => finite64 x = true) (finish :: hits) ->
    PrimFloat.leb start finish = true ->
    gap_exceeds_75 finish start = false ->
    nondecreasing64 (finish :: hits) ->
    exists finish' rest,
      coalesce_from start finish hits = (start, finish') :: rest
      /\ PrimFloat.leb finish finish' = true
      /\ gap_exceeds_75 finish' start = false
      /\ finite64 finish' = true
      /\ Forall (fun i => PrimFloat.ltb finish' (fst i) = true) rest
      /\ Forall well_formed64 rest
      /\ starts_increasing64 ((start, finish') :: rest)
      /\ (forall x, PrimFloat.leb start x = true ->
                    PrimFloat.leb x finish = true ->
            holders64 x ((start, finish') :: rest) = 1%nat)
      /\ (forall x, In x hits ->
            holders64 x ((start, finish') :: rest) = 1%nat).
Proof.
  induction hits as [|hit rest IH]; intros start finish Hs Hfin Hsf Hnear Hnd.
  - inversion Hfin as [|? ? Hf _]; subst.
    exists finish, []. simpl.
    split; [reflexivity|]. split; [apply leb64_refl; exact Hf|].
    split; [exact Hnear|]. split; [exact Hf|].
    split; [constructor|]. split; [constructor|].
    split; [repeat constructor|]. split; [|intros x []].
    intros x Hx1 Hx2. unfold holders64, within64. simpl.
    rewrite Hx1, Hx2. reflexivity.
  - inversion Hfin as [|? ? Hf Hfin']; subst.
    inversion Hfin' as [|? ? Hh Hrest]; subst.
    pose proof (nondecreasing64_tail _ _ Hnd) as Hnd'.
    assert (Hfh : PrimFloat.leb finish hit = true) by (simpl in Hnd; tauto).
    cbn [coalesce_from].
    destruct (gap_exceeds_75 hit start) eqn:Hgap.
    + assert (Hlt : PrimFloat.ltb finish hit = true)
        by (apply (gap64_separates finish hit start); assumption).
      destruct (IH hit hit Hh Hfin' (leb64_refl _ Hh) (gap64_self _ Hh) Hnd')
        as (f' & tl & Heq & Hf' & Hnear' & Hff' & Hfar & Hwf & Hinc & Hcur
            & Hhits).
      exists finish, ((hit, f') :: tl). rewrite Heq.
      assert (Hfar' : Forall (fun i => PrimFloat.ltb finish (fst i) = true)
                        ((hit, f') :: tl)).
      { constructor; [exact Hlt|].
        eapply Forall_impl; [|exact Hfar]. simpl. intros i Hi.
        eapply leb64_ltb_trans; [|exact Hi].
        eapply leb64_trans; [exact Hfh|exact Hf']. }
      split; [reflexivity|]. split; [apply leb64_refl; exact Hf|].
      split; [exact Hnear|]. split; [exact Hf|].
      split; [exact Hfar'|].
      split.
      { constructor; [|exact Hwf]. split; [exact Hf'|].
        apply gap64_narrow; assumption. }
      split.
      { unfold starts_increasing64 in *. simpl map.
        constructor; [exact Hinc|].
        change (hit :: map fst tl) with (map fst ((hit, f') :: tl)).
        apply Forall_map.
        eapply Forall_impl; [|exact Hfar']. simpl. intros i Hi.
        eapply leb64_ltb_trans; [exact Hsf|exact Hi]. }
      split.
      { intros x Hx1 Hx2. rewrite holders64_cons.
        rewrite (holders64_none x finish _ Hx2 Hfar').
        unfold within64. simpl. rewrite Hx1, Hx2. reflexivity. }
      intros x Hin.
      assert (Hx : PrimFloat.leb hit x = true).
      { destruct Hin as [->|Hin]; [apply leb64_refl; exact Hh|].
        pose proof (nondecreasing64_lower _ _ Hnd') as Hlow.
        rewrite Forall_forall in Hlow. apply Hlow, Hin. }
      rewrite holders64_cons.
      replace (within64 x (start, finish)) with false.
      { destruct Hin as [->|Hin];
          [apply Hcur; apply leb64_refl; exact Hh|apply Hhits; exact Hin]. }
      unfold within64. simpl.
      rewrite (ltb64_not_geb finish x)
        by (eapply ltb64_leb_trans; [exact Hlt|exact Hx]).
      rewrite andb_false_r. reflexivity.
    + assert (Hsh : PrimFloat.leb start hit = true)
        by (eapply leb64_trans; eauto).
      destruct (IH start hit Hs Hfin' Hsh Hgap Hnd')
        as (f' & tl & Heq & Hf' & Hnear' & Hff' & Hfar & Hwf & Hinc & Hcur
            & Hhits).
      exists f', tl. rewrite Heq.
      split; [reflexivity|]. split; [eapply leb64_trans; eauto|].
      split; [exact Hnear'|]. split; [exact Hff'|].
      split; [exact Hfar|]. split; [exact Hwf|]. split; [exact Hinc|].
      split.
      * intros x Hx1 Hx2. apply Hcur; [exact Hx1|].
        eapply leb64_trans; eauto.
      * intros x [->|Hin];
          [apply Hcur; [exact Hsh|apply leb64_refl; exact Hh]
          |apply Hhits; exact Hin].
Qed.

Lemma coallesce_results_invariants_float64 (hits : list float) :
  Forall (fun x => finite64 x = true) hits ->
  nondecreasing64 hits ->
  Forall well_formed64 (coallesce_results hits)
  /\ starts_increasing64 (coallesce_results hits)
  /\ (forall x, In x hits -> holders64 x (coallesce_results hits) = 1%nat).
Proof.
  intros Hfin Hnd. rewrite coallesce_results_spec.
  destruct hits as [|first rest]; simpl coalesce_spec.
  - repeat split; [constructor|constructor|intros x []].
  - inversion Hfin as [|? ? Hf Hrest]; subst.
    destruct (coalesce_from_invariant64 rest first first Hf Hfin
                (leb64_refl _ Hf) (gap64_self _ Hf) Hnd)
      as (f' & tl & Heq & Hf' & Hnear & Hff' & Hfar & Hwf & Hinc & Hcur
          & Hhits).
    rewrite Heq. split; [|split].
    + constructor; [|exact Hwf]. split; [exact Hf'|].
      apply gap64_narrow; assumption.
    + exact Hinc.
    + intros x [->|Hin];
        [apply Hcur; apply leb64_refl; exact Hf|apply Hhits; exact Hin].
Qed.

(** C9 (amended).  On a nondecreasing list of hit distances that are finite
    float64 values, or exact integers, every interval [a, b] that
    [coallesce_results] returns has [a <= b] and [b - a <= 75], the
    difference being the one the arithmetic of the hits computes (rounded to
    nearest on float64, which is what the source tests); the intervals come
    in strictly increasing order of their starts; and every input hit lies
    within exactly one of them. *)
Theorem coallesce_results_invariants :
  (forall hits : list float,
     Forall (fun x => finite64 x = true) hits ->
     nondecreasing64 hits ->
     Forall well_formed64 (coallesce_results hits)
     /\ starts_increasing64 (coallesce_results hits)
     /\ (forall x, In x hits ->
           holders64 x (coallesce_results hits) = 1%nat))
  /\ (forall hits : list Z,
        nondecreasing hits ->
        Forall (fun i => fst i <= snd i /\ snd i - fst i <= 75)
               (coallesce_results hits)
        /\ starts_increasing (coallesce_results hits)
        /\ (forall x, In x hits ->
              holders x (coallesce_results hits) = 1%nat)).
Proof.
  split.
  - apply coallesce_results_invariants_float64.
  - apply coallesce_results_invariants_int.
Qed.

Lemma coallesce_results_invariants_witness :
  (Forall well_formed64 (coallesce_results [10; 12; 14; 100; 102]%float)
   /\ starts_increasing64 (coallesce_results [10; 12; 14; 100; 102]%float)
   /\ (forall x, In x [10; 12; 14; 100; 102]%float ->
         holders64 x (coallesce_results [10; 12; 14; 100; 102]%float)
         = 1%nat))
  /\ nondecreasing [10; 12; 14; 100; 102]
  /\ Forall (fun i => fst i <= snd i /\ snd i - fst i <= 75)
            (coallesce_results [10; 12; 14; 100; 102])
  /\ starts_increasing (coallesce_results [10; 12; 14; 100; 102])
  /\ (forall x, In x [10; 12; 14; 100; 102] ->
        holders x (coallesce_results [10; 12; 14; 100; 102]) = 1%nat).
Proof.
  assert (H : nondecreasing [10; 12; 14; 100; 102]) by (simpl; lia).
  split; [|split; [exact H|]].
  - exact (proj1 coallesce_results_invariants [10; 12; 14; 100; 102]%float
             ltac:(repeat constructor)
             ltac:(simpl; repeat split; reflexivity)).
  - exact (proj2 coallesce_results_invariants [10; 12; 14; 100; 102] H).
Defined.

(** The invariants do not hold for every nondecreasing list of float64
    hits, nor for the exact width.  Two infinite hits are merged into one
    interval whose width, infinity minus infinity, is NaN and so not at most
    75.  And the hits [2^-47] and [75 + 2^-46] are merged, their float64
    difference rounding to 75, while their exact difference, [75 + 2^-47],
    exceeds 75. *)
Lemma nonfinite_hits_break_width_bound :
  nondecreasing64 [infinity; infinity]%float
  /\ coallesce_results [infinity; infinity]%float
     = [(infinity, infinity)]%float
  /\ PrimFloat.leb (PrimFloat.sub infinity infinity) 75%float = false
  /\ nondecreasing64 [0x1p-47; 0x1.2c00000000001p+6]%float
  /\ coallesce_results [0x1p-47; 0x1.2c00000000001p+6]%float
     = [(0x1p-47, 0x1.2c00000000001p+6)]%float
  /\ PrimFloat.sub 0x1.2c00000000001p+6 0x1p-47 = 75%float
  /\ match exact_at (-99) 0x1p-47%float,
           exact_at (-99) 0x1.2c00000000001p+6%float with
     | Some a, Some b => 75 * 2 ^ 99 <? b - a
     | _, _ => false
     end = true.
Proof.
  repeat split; vm_compute; reflexivity.
Qed.

(* ------------------------------------------------------------------ *)
(** ** Primitive codec *)

Lemma len_nonneg {A : Type} (l : list A) : 0 <= len l.
Proof. unfold len. lia. Qed.

Lemma slice_index_bounds (n i : Z) : 0 <= n -> 0 <= slice_index n i <= n.
Proof. intros Hn. unfold slice_index. destruct (Z.ltb_spec i 0); lia. Qed.

Lemma slice_index_id (n i : Z) : 0 <= i <= n -> slice_index n i = i.
Proof.
  intros Hi. unfold slice_index. destruct (Z.ltb_spec i 0); lia.
Qed.

Lemma run_inside (data : bytes) (start width : nat) :
  (start + width <= List.length data)%nat ->
  inside data (firstn width (skipn start data))
  /\ List.length (firstn width (skipn start data)) = width.
Proof.
  intros Hle.
  assert (Hlen : List.length (firstn width (skipn start data)) = width).
  { rewrite length_firstn, length_skipn. lia. }
  split; [|exact Hlen].
  exists start. rewrite Hlen. split; [exact Hle|reflexivity].
Qed.

Lemma py_slice_inside (data : bytes) (a b : Z) : inside data (py_slice data a b).
Proof.
  unfold py_slice.
  pose proof (slice_index_bounds (len data) a (len_nonneg data)) as Ha.
  pose proof (slice_index_bounds (len data) b (len_nonneg data)) as Hb.
  set (s := slice_index (len data) a) in *.
  set (e := slice_index (len data) b) in *.
  destruct (Z.le_gt_cases s e) as [Hse|Hse].
  - apply run_inside. unfold len in *. lia.
  - replace (Z.to_nat (e - s)) with 0%nat by lia.
    apply (run_inside data (Z.to_nat s) 0). unfold len in *. lia.
Qed.

Lemma py_slice_field (data : bytes) (offset width : Z) :
  0 <= offset -> 0 <= width -> offset + width <= len data ->
  py_slice data offset (offset + width) = field data offset width.
Proof.
  intros Ho Hw Hle. unfold py_slice, field.
  rewrite !slice_index_id by lia. f_equal. f_equal. lia.
Qed.

Lemma field_length (data : bytes) (offset width : Z) :
  0 <= offset -> 0 <= width -> offset + width <= len data ->
  len (field data offset width) = width.
Proof.
  intros Ho Hw Hle. unfold field, len in *.
  rewrite length_firstn, length_skipn. lia.
Qed.

Lemma unpack_from_inside (size : Z) (data : bytes) (offset : Z) (raw : bytes) :
  0 <= size ->
  unpack_from size data offset = Ok raw ->
  inside data raw /\ len raw = size
  /\ (0 <= offset -> raw = field data offset size).
Proof.
  intros Hsize. unfold unpack_from.
  destruct (Z.ltb_spec offset 0) as [Hneg|Hpos].
  - destruct (Z.ltb_spec 0 (offset + size)); [discriminate|].
    destruct (Z.ltb_spec (offset + len data) 0); [discriminate|].
    intros [= <-].
    destruct (run_inside data (Z.to_nat (offset + len data)) (Z.to_nat size))
      as [Hin Hlen]; [unfold len in *; lia|].
    repeat split; [exact Hin| |lia].
    unfold len at 1. rewrite Hlen. lia.
  - destruct (Z.ltb_spec (len data - offset) size); [discriminate|].
    intros [= <-].
    destruct (run_inside data (Z.to_nat offset) (Z.to_nat size))
      as [Hin Hlen]; [unfold len in *; lia|].
    repeat split; [exact Hin|].
    unfold len at 1. rewrite Hlen. lia.
Qed.

Lemma unpack_from_ok (size : Z) (data : bytes) (offset : Z) :
  0 <= offset -> offset + size <= len data ->
  unpack_from size data offset = Ok (field data offset size).
Proof.
  intros Ho Hle. unfold unpack_from.
  destruct (Z.ltb_spec offset 0); [lia|].
  destruct (Z.ltb_spec (len data - offset) size); [lia|reflexivity].
Qed.

Lemma int_reader_short width decode msg data offset :
  remaining data offset < width ->
  int_reader width decode msg data offset = Raise (ParseError msg).
Proof.
  unfold remaining, int_reader. intros Hrem.
  destruct (Z.ltb_spec (len data) (offset + width)); [reflexivity|lia].
Qed.

Lemma int_reader_inside width decode msg data offset v offset' :
  0 <= width ->
  int_reader width decode msg data offset = Ok (v, offset') ->
  offset' = offset + width
  /\ exists raw, inside data raw /\ len raw = width /\ v = decode raw
                 /\ (0 <= offset -> raw = field data offset width).
Proof.
  intros Hw. unfold int_reader.
  destruct (len data <? offset + width); [discriminate|].
  destruct (unpack_from width data offset) as [raw|e] eqn:Hraw; [|discriminate].
  intros [= <- <-]. split; [reflexivity|].
  destruct (unpack_from_inside _ _ _ _ Hw Hraw) as (Hin & Hlen & Hat).
  exists raw. auto.
Qed.

Lemma int_reader_ok width decode msg data offset :
  0 <= offset -> offset + width <= len data ->
  int_reader width decode msg data offset
  = Ok (decode (field data offset width), offset + width).
Proof.
  intros Ho Hle. unfold int_reader.
  destruct (Z.ltb_spec (len data) (offset + width)); [lia|].
  rewrite unpack_from_ok by lia. reflexivity.
Qed.

Lemma parse_le_i16_reader :
  parse_le_i16 = int_reader 2 (fun raw => to_signed 16 (le_unsigned raw))
                   "Unexpected end of data in i16".
Proof. reflexivity. Qed.

Lemma parse_le_i32_reader :
  parse_le_i32 = int_reader 4 (fun raw => to_signed 32 (le_unsigned raw))
                   "Unexpected end of data in i32".
Proof. reflexivity. Qed.

Lemma parse_le_u16_reader :
  parse_le_u16 = int_reader 2 le_unsigned "Unexpected end of data in u16".
Proof. reflexivity. Qed.

Lemma parse_le_u32_reader :
  parse_le_u32 = int_reader 4 le_unsigned "Unexpected end of data in u32".
Proof. reflexivity. Qed.

Lemma fixed_length_str_short n data offset :
  remaining data offset < n ->
  fixed_length_str n data offset
  = Raise (ParseError "Unexpected end of data in fixed_length_str").
Proof.
  unfold remaining, fixed_length_str. intros Hrem.
  destruct (Z.ltb_spec (len data) (offset + n)); [reflexivity|lia].
Qed.

Lemma fixed_length_str_inside n data offset v offset' :
  fixed_length_str n data offset = Ok (v, offset') ->
  offset' = offset + n
  /\ exists raw, inside data raw /\ utf8_decode raw = Some v.
Proof.
  unfold fixed_length_str.
  destruct (len data <? offset + n); [discriminate|].
  destruct (utf8_decode (py_slice data offset (offset + n))) as [s|] eqn:Hdec;
    [|discriminate].
  intros [= <- <-]. split; [reflexivity|].
  exists (py_slice data offset (offset + n)).
  split; [apply py_slice_inside|exact Hdec].
Qed.

Lemma fixed_length_str_cases n data offset :
  0 <= offset -> 0 <= n -> offset + n <= len data ->
  fixed_length_str n data offset
  = match utf8_decode (field data offset n) with
    | Some decoded => Ok (decoded, offset + n)
    | None => Raise (ParseError "Failed to decode fixed_length_str")
    end.
Proof.
  intros Ho Hn Hle. unfold fixed_length_str.
  destruct (Z.ltb_spec (len data) (offset + n)); [lia|].
  rewrite py_slice_field by lia. reflexivity.
Qed.

(** C5.  Each primitive read fails with [ParseError] whenever fewer bytes
    remain past the offset than the field is wide; and a value a primitive
    read returns is decoded from a run of bytes that lies inside the buffer
    (the run at the offset itself when the offset is nonnegative). *)
Theorem truncation_law (data : bytes) (offset : Z) :
  (remaining data offset < 2 ->
     parse_le_i16 data offset
       = Raise (ParseError "Unexpected end of data in i16")
     /\ parse_le_u16 data offset
       = Raise (ParseError "Unexpected end of data in u16"))
  /\ (remaining data offset < 4 ->
     parse_le_i32 data offset
       = Raise (ParseError "Unexpected end of data in i32")
     /\ parse_le_u32 data offset
       = Raise (ParseError "Unexpected end of data in u32"))
  /\ (forall n, remaining data offset < n ->
     fixed_length_str n data offset
       = Raise (ParseError "Unexpected end of data in fixed_length_str"))
  /\ (forall v offset', parse_le_i16 data offset = Ok (v, offset') ->
     exists raw, inside data raw /\ len raw = 2
                 /\ v = to_signed 16 (le_unsigned raw)
                 /\ (0 <= offset -> raw = field data offset 2))
  /\ (forall v offset', parse_le_u16 data offset = Ok (v, offset') ->
     exists raw, inside data raw /\ len raw = 2 /\ v = le_unsigned raw
                 /\ (0 <= offset -> raw = field data offset 2))
  /\ (forall v offset', parse_le_i32 data offset = Ok (v, offset') ->
     exists raw, inside data raw /\ len raw = 4
                 /\ v = to_signed 32 (le_unsigned raw)
                 /\ (0 <= offset -> raw = field data offset 4))
  /\ (forall v offset', parse_le_u32 data offset = Ok (v, offset') ->
     exists raw, inside data raw /\ len raw = 4 /\ v = le_unsigned raw
                 /\ (0 <= offset -> raw = field data offset 4))
  /\ (forall n v offset', fixed_length_str n data offset = Ok (v, offset') ->
     exists raw, inside data raw /\ utf8_decode raw = Some v).
Proof.
  repeat split.
  - rewrite parse_le_i16_reader. now apply int_reader_short.
  - rewrite parse_le_u16_reader. now apply int_reader_short.
  - rewrite parse_le_i32_reader. now apply int_reader_short.
  - rewrite parse_le_u32_reader. now apply int_reader_short.
  - intros n. apply fixed_length_str_short.
  - intros v o. rewrite parse_le_i16_reader. intros Hok.
    apply int_reader_inside in Hok; [tauto|lia].
  - intros v o. rewrite parse_le_u16_reader. intros Hok.
    apply int_reader_inside in Hok; [tauto|lia].
  - intros v o. rewrite parse_le_i32_reader. intros Hok.
    apply int_reader_inside in Hok; [tauto|lia].
  - intros v o. rewrite parse_le_u32_reader. intros Hok.
    apply int_reader_inside in Hok; [tauto|lia].
  - intros n v o Hok. apply fixed_length_str_inside in Hok. tauto.
Qed.

Lemma truncation_law_witness :
  remaining [x01] 0 < 2
  /\ parse_le_i16 [x01] 0 = Raise (ParseError "Unexpected end of data in i16")
  /\ parse_le_u16 [x01] 0 = Raise (ParseError "Unexpected end of data in u16").
Proof.
  assert (H : remaining [x01] 0 < 2) by reflexivity.
  split; [exact H|].
  exact (proj1 (truncation_law [x01] 0) H).
Defined.

(** ** Fixed-length strings *)

Lemma encode_chars_wide (s : pystr) :
  forall (acc : bytes) (c : Z) (encoded : bytes),
    In c s -> utf8_encode_char c = Some encoded -> 1 < len encoded ->
    exists e, encode_chars s acc = Raise e /\ is_encoding_error e.
Proof.
  induction s as [|c0 s' IH]; intros acc c encoded Hin Henc Hwide.
  - destruct Hin.
  - simpl. destruct (utf8_encode_char c0) as [enc0|] eqn:Henc0.
    + destruct (Z.eqb_spec (len enc0) 1) as [Hone|Hmany]; simpl.
      * destruct Hin as [->|Hin].
        -- rewrite Henc in Henc0. injection Henc0 as ->. lia.
        -- eapply IH; eauto.
      * eexists. split; [reflexivity|reflexivity].
    + eexists. split; [reflexivity|exact I].
Qed.

Lemma encode_chars_wide_exact (s : pystr) :
  forall (acc : bytes) (c : Z) (encoded : bytes),
    Forall (fun c' => utf8_encode_char c' <> None) s ->
    In c s -> utf8_encode_char c = Some encoded -> 1 < len encoded ->
    encode_chars s acc = Raise (PlainException MSG_WIDE).
Proof.
  induction s as [|c0 s' IH]; intros acc c encoded Hall Hin Henc Hwide.
  - destruct Hin.
  - inversion Hall as [|? ? Hc0 Hall']; subst.
    simpl. destruct (utf8_encode_char c0) as [enc0|] eqn:Henc0; [|congruence].
    destruct (Z.eqb_spec (len enc0) 1) as [Hone|Hmany]; simpl; [|reflexivity].
    destruct Hin as [->|Hin].
    + rewrite Henc in Henc0. injection Henc0 as ->. lia.
    + eapply IH; eauto.
Qed.

(** C6 (amended).  Encoding a fixed-length string that holds a character
    whose UTF-8 encoding is longer than one byte fails with an encoding
    error, and with the encoder's own exception when every character of the
    string can be encoded at all.  Decoding a fixed-length field of [n]
    bytes, at least [n] bytes remaining, advances the cursor by exactly [n]
    when those bytes are valid UTF-8, and fails with [ParseError] when they
    are not. *)
Theorem fixed_length_string_law :
  (forall (b : bytes) (s : pystr) (length c : Z) (encoded : bytes),
      In c s -> utf8_encode_char c = Some encoded -> 1 < len encoded ->
      (exists e, encode_fixed_length_str b s length = Raise e
                 /\ is_encoding_error e)
      /\ (Forall (fun c' => utf8_encode_char c' <> None) s ->
          encode_fixed_length_str b s length
          = Raise (PlainException MSG_WIDE)))
  /\ (forall (data : bytes) (offset n : Z),
      0 <= offset -> 0 <= n -> offset + n <= len data ->
      fixed_length_str n data offset
      = match utf8_decode (field data offset n) with
        | Some decoded => Ok (decoded, offset + n)
        | None => Raise (ParseError "Failed to decode fixed_length_str")
        end).
Proof.
  split.
  - intros b s length c encoded Hin Henc Hwide. unfold encode_fixed_length_str.
    split.
    + destruct (encode_chars_wide s [] c encoded Hin Henc Hwide)
        as (e & -> & He).
      exists e. split; [reflexivity|exact He].
    + intros Hall.
      rewrite (encode_chars_wide_exact s [] c encoded Hall Hin Henc Hwide).
      reflexivity.
  - intros data offset n. apply fixed_length_str_cases.
Qed.

Lemma fixed_length_string_law_witness :
  encode_fixed_length_str [] (str_lit "k" ++ [233]) 2
    = Raise (PlainException MSG_WIDE)
  /\ fixed_length_str 2 (list_byte_of_string "km") 0 = Ok (str_lit "km", 2).
Proof.
  split.
  - refine (proj2 (proj1 fixed_length_string_law [] (str_lit "k" ++ [233]) 2
                     233 [xc3; xa9] _ _ _) _).
    + simpl. auto.
    + reflexivity.
    + reflexivity.
    + repeat constructor; discriminate.
  - exact (proj2 fixed_length_string_law (list_byte_of_string "km") 0 2
             ltac:(lia) ltac:(lia) ltac:(vm_compute; discriminate)).
Defined.

(** A field of two bytes that are not valid UTF-8: two bytes remain, and the
    read fails instead of advancing the cursor. *)
Lemma fixed_length_str_rejects_invalid_utf8 :
  2 <= remaining [xff; xfe] 0
  /\ fixed_length_str 2 [xff; xfe] 0
     = Raise (ParseError "Failed to decode fixed_length_str").
Proof. split; [vm_compute; discriminate|reflexivity]. Qed.

(* ------------------------------------------------------------------ *)
(** ** Block extractor *)

Lemma pystr_eqb_eq (a b : pystr) : pystr_eqb a b = true <-> a = b.
Proof.
  revert b. induction a as [|x a IH]; intros [|y b]; simpl;
    try (split; [discriminate|discriminate]); [tauto|].
  rewrite andb_true_iff, Z.eqb_eq, IH. split.
  - intros [-> ->]. reflexivity.
  - intros [= -> ->]. split; reflexivity.
Qed.

Lemma pystr_eqb_refl (a : pystr) : pystr_eqb a a = true.
Proof. apply pystr_eqb_eq. reflexivity. Qed.

Lemma pystr_eqb_neq (a b : pystr) : a <> b -> pystr_eqb a b = false.
Proof.
  intros Hne. destruct (pystr_eqb a b) eqn:E; [|reflexivity].
  apply pystr_eqb_eq in E. contradiction.
Qed.

Lemma sum_sizes_nonneg (infos : list BlockInfo) :
  Forall (fun bi => 0 <= size bi) infos -> 0 <= sum_sizes infos.
Proof. induction 1; simpl; lia. Qed.

(** The walk stops at the [k]-th entry with the sizes before it added up. *)
Lemma walk_to_entry (infos : list BlockInfo) :
  forall (k : nat) (bi : BlockInfo) (offset length : Z),
    NoDup (map identifier infos) ->
    Forall (fun b => 0 <= size b) (firstn k infos) ->
    nth_error infos k = Some bi ->
    walk_block_info (identifier bi) infos offset length
    = Ok (offset + sum_sizes (firstn k infos), size bi).
Proof.
  induction infos as [|b0 rest IH]; intros k bi offset length Hnd Hpos Hk.
  - destruct k; discriminate.
  - destruct k as [|k]; simpl in Hk.
    + injection Hk as ->. simpl. rewrite pystr_eqb_refl. f_equal. f_equal. lia.
    + simpl in Hnd. inversion Hnd as [|? ? Hnotin Hnd']; subst.
      simpl in Hpos. inversion Hpos as [|? ? Hb0 Hpos']; subst.
      assert (Hne : identifier b0 <> identifier bi).
      { intros Heq. apply Hnotin. rewrite Heq.
        apply in_map. eapply nth_error_In; eauto. }
      simpl. rewrite (pystr_eqb_neq _ _ Hne).
      destruct (Z.ltb_spec (offset + size b0) offset); [lia|].
      rewrite (IH k bi _ _ Hnd' Hpos' Hk). f_equal. f_equal. lia.
Qed.

(** A negative size before the requested entry trips the overflow test. *)
Lemma walk_negative (header : pystr) (infos : list BlockInfo) :
  forall offset length : Z,
    Exists (fun bi => size bi < 0) (preceding header infos) ->
    walk_block_info header infos offset length = Raise (ParseError MSG_OFFSET).
Proof.
  induction infos as [|b0 rest IH]; intros offset length Hex; simpl in *.
  - inversion Hex.
  - destruct (pystr_eqb (identifier b0) header); [inversion Hex|].
    destruct (Z.ltb_spec (offset + size b0) offset); [reflexivity|].
    inversion Hex as [? ? Hneg|? ? Hlater]; subst; [lia|].
    apply IH. exact Hlater.
Qed.

(** With nonnegative sizes before the requested entry, the state after [i]
    iterations is the start offset plus the first [i] sizes. *)
Lemma walk_prefix (header : pystr) (i : nat) :
  forall (infos : list BlockInfo) (offset length : Z),
    Forall (fun bi => 0 <= size bi) (preceding header infos) ->
    (i <= List.length (preceding header infos))%nat ->
    exists length',
      walk_block_info header infos offset length
      = walk_block_info header (skipn i infos)
          (offset + sum_sizes (firstn i infos)) length'.
Proof.
  induction i as [|i IH]; intros infos offset length Hpos Hi.
  - exists length. simpl. f_equal. lia.
  - destruct infos as [|b0 rest]; simpl in Hi; [lia|].
    simpl in Hpos.
    destruct (pystr_eqb (identifier b0) header) eqn:Hid; [simpl in Hi; lia|].
    inversion Hpos as [|? ? Hb0 Hpos']; subst. simpl in Hi.
    destruct (IH rest (offset + size b0) (size b0) Hpos' ltac:(lia))
      as [length' Heq].
    exists length'. simpl. rewrite Hid.
    destruct (Z.ltb_spec (offset + size b0) offset); [lia|].
    rewrite Heq. f_equal. lia.
Qed.

Lemma walk_nonneg (header : pystr) (infos : list BlockInfo) :
  forall offset length : Z,
    Forall (fun bi => 0 <= size bi) (preceding header infos) ->
    exists length',
      walk_block_info header infos offset length
      = Ok (offset + sum_sizes (preceding header infos), length').
Proof.
  induction infos as [|b0 rest IH]; intros offset length Hpos; simpl in *.
  - exists length. f_equal. f_equal. lia.
  - destruct (pystr_eqb (identifier b0) header).
    + exists (size b0). f_equal. f_equal. simpl. lia.
    + inversion Hpos as [|? ? Hb0 Hpos']; subst.
      destruct (Z.ltb_spec (offset + size b0) offset); [lia|].
      destruct (IH (offset + size b0) (size b0) Hpos') as [length' ->].
      exists length'. f_equal. f_equal. simpl. lia.
Qed.

Lemma sum_sizes_firstn_mono (infos : list BlockInfo) :
  Forall (fun bi => 0 <= size bi) infos ->
  forall i j : nat, (i <= j)%nat ->
    sum_sizes (firstn i infos) <= sum_sizes (firstn j infos).
Proof.
  induction 1 as [|b0 rest Hb0 Hrest IH]; intros i j Hij.
  - rewrite !firstn_nil. lia.
  - destruct i as [|i], j as [|j]; simpl; try lia.
    + specialize (IH 0%nat j ltac:(lia)). simpl in IH. lia.
    + specialize (IH i j ltac:(lia)). lia.
Qed.

(** C4 (amended).  In a directory with pairwise distinct identifiers and
    nonnegative sizes, [extract_block_data] asked for the [k]-th entry's
    identifier returns the bytes that start at
    [block_size + s0 + ... + s(k-1)] and number [sk], whenever that start is
    not negative and the buffer contains the range; the start is not
    negative whenever the declared [block_size] is not; and the function
    fails with [ParseError] when the end of the range lies past the buffer,
    whatever the [block_size]. *)
Theorem directory_offset_law (data : bytes) (map_blk : MapBlock) (k : nat)
    (bi : BlockInfo) :
  NoDup (map identifier (block_info map_blk)) ->
  Forall (fun b => 0 <= size b) (block_info map_blk) ->
  nth_error (block_info map_blk) k = Some bi ->
  (0 <= entry_start map_blk k ->
   entry_start map_blk k + size bi <= len data ->
     extract_block_data data (identifier bi) map_blk
       = Ok (field data (entry_start map_blk k) (size bi))
     /\ len (field data (entry_start map_blk k) (size bi)) = size bi)
  /\ (0 <= block_size map_blk -> 0 <= entry_start map_blk k)
  /\ (len data < entry_start map_blk k + size bi ->
     extract_block_data data (identifier bi) map_blk
       = Raise (ParseError MSG_POSITION)).
Proof.
  intros Hnd Hpos Hk.
  assert (Hbi : 0 <= size bi).
  { rewrite Forall_forall in Hpos. apply Hpos. eapply nth_error_In; eauto. }
  assert (Hpre : Forall (fun b => 0 <= size b) (firstn k (block_info map_blk))).
  { rewrite <- (firstn_skipn k (block_info map_blk)) in Hpos.
    apply Forall_app in Hpos. tauto. }
  unfold extract_block_data.
  rewrite (walk_to_entry _ k bi _ _ Hnd Hpre Hk).
  fold (entry_start map_blk k). split; [|split].
  - intros Hstart Hend.
    destruct (Z.ltb_spec (len data) (entry_start map_blk k)); [lia|].
    destruct (Z.ltb_spec (len data) (entry_start map_blk k + size bi)); [lia|].
    simpl. split.
    + f_equal. apply py_slice_field; lia.
    + apply field_length; lia.
  - intros Hbs. unfold entry_start.
    pose proof (sum_sizes_nonneg _ Hpre). lia.
  - intros Hpast.
    destruct (Z.ltb_spec (len data) (entry_start map_blk k + size bi)); [|lia].
    rewrite orb_true_r. reflexivity.
Qed.

Lemma directory_offset_law_witness :
  extract_block_data demo_buffer (str_lit "Cksum") demo_map
    = Ok (list_byte_of_string "cksum!")
  /\ extract_block_data (firstn 27 demo_buffer) (str_lit "Cksum") demo_map
    = Raise (ParseError MSG_POSITION).
Proof.
  assert (Hnd : NoDup (map identifier (block_info demo_map))).
  { repeat constructor; simpl; intuition discriminate. }
  assert (Hpos : Forall (fun b => 0 <= size b) (block_info demo_map)).
  { repeat constructor; simpl; lia. }
  split.
  - exact (proj1 (proj1 (directory_offset_law demo_buffer demo_map 1 _
                           Hnd Hpos eq_refl)
                    ltac:(vm_compute; discriminate)
                    ltac:(vm_compute; discriminate))).
  - exact (proj2 (proj2 (directory_offset_law (firstn 27 demo_buffer)
                           demo_map 1 _ Hnd Hpos eq_refl)) eq_refl).
Defined.

(** The law does not hold for every [block_size].  [map_block] reads the
    field as a signed 32-bit value and nothing rejects a negative one.  With
    [block_size = -1] and one entry of size 2, the range [-1, 1) ends inside
    a four-byte buffer, yet the call returns neither two bytes nor an error:
    the slice takes Python's reading of a negative index and is empty.  Such
    a Map comes out of the decoder: a 20-byte file whose Map declares
    [block_size = -8] decodes, its one block read from the bytes of the
    directory itself. *)
Lemma negative_block_size_breaks_offset_law :
  NoDup (map identifier (block_info negative_start_map))
  /\ Forall (fun b => 0 <= size b) (block_info negative_start_map)
  /\ nth_error (block_info negative_start_map) 0
     = Some {| identifier := str_lit "A"; bi_revision_number := 0;
               size := 2 |}
  /\ entry_start negative_start_map 0 = -1
  /\ entry_start negative_start_map 0 + 2 <= len (list_byte_of_string "abcd")
  /\ extract_block_data (list_byte_of_string "abcd") (str_lit "A")
       negative_start_map
     = Ok []
  /\ parse_file negative_start_file
     = Ok {| sor_map :=
               {| revision_number := 200; block_size := -8;
                  block_count := 2;
                  block_info :=
                    [ {| identifier := str_lit "X";
                         bi_revision_number := 200; size := 4 |} ] |};
             general_parameters := None; supplier_parameters := None;
             fixed_parameters := None; key_events := None;
             link_parameters := None; data_points := None;
             proprietary_blocks :=
               [ {| pb_header := str_lit "X"; pb_data := [xc8; x00] |} ] |}.
Proof.
  split; [repeat constructor; simpl; tauto|].
  split; [repeat constructor; simpl; lia|].
  repeat split; vm_compute; try reflexivity. discriminate.
Qed.

(** With a negative [block_size] the slice takes Python's reading of
    negative indices: the range [-1, 1) of a four-byte buffer is empty. *)
Example extract_negative_block_size :
  extract_block_data (list_byte_of_string "abcd") (str_lit "A")
    {| revision_number := 0; block_size := -1; block_count := 2;
       block_info := [ {| identifier := str_lit "A";
                          bi_revision_number := 0; size := 2 |} ] |}
  = Ok [].
Proof. reflexivity. Qed.

(** C10.  [extract_block_data] raises the overflow [ParseError] whenever an
    entry strictly before the first one matching the requested identifier
    has a negative size.  When all those entries have nonnegative sizes the
    overflow branch is not taken: after [i] iterations the running offset is
    [block_size] plus the first [i] sizes, these offsets never decrease, the
    walk ends normally, and the error raised, if any, is not the overflow
    one. *)
Theorem running_offset_overflow (data : bytes) (header : pystr)
    (map_blk : MapBlock) :
  (Exists (fun bi => size bi < 0) (preceding header (block_info map_blk)) ->
     extract_block_data data header map_blk = Raise (ParseError MSG_OFFSET))
  /\ (Forall (fun bi => 0 <= size bi)
             (preceding header (block_info map_blk)) ->
     (forall i : nat,
        (i <= List.length (preceding header (block_info map_blk)))%nat ->
        exists length,
          walk_block_info header (block_info map_blk) (block_size map_blk) 0
          = walk_block_info header (skipn i (block_info map_blk))
              (entry_start map_blk i) length)
     /\ (forall i j : nat, (i <= j)%nat ->
        (j <= List.length (preceding header (block_info map_blk)))%nat ->
        entry_start map_blk i <= entry_start map_blk j)
     /\ (exists length,
        walk_block_info header (block_info map_blk) (block_size map_blk) 0
        = Ok (block_size map_blk
              + sum_sizes (preceding header (block_info map_blk)), length))
     /\ extract_block_data data header map_blk
        <> Raise (ParseError MSG_OFFSET)).
Proof.
  split.
  - intros Hex. unfold extract_block_data.
    rewrite (walk_negative header _ _ _ Hex). reflexivity.
  - intros Hpos. repeat split.
    + intros i Hi. apply walk_prefix; assumption.
    + intros i j Hij Hj. unfold entry_start.
      assert (Hfirst : forall n : nat,
                (n <= List.length (preceding header (block_info map_blk)))%nat ->
                firstn n (block_info map_blk)
                = firstn n (preceding header (block_info map_blk))).
      { clear. generalize (block_info map_blk) as infos.
        induction infos as [|b0 rest IH]; intros n Hn; simpl in *.
        - rewrite !firstn_nil. reflexivity.
        - destruct (pystr_eqb (identifier b0) header); simpl in Hn.
          + replace n with 0%nat by lia. reflexivity.
          + destruct n as [|n]; [reflexivity|]. simpl. f_equal.
            apply IH. lia. }
      rewrite (Hfirst i) by lia. rewrite (Hfirst j) by lia.
      pose proof (sum_sizes_firstn_mono _ Hpos i j Hij). lia.
    + apply walk_nonneg. exact Hpos.
    + unfold extract_block_data.
      destruct (walk_nonneg header _ (block_size map_blk) 0 Hpos)
        as [length ->].
      match goal with |- context [if ?c then _ else _] => destruct c end.
      * unfold MSG_POSITION, MSG_OFFSET. discriminate.
      * discriminate.
Qed.

Lemma running_offset_overflow_witness :
  extract_block_data demo_buffer (str_lit "Cksum") negative_map
    = Raise (ParseError MSG_OFFSET)
  /\ extract_block_data demo_buffer (str_lit "Cksum") demo_map
    <> Raise (ParseError MSG_OFFSET).
Proof.
  split.
  - refine (proj1 (running_offset_overflow demo_buffer (str_lit "Cksum")
                     negative_map) _).
    apply Exists_cons_hd. simpl. lia.
  - refine (proj2 (proj2 (proj2 (proj2 (running_offset_overflow demo_buffer
                     (str_lit "Cksum") demo_map) _)))).
    repeat constructor; simpl; lia.
Defined.

(* ------------------------------------------------------------------ *)
(** ** Typed block decoders *)

Lemma bind_ok {A B : Type} (p : parser A) (f : A -> parser B)
    (data : bytes) (offset : Z) (r : B * Z) :
  bind p f data offset = Ok r ->
  exists a offset1, p data offset = Ok (a, offset1) /\ f a data offset1 = Ok r.
Proof.
  unfold bind. destruct (p data offset) as [[a offset1]|e]; [|discriminate].
  intros Hf. exists a, offset1. split; [reflexivity|exact Hf].
Qed.

Lemma int_reader_advance width decode msg data offset v offset' :
  int_reader width decode msg data offset = Ok (v, offset') ->
  offset' = offset + width.
Proof.
  unfold int_reader. destruct (len data <? offset + width); [discriminate|].
  destruct (unpack_from width data offset); [|discriminate].
  intros [= _ <-]. reflexivity.
Qed.

Lemma block_header_advance header data offset u offset' :
  block_header header data offset = Ok (u, offset') ->
  exists expected,
    utf8_encode (str_lit header) = Some expected
    /\ offset' = offset + len expected + 1.
Proof.
  unfold block_header.
  destruct (utf8_encode (str_lit header)) as [expected|]; [|discriminate].
  destruct (negb (bytes_eqb _ expected)); [discriminate|].
  destruct (negb (bytes_eqb _ [x00])); [discriminate|].
  intros [= _ <-]. exists expected. split; reflexivity.
Qed.

Lemma fxd_header_advance data offset u offset' :
  block_header "FxdParams" data offset = Ok (u, offset') ->
  offset' = offset + 10.
Proof.
  intros H. apply block_header_advance in H.
  destruct H as (expected & Henc & ->).
  vm_compute in Henc. injection Henc as <-. unfold len. simpl. lia.
Qed.

(** A count-driven loop over a fixed-width reader: it returns as many values
    as it iterates, one after the other in the buffer. *)
Lemma repeat_nat_int_reader width decode msg (data : bytes) (n : nat) :
  forall (offset : Z) (xs : list Z) (offset' : Z),
    repeat_nat n (int_reader width decode msg) data offset = Ok (xs, offset') ->
    List.length xs = n
    /\ offset' = offset + width * Z.of_nat n
    /\ forall i : nat, (i < n)%nat ->
         int_reader width decode msg data (offset + width * Z.of_nat i)
         = Ok (nth i xs 0, offset + width * Z.of_nat i + width).
Proof.
  induction n as [|n IH]; intros offset xs offset' Hrun.
  - simpl in Hrun. unfold ret in Hrun. injection Hrun as <- <-.
    repeat split; [lia|intros i Hi; lia].
  - simpl in Hrun.
    apply bind_ok in Hrun. destruct Hrun as (x & o1 & Hx & Hrun).
    apply bind_ok in Hrun. destruct Hrun as (tl & o2 & Htl & Hrun).
    unfold ret in Hrun. injection Hrun as <- <-.
    pose proof (int_reader_advance _ _ _ _ _ _ _ Hx) as ->.
    destruct (IH _ _ _ Htl) as (Hlen & -> & Hnth).
    repeat split; [simpl; lia|lia|].
    intros [|i] Hi.
    + simpl. rewrite Z.mul_0_r, Z.add_0_r. exact Hx.
    + simpl nth. specialize (Hnth i ltac:(lia)).
      replace (offset + width * Z.of_nat (S i))
        with (offset + width + width * Z.of_nat i) by lia.
      exact Hnth.
Qed.

Lemma repeat_range_int_reader width decode msg data (n offset : Z) xs offset' :
  repeat_range n (int_reader width decode msg) data offset = Ok (xs, offset') ->
  len xs = Z.max 0 n
  /\ offset' = offset + width * Z.max 0 n
  /\ forall i : Z, 0 <= i < n ->
       int_reader width decode msg data (offset + width * i)
       = Ok (nth (Z.to_nat i) xs 0, offset + width * i + width).
Proof.
  unfold repeat_range. intros Hrun.
  destruct (repeat_nat_int_reader _ _ _ _ _ _ _ _ Hrun) as (Hlen & -> & Hnth).
  repeat split; [unfold len; lia|f_equal; lia|].
  intros i Hi. specialize (Hnth (Z.to_nat i) ltac:(lia)).
  rewrite Z2Nat.id in Hnth by lia. exact Hnth.
Qed.

(** C8 (amended).  When [fixed_parameters_block] decodes a block starting
    at [offset], the count field is the i16 at [offset + 26]; the three
    arrays have the same length, [max 0 count] (the count itself when it is
    nonnegative, none when it is negative); and they are three consecutive
    runs: the pulse widths are the i16 values from [offset + 28] on, the
    data spacings the i32 values that follow them, the point counts the i32
    values after those, and [group_index] comes next. *)
Theorem fixed_parameters_arrays (data : bytes) (offset : Z)
    (fp : FixedParametersBlock) (offset' : Z) :
  fixed_parameters_block data offset = Ok (fp, offset') ->
  parse_le_i16 data (offset + 26)
    = Ok (total_n_pulse_widths_used fp, arrays_base offset)
  /\ len (pulse_widths_used fp) = array_count fp
  /\ len (data_spacing fp) = array_count fp
  /\ len (n_data_points_for_pulse_widths_used fp) = array_count fp
  /\ (forall i : Z, 0 <= i < total_n_pulse_widths_used fp ->
        parse_le_i16 data (arrays_base offset + 2 * i)
          = Ok (nth (Z.to_nat i) (pulse_widths_used fp) 0,
                arrays_base offset + 2 * i + 2)
        /\ parse_le_i32 data
             (arrays_base offset + 2 * array_count fp + 4 * i)
          = Ok (nth (Z.to_nat i) (data_spacing fp) 0,
                arrays_base offset + 2 * array_count fp + 4 * i + 4)
        /\ parse_le_i32 data
             (arrays_base offset + 6 * array_count fp + 4 * i)
          = Ok (nth (Z.to_nat i) (n_data_points_for_pulse_widths_used fp) 0,
                arrays_base offset + 6 * array_count fp + 4 * i + 4))
  /\ parse_le_i32 data (arrays_base offset + 10 * array_count fp)
    = Ok (group_index fp, arrays_base offset + 10 * array_count fp + 4).
Proof.
  intros H. unfold fixed_parameters_block in H.
  apply bind_ok in H. destruct H as (u & o1 & Hhdr & H).
  apply bind_ok in H. destruct H as (dts & o2 & Hdts & H).
  apply bind_ok in H. destruct H as (uod & o3 & Huod & H).
  apply bind_ok in H. destruct H as (aw & o4 & Haw & H).
  apply bind_ok in H. destruct H as (ao & o5 & Hao & H).
  apply bind_ok in H. destruct H as (aod & o6 & Haod & H).
  apply bind_ok in H. destruct H as (count & o7 & Hcount & H).
  apply bind_ok in H. destruct H as (pw & o8 & Hpw & H).
  apply bind_ok in H. destruct H as (ds & o9 & Hds & H).
  apply bind_ok in H. destruct H as (ndp & o10 & Hndp & H).
  apply bind_ok in H. destruct H as (gi & o11 & Hgi & H).
  repeat (apply bind_ok in H; destruct H as (? & ? & _ & H)).
  unfold ret in H. injection H as <- _.
  unfold array_count, arrays_base.
  cbn [total_n_pulse_widths_used pulse_widths_used data_spacing
       n_data_points_for_pulse_widths_used group_index].
  apply fxd_header_advance in Hhdr. subst o1.
  rewrite parse_le_u32_reader in Hdts. apply int_reader_advance in Hdts.
  apply fixed_length_str_inside in Huod. destruct Huod as [Huod _].
  rewrite parse_le_i16_reader in *. rewrite parse_le_i32_reader in *.
  apply int_reader_advance in Haw, Hao, Haod.
  pose proof (int_reader_advance _ _ _ _ _ _ _ Hcount) as Ho7.
  apply repeat_range_int_reader in Hpw, Hds, Hndp.
  destruct Hpw as (Lpw & Ho8 & Npw).
  destruct Hds as (Lds & Ho9 & Nds).
  destruct Hndp as (Lndp & Ho10 & Nndp).
  subst o2 o3 o4 o5 o6.
  replace (offset + 26) with (offset + 10 + 4 + 2 + 2 + 4 + 4) by lia.
  replace (offset + 28) with o7 by lia.
  split; [rewrite Hcount; f_equal; f_equal; lia|].
  split; [exact Lpw|]. split; [exact Lds|]. split; [exact Lndp|].
  split.
  - intros i Hi. replace (Z.max 0 count) with count in * by lia.
    split; [apply Npw; lia|]. split.
    + replace (o7 + 2 * count + 4 * i) with (o8 + 4 * i) by lia.
      apply Nds; lia.
    + replace (o7 + 6 * count + 4 * i) with (o9 + 4 * i) by lia.
      apply Nndp; lia.
  - replace (o7 + 10 * Z.max 0 count) with o10 by lia.
    rewrite Hgi. f_equal. f_equal.
    apply int_reader_advance in Hgi. lia.
Qed.

Lemma fixed_parameters_arrays_witness :
  fixed_parameters_block (fxd_buffer 146800 2 [10; 20] [100; 200] [5; 6]) 0
    = Ok (fxd_block 146800 2 [10; 20] [100; 200] [5; 6], 102)
  /\ len (pulse_widths_used (fxd_block 146800 2 [10; 20] [100; 200] [5; 6]))
     = array_count (fxd_block 146800 2 [10; 20] [100; 200] [5; 6])
  /\ len (data_spacing (fxd_block 146800 2 [10; 20] [100; 200] [5; 6]))
     = array_count (fxd_block 146800 2 [10; 20] [100; 200] [5; 6]).
Proof.
  assert (H : fixed_parameters_block
                (fxd_buffer 146800 2 [10; 20] [100; 200] [5; 6]) 0
              = Ok (fxd_block 146800 2 [10; 20] [100; 200] [5; 6], 102))
    by (vm_compute; reflexivity).
  split; [exact H|].
  pose proof (fixed_parameters_arrays _ _ _ _ H) as P.
  split; [exact (proj1 (proj2 P))|exact (proj1 (proj2 (proj2 P)))].
Defined.

(** A block whose count field is [-1] decodes: the three loops read
    nothing, so the arrays are empty while the count is [-1]. *)
Lemma fixed_parameters_negative_count :
  fixed_parameters_block (fxd_buffer 146800 (-1) [] [] []) 0
    = Ok (fxd_block 146800 (-1) [] [] [], 82)
  /\ total_n_pulse_widths_used (fxd_block 146800 (-1) [] [] []) = -1
  /\ len (pulse_widths_used (fxd_block 146800 (-1) [] [] [])) = 0
  /\ len (data_spacing (fxd_block 146800 (-1) [] [] [])) = 0
  /\ len (n_data_points_for_pulse_widths_used (fxd_block 146800 (-1) [] [] [])) = 0.
Proof. repeat split; vm_compute; reflexivity. Qed.

(* ------------------------------------------------------------------ *)
(** ** Decoders raise nothing but [ParseError] *)

Lemma sound_ret {A : Type} (a : A) : sound (ret a).
Proof. intros data offset Ho. exact Ho. Qed.

Lemma sound_raise {A : Type} (msg : string) :
  sound (fun _ _ => @Raise (A * Z) (ParseError msg)).
Proof. intros data offset Ho. exact I. Qed.

Lemma sound_bind {A B : Type} (p : parser A) (f : A -> parser B) :
  sound p -> (forall a, sound (f a)) -> sound (bind p f).
Proof.
  intros Hp Hf data offset Ho. unfold bind.
  specialize (Hp data offset Ho).
  destruct (p data offset) as [[a offset1]|e]; [|exact Hp].
  apply Hf. exact Hp.
Qed.

Lemma sound_repeat_nat {A : Type} (n : nat) (p : parser A) :
  sound p -> sound (repeat_nat n p).
Proof.
  intros Hp. induction n as [|n IH]; simpl.
  - apply sound_ret.
  - apply sound_bind; [exact Hp|]. intros x.
    apply sound_bind; [exact IH|]. intros xs. apply sound_ret.
Qed.

Lemma sound_repeat_range {A : Type} (n : Z) (p : parser A) :
  sound p -> sound (repeat_range n p).
Proof. apply sound_repeat_nat. Qed.

Lemma sound_int_reader width decode msg :
  0 <= width -> sound (int_reader width decode msg).
Proof.
  intros Hw data offset Ho. unfold int_reader.
  destruct (Z.ltb_spec (len data) (offset + width)); [exact I|].
  rewrite unpack_from_ok by lia. lia.
Qed.

Lemma sound_parse_le_i16 : sound parse_le_i16.
Proof. rewrite parse_le_i16_reader. apply sound_int_reader. lia. Qed.

Lemma sound_parse_le_i32 : sound parse_le_i32.
Proof. rewrite parse_le_i32_reader. apply sound_int_reader. lia. Qed.

Lemma sound_parse_le_u16 : sound parse_le_u16.
Proof. rewrite parse_le_u16_reader. apply sound_int_reader. lia. Qed.

Lemma sound_parse_le_u32 : sound parse_le_u32.
Proof. rewrite parse_le_u32_reader. apply sound_int_reader. lia. Qed.

Lemma sound_fixed_length_str (n : Z) : 0 <= n -> sound (fixed_length_str n).
Proof.
  intros Hn data offset Ho. unfold fixed_length_str.
  destruct (len data <? offset + n); [exact I|].
  destruct (utf8_decode _); [lia|exact I].
Qed.

Lemma find_nul_from_lower (l : bytes) :
  forall i : Z, find_nul_from l i = -1 \/ i <= find_nul_from l i.
Proof.
  induction l as [|b r IH]; intros i; simpl.
  - left. reflexivity.
  - destruct (Byte.eqb b x00); [right; lia|].
    destruct (IH (i + 1)) as [H|H]; [left; exact H|right; lia].
Qed.

Lemma sound_null_terminated_str : sound null_terminated_str.
Proof.
  intros data offset Ho. unfold null_terminated_str, null_terminated_chunk.
  unfold bytes_find_nul.
  pose proof (slice_index_bounds (len data) offset (len_nonneg data)) as Hs.
  pose proof (find_nul_from_lower
                (skipn (Z.to_nat (slice_index (len data) offset)) data)
                (slice_index (len data) offset)) as H.
  set (e := find_nul_from _ _) in *.
  destruct (Z.eqb_spec e (-1)); [exact I|].
  destruct (utf8_decode _); [lia|exact I].
Qed.

Lemma sound_block_header (header : string) :
  utf8_encode (str_lit header) <> None -> sound (block_header header).
Proof.
  intros Henc data offset Ho. unfold block_header.
  destruct (utf8_encode (str_lit header)) as [expected|]; [|congruence].
  destruct (negb (bytes_eqb _ expected)); [exact I|].
  destruct (negb (bytes_eqb _ [x00])); [exact I|].
  pose proof (len_nonneg expected). lia.
Qed.

Lemma sound_proprietary_block : sound proprietary_block.
Proof.
  intros data offset Ho. unfold proprietary_block.
  pose proof (sound_null_terminated_str data offset Ho) as H.
  destruct (null_terminated_str data offset) as [[h o]|e]; [|exact H].
  apply len_nonneg.
Qed.

Create HintDb sound_db.
#[local] Hint Resolve sound_ret sound_raise sound_parse_le_i16
  sound_parse_le_i32 sound_parse_le_u16 sound_parse_le_u32
  sound_null_terminated_str sound_proprietary_block sound_repeat_range
  : sound_db.

(** Walks a decoder written as a chain of binds. *)
Ltac sound_chain :=
  repeat first
    [ solve [auto with sound_db]
    | apply sound_block_header; vm_compute; discriminate
    | apply sound_fixed_length_str; lia
    | match goal with
      | |- sound (let _ := _ in _) => cbv zeta
      | |- sound (if ?c then _ else _) => destruct c
      | |- sound (bind _ _) => apply sound_bind; [|intros ?]
      end ].

Lemma sound_map_block_info : sound map_block_info.
Proof. unfold map_block_info. sound_chain. Qed.

#[local] Hint Resolve sound_map_block_info : sound_db.

Lemma sound_map_block : sound map_block.
Proof. unfold map_block. sound_chain. Qed.

Lemma sound_general_parameters_block : sound general_parameters_block.
Proof. unfold general_parameters_block. sound_chain. Qed.

Lemma sound_supplier_parameters_block : sound supplier_parameters_block.
Proof. unfold supplier_parameters_block. sound_chain. Qed.

Lemma sound_fixed_parameters_block : sound fixed_parameters_block.
Proof. unfold fixed_parameters_block. sound_chain. Qed.

Lemma sound_key_event : sound key_event.
Proof. unfold key_event. sound_chain. Qed.

Lemma sound_last_key_event : sound last_key_event.
Proof. unfold last_key_event. sound_chain. Qed.

#[local] Hint Resolve sound_key_event sound_last_key_event : sound_db.

Lemma sound_key_events_block : sound key_events_block.
Proof. unfold key_events_block. sound_chain. Qed.

Lemma sound_data_points_at_scale_factor : sound data_points_at_scale_factor.
Proof. unfold data_points_at_scale_factor. sound_chain. Qed.

#[local] Hint Resolve sound_data_points_at_scale_factor : sound_db.

Lemma sound_data_points_block : sound data_points_block.
Proof. unfold data_points_block. sound_chain. Qed.

(* ------------------------------------------------------------------ *)
(** ** File assembler *)

Lemma is_ParseError_inv (e : exn) :
  is_ParseError e -> exists msg, e = ParseError msg.
Proof. destruct e; simpl; try contradiction. intros _. eauto. Qed.

Lemma extract_raises_parse_error data header map_blk e :
  extract_block_data data header map_blk = Raise e -> is_ParseError e.
Proof.
  unfold extract_block_data.
  assert (Hwalk : forall infos offset length e',
             walk_block_info header infos offset length = Raise e' ->
             is_ParseError e').
  { induction infos as [|b0 rest IH]; intros offset length e'; simpl.
    - discriminate.
    - destruct (pystr_eqb (identifier b0) header); [discriminate|].
      destruct (offset + size b0 <? offset).
      + intros [= <-]. exact I.
      + apply IH. }
  destruct (walk_block_info header (block_info map_blk) (block_size map_blk) 0)
    as [[offset length]|e'] eqn:Hw.
  - destruct (_ || _); [|discriminate]. intros [= <-]. exact I.
  - intros [= <-]. eapply Hwalk; eauto.
Qed.

(** The substitution: extraction never stops the loop, and a failed
    extraction yields the empty buffer. *)
Lemma block_data_of_cases data bi map_blk :
  match extract_block_data data (identifier bi) map_blk with
  | Ok block_data => block_data_of data bi map_blk = Ok block_data
  | Raise _ => block_data_of data bi map_blk = Ok []
  end.
Proof.
  unfold block_data_of.
  destruct (extract_block_data data (identifier bi) map_blk) as [d|e] eqn:Hx;
    [reflexivity|].
  apply extract_raises_parse_error in Hx.
  destruct e; simpl in Hx; try contradiction. reflexivity.
Qed.

Lemma run_sound {A B : Type} (p : parser A) (block_data : bytes) (k : A -> B) :
  sound p ->
  match run p block_data k with
  | Ok _ => True
  | Raise e => is_ParseError e
  end.
Proof.
  intros Hp. unfold run. specialize (Hp block_data 0 ltac:(lia)).
  destruct (p block_data 0) as [[a o]|e]; [exact I|exact Hp].
Qed.

Lemma dispatch_sound bi block_data st :
  match dispatch bi block_data st with
  | Ok _ => True
  | Raise e => is_ParseError e
  end.
Proof.
  unfold dispatch.
  repeat match goal with
         | |- context [if ?c then _ else _] => destruct c
         end;
    first [ exact I
          | apply run_sound;
            first [ apply sound_supplier_parameters_block
                  | apply sound_general_parameters_block
                  | apply sound_fixed_parameters_block
                  | apply sound_key_events_block
                  | apply sound_data_points_block
                  | apply sound_proprietary_block ] ].
Qed.

(** On the empty buffer every decoder the dispatcher calls fails: the typed
    ones miss their header, the proprietary one its terminator. *)
Lemma dispatch_empty bi st :
  ~ skipped (identifier bi) ->
  exists msg, dispatch bi [] st = Raise (ParseError msg).
Proof.
  intros Hns. unfold dispatch.
  destruct (pystr_eqb (identifier bi) (str_lit "SupParams"));
    [eexists; reflexivity|].
  destruct (pystr_eqb (identifier bi) (str_lit "GenParams"));
    [eexists; reflexivity|].
  destruct (pystr_eqb (identifier bi) (str_lit "FxdParams"));
    [eexists; reflexivity|].
  destruct (pystr_eqb (identifier bi) (str_lit "KeyEvents"));
    [eexists; reflexivity|].
  destruct (pystr_eqb (identifier bi) (str_lit "LnkParams")) eqn:Hlnk.
  { apply pystr_eqb_eq in Hlnk. exfalso. apply Hns. left. exact Hlnk. }
  destruct (pystr_eqb (identifier bi) (str_lit "DataPts"));
    [eexists; reflexivity|].
  destruct (pystr_eqb (identifier bi) (str_lit "Cksum")) eqn:Hck.
  { apply pystr_eqb_eq in Hck. exfalso. apply Hns. right. exact Hck. }
  eexists; reflexivity.
Qed.

Lemma dispatch_skipped bi block_data st :
  skipped (identifier bi) -> dispatch bi block_data st = Ok st.
Proof.
  intros [Hid|Hid]; unfold dispatch; rewrite Hid; reflexivity.
Qed.

Lemma parse_entry_sound data map_blk bi st :
  match parse_entry data map_blk bi st with
  | Ok _ => True
  | Raise e => is_ParseError e
  end.
Proof.
  unfold parse_entry. pose proof (block_data_of_cases data bi map_blk) as Hd.
  destruct (extract_block_data data (identifier bi) map_blk);
    rewrite Hd; apply dispatch_sound.
Qed.

Lemma parse_entry_skipped data map_blk bi st :
  skipped (identifier bi) -> parse_entry data map_blk bi st = Ok st.
Proof.
  intros Hs. unfold parse_entry.
  pose proof (block_data_of_cases data bi map_blk) as Hd.
  destruct (extract_block_data data (identifier bi) map_blk);
    rewrite Hd; apply dispatch_skipped; exact Hs.
Qed.

Lemma parse_entry_out_of_range data map_blk bi st e :
  ~ skipped (identifier bi) ->
  extract_block_data data (identifier bi) map_blk = Raise e ->
  exists msg, parse_entry data map_blk bi st = Raise (ParseError msg).
Proof.
  intros Hns Hx. unfold parse_entry.
  pose proof (block_data_of_cases data bi map_blk) as Hd.
  rewrite Hx in Hd. rewrite Hd. apply dispatch_empty. exact Hns.
Qed.

Lemma parse_entries_sound data map_blk infos :
  forall st,
    match parse_entries data map_blk infos st with
    | Ok _ => True
    | Raise e => is_ParseError e
    end.
Proof.
  induction infos as [|b0 rest IH]; intros st; simpl; [exact I|].
  pose proof (parse_entry_sound data map_blk b0 st) as H0.
  destruct (parse_entry data map_blk b0 st) as [st'|e]; [apply IH|exact H0].
Qed.

Lemma parse_entries_out_of_range data map_blk infos :
  forall st bi e,
    In bi infos ->
    ~ skipped (identifier bi) ->
    extract_block_data data (identifier bi) map_blk = Raise e ->
    exists msg, parse_entries data map_blk infos st = Raise (ParseError msg).
Proof.
  induction infos as [|b0 rest IH]; intros st bi e Hin Hns Hx; [destruct Hin|].
  simpl. destruct Hin as [->|Hin].
  - destruct (parse_entry_out_of_range data map_blk bi st e Hns Hx)
      as [msg ->]. eauto.
  - pose proof (parse_entry_sound data map_blk b0 st) as H0.
    destruct (parse_entry data map_blk b0 st) as [st'|e0].
    + eapply IH; eauto.
    + apply is_ParseError_inv in H0. destruct H0 as [msg ->]. eauto.
Qed.

Lemma parse_entries_skip data map_blk pre :
  forall bi post st,
    skipped (identifier bi) ->
    parse_entries data map_blk (pre ++ bi :: post) st
    = parse_entries data map_blk (pre ++ post) st.
Proof.
  induction pre as [|b0 pre IH]; intros bi post st Hs; simpl.
  - rewrite (parse_entry_skipped _ _ _ _ Hs). reflexivity.
  - destruct (parse_entry data map_blk b0 st); [apply IH; exact Hs|reflexivity].
Qed.

Lemma parse_entries_all_skipped data map_blk infos :
  forall st,
    Forall (fun bi => skipped (identifier bi)) infos ->
    parse_entries data map_blk infos st = Ok st.
Proof.
  induction infos as [|b0 rest IH]; intros st Hall; simpl; [reflexivity|].
  inversion Hall as [|? ? H0 Hrest]; subst.
  rewrite (parse_entry_skipped _ _ _ _ H0). apply IH. exact Hrest.
Qed.

Lemma py_slice_prefix {A : Type} (l : list A) (a b : Z) :
  0 <= a <= b ->
  py_slice l a b = firstn (Z.to_nat (b - a)) (skipn (Z.to_nat a) l).
Proof.
  intros Hab. unfold py_slice, slice_index.
  destruct (Z.ltb_spec a 0); [lia|]. destruct (Z.ltb_spec b 0); [lia|].
  pose proof (len_nonneg l) as Hl. unfold len in *.
  destruct (Z.le_gt_cases b (Z.of_nat (List.length l))) as [Hb|Hb].
  - rewrite !Z.min_l by lia. reflexivity.
  - rewrite (Z.min_r b) by lia.
    destruct (Z.le_gt_cases a (Z.of_nat (List.length l))) as [Ha|Ha].
    + rewrite Z.min_l by lia.
      rewrite !firstn_all2; [reflexivity| |]; rewrite length_skipn; lia.
    + rewrite Z.min_r by lia.
      rewrite !skipn_all2 by lia. rewrite !firstn_nil. reflexivity.
Qed.

Lemma bytes_eqb_eq (a b : bytes) : bytes_eqb a b = true -> a = b.
Proof.
  revert b. induction a as [|x a IH]; intros [|y b]; simpl;
    try discriminate; [reflexivity|].
  intros H. apply andb_true_iff in H. destruct H as [Hxy Hab].
  apply Byte.byte_dec_bl in Hxy. rewrite Hxy, (IH b Hab). reflexivity.
Qed.

(** A buffer that does not begin with [Map] and a NUL fails the header
    match. *)
Lemma map_header_mismatch (data : bytes) :
  firstn 4 data <> list_byte_of_string "Map" ++ [x00] ->
  exists msg, block_header "Map" data 0 = Raise (ParseError msg).
Proof.
  intros Hbad. unfold block_header.
  change (utf8_encode (str_lit "Map")) with (Some (list_byte_of_string "Map")).
  cbv iota beta. change (len (list_byte_of_string "Map")) with 3.
  rewrite (py_slice_prefix data 0 (0 + 3)) by lia.
  rewrite (py_slice_prefix data (0 + 3) (0 + 3 + 1)) by lia.
  change (Z.to_nat (0 + 3 - 0)) with 3%nat.
  change (Z.to_nat (0 + 3 + 1 - (0 + 3))) with 1%nat.
  change (Z.to_nat (0 + 3)) with 3%nat. change (Z.to_nat 0) with 0%nat.
  destruct (bytes_eqb (firstn 3 (skipn 0 data)) (list_byte_of_string "Map"))
    eqn:H3;
    destruct (bytes_eqb (firstn 1 (skipn 3 data)) [x00]) eqn:H1;
    cbn [negb]; eauto.
  exfalso. apply Hbad.
  apply bytes_eqb_eq in H3, H1. simpl skipn in H3.
  rewrite <- (firstn_skipn 3 data) at 1.
  destruct data as [|a [|b [|c rest]]]; try discriminate H3.
  simpl in *. injection H3 as -> -> ->.
  destruct rest as [|d rest]; [discriminate H1|].
  simpl in H1. injection H1 as ->. reflexivity.
Qed.

(** C1 (amended).  A buffer that does not start with the Map header, or
    whose Map fails to decode in any other way, aborts the decode with
    [ParseError].  Once the Map has decoded, an entry whose computed range
    is invalid gets the empty buffer in place of its bytes.  For the two
    kinds the dispatcher does not decode, [LnkParams] and [Cksum], the entry
    then leaves the aggregate as it was, so the decode goes on as if the
    entry were not listed, and a directory of such entries alone decodes to
    an aggregate with every block absent.  For an entry of any other kind
    the decoder it is dispatched to fails on the empty buffer, and the whole
    decode aborts with [ParseError]. *)
Theorem leniency_law (data : bytes) :
  (firstn 4 data <> list_byte_of_string "Map" ++ [x00] ->
     exists msg, parse_file data = Raise (ParseError msg))
  /\ (forall e, map_block data 0 = Raise e ->
     parse_file data = Raise e /\ is_ParseError e)
  /\ (forall map_blk offset, map_block data 0 = Ok (map_blk, offset) ->
     (forall bi e,
        extract_block_data data (identifier bi) map_blk = Raise e ->
        block_data_of data bi map_blk = Ok [])
     /\ (forall bi st, skipped (identifier bi) ->
        parse_entry data map_blk bi st = Ok st)
     /\ (forall pre bi post st, skipped (identifier bi) ->
        parse_entries data map_blk (pre ++ bi :: post) st
        = parse_entries data map_blk (pre ++ post) st)
     /\ (Forall (fun bi => skipped (identifier bi)) (block_info map_blk) ->
        parse_file data = Ok (empty_sor map_blk))
     /\ (forall bi e,
        In bi (block_info map_blk) ->
        ~ skipped (identifier bi) ->
        extract_block_data data (identifier bi) map_blk = Raise e ->
        exists msg, parse_file data = Raise (ParseError msg))).
Proof.
  assert (Hmap : forall e, map_block data 0 = Raise e ->
                   parse_file data = Raise e /\ is_ParseError e).
  { intros e He. split.
    - unfold parse_file. rewrite He. reflexivity.
    - pose proof (sound_map_block data 0 ltac:(lia)) as Hs.
      rewrite He in Hs. exact Hs. }
  split; [|split; [exact Hmap|]].
  - intros Hbad. destruct (map_header_mismatch data Hbad) as [msg Hh].
    exists msg. apply Hmap. unfold map_block, bind. rewrite Hh. reflexivity.
  - intros map_blk offset Hok. repeat split.
    + intros bi e Hx. pose proof (block_data_of_cases data bi map_blk) as Hd.
      rewrite Hx in Hd. exact Hd.
    + intros bi st. apply parse_entry_skipped.
    + intros pre bi post st. apply parse_entries_skip.
    + intros Hall. unfold parse_file. rewrite Hok.
      rewrite (parse_entries_all_skipped _ _ _ _ Hall). reflexivity.
    + intros bi e Hin Hns Hx. unfold parse_file. rewrite Hok.
      destruct (parse_entries_out_of_range data map_blk _ no_blocks bi e
                  Hin Hns Hx) as [msg ->].
      exists msg. reflexivity.
Qed.

Lemma lone_cksum_decodes :
  map_block (lone_map_buffer "Cksum") 0 = Ok (lone_map "Cksum", 24).
Proof. vm_compute. reflexivity. Qed.

Lemma leniency_law_witness :
  extract_block_data (lone_map_buffer "Cksum") (str_lit "Cksum")
    (lone_map "Cksum") = Raise (ParseError MSG_POSITION)
  /\ parse_file (lone_map_buffer "Cksum") = Ok (empty_sor (lone_map "Cksum")).
Proof.
  split; [vm_compute; reflexivity|].
  refine (proj1 (proj2 (proj2 (proj2 (proj2 (proj2
            (leniency_law (lone_map_buffer "Cksum")))
            (lone_map "Cksum") 24 lone_cksum_decodes)))) _).
  constructor; [right; reflexivity|constructor].
Defined.

(** A Map that decodes and lists a [GenParams] block of 1000 bytes in a
    28-byte file: the range is invalid, the empty buffer is substituted,
    and the decode aborts in the [GenParams] decoder. *)
Lemma out_of_range_entry_aborts :
  map_block (lone_map_buffer "GenParams") 0
    = Ok (lone_map "GenParams", 28)
  /\ extract_block_data (lone_map_buffer "GenParams") (str_lit "GenParams")
       (lone_map "GenParams") = Raise (ParseError MSG_POSITION)
  /\ parse_file (lone_map_buffer "GenParams")
     = Raise (ParseError "Expected header 'GenParams' not found").
Proof. repeat split; vm_compute; reflexivity. Qed.

(* ------------------------------------------------------------------ *)
(** ** Trace analyzer *)

Lemma mask_select_map_In {A : Type} (f : A -> bool) (d : A) (x : list A) :
  In d (mask_select x (map f x)) -> f d = true /\ In d x.
Proof.
  induction x as [|a x IH]; simpl; [tauto|].
  destruct (f a) eqn:Hfa.
  - intros [<-|Hin]; [auto|]. destruct (IH Hin). auto.
  - intros Hin. destruct (IH Hin). auto.
Qed.

Lemma In_skipn_In {A : Type} (n : nat) (d : A) (x : list A) :
  In d (skipn n x) -> In d x.
Proof.
  intros Hin. rewrite <- (firstn_skipn n x). apply in_or_app. right. exact Hin.
Qed.

Lemma valid_indices_cap scan_type fiber_distance spacing :
  valid_indices scan_type fiber_distance spacing
  = map (fun d => PrimFloat.leb d (window_cap scan_type fiber_distance))
        spacing.
Proof.
  unfold valid_indices, window_cap.
  destruct (String.eqb scan_type "short" && PrimFloat.ltb 8000 fiber_distance);
    reflexivity.
Qed.

Lemma filter_window_cap scan_type fiber_distance spacing scaled_data
    spacing_filtered scaled_data_filtered (d : float) :
  filter_window scan_type fiber_distance spacing scaled_data
    = Ok (spacing_filtered, scaled_data_filtered) ->
  In d spacing_filtered ->
  at_most (window_cap scan_type fiber_distance) d /\ In d spacing.
Proof.
  unfold filter_window, np_bool_index. rewrite valid_indices_cap.
  destruct (_ =? _)%nat; [|discriminate].
  destruct (_ =? _)%nat; [|discriminate].
  intros [= <- _] Hin. apply mask_select_map_In in Hin. exact Hin.
Qed.

(** C7.  Every distance the analysis window of [plot_and_detect] retains,
    after the mask and after the trim at the start panel, is at most 8500
    when the scan type is "short" and the requested maximum exceeds 8000,
    and at most the requested maximum otherwise; with "short" and 25000 it
    is at most 8500. *)
Theorem scan_window_law (scan_type : string)
    (start_panel fiber_distance : float)
    (spacing scaled_data spacing_filtered scaled_data_filtered : list float)
    (d : float) :
  filter_window scan_type fiber_distance spacing scaled_data
    = Ok (spacing_filtered, scaled_data_filtered) ->
  In d spacing_filtered
  \/ In d (fst (trim_window start_panel spacing_filtered
                  scaled_data_filtered)) ->
  (if String.eqb scan_type "short" && PrimFloat.ltb 8000%float fiber_distance
   then PrimFloat.leb d 8500%float = true
   else PrimFloat.leb d fiber_distance = true)
  /\ (scan_type = "short" -> fiber_distance = 25000%float ->
      PrimFloat.leb d 8500%float = true).
Proof.
  intros Hwin Hin.
  assert (Hd : In d spacing_filtered).
  { destruct Hin as [Hin|Hin]; [exact Hin|].
    unfold trim_window in Hin. simpl in Hin. eapply In_skipn_In; eauto. }
  destruct (filter_window_cap _ _ _ _ _ _ d Hwin Hd) as [Hcap _].
  unfold at_most, window_cap in Hcap. split.
  - destruct (String.eqb scan_type "short" && PrimFloat.ltb 8000 fiber_distance);
      exact Hcap.
  - intros -> ->. exact Hcap.
Qed.

Lemma scan_window_law_witness :
  filter_window "short" 25000%float [0; 5000; 9000]%float [-3; -4; -5]%float
    = Ok ([0; 5000]%float, [-3; -4]%float)
  /\ In 5000%float
       (fst (trim_window 50%float [0; 5000]%float [-3; -4]%float))
  /\ PrimFloat.leb 5000%float 8500%float = true.
Proof.
  assert (Hw : filter_window "short" 25000%float [0; 5000; 9000]%float
                 [-3; -4; -5]%float = Ok ([0; 5000]%float, [-3; -4]%float))
    by (vm_compute; reflexivity).
  assert (Hin : In 5000%float
                  (fst (trim_window 50%float [0; 5000]%float [-3; -4]%float)))
    by (vm_compute; left; reflexivity).
  split; [exact Hw|]. split; [exact Hin|].
  exact (proj2 (scan_window_law "short" 50%float 25000%float _ _ _ _ _
                  Hw (or_intror Hin)) eq_refl eq_refl).
Defined.

Lemma rbind_ok {A B : Type} (r : result A) (f : A -> result B) (v : B) :
  rbind r f = Ok v -> exists a, r = Ok a /\ f a = Ok v.
Proof.
  destruct r as [a|e]; simpl; [|discriminate]. intros H. eauto.
Qed.

Lemma coalesce_from_ends (P : float -> Prop) (hits : list float) :
  forall start finish : float,
    P start -> P finish -> Forall P hits ->
    ends_satisfy P (coalesce_from start finish hits).
Proof.
  induction hits as [|hit rest IH]; intros start finish Hs Hf Hall; simpl.
  - repeat constructor; assumption.
  - inversion Hall as [|? ? Hhit Hrest]; subst.
    match goal with |- context [if ?c then _ else _] => destruct c end.
    + constructor; [split; assumption|]. apply IH; assumption.
    + apply IH; assumption.
Qed.

Lemma coallesce_results_ends (P : float -> Prop) (hits : list float) :
  Forall P hits -> ends_satisfy P (coallesce_results hits).
Proof.
  intros Hall. rewrite coallesce_results_spec.
  destruct hits as [|first rest]; simpl; [constructor|].
  inversion Hall; subst. apply coalesce_from_ends; assumption.
Qed.

Lemma index_In {A : Type} (x : list A) (i : nat) (v : A) :
  index x i = Ok v -> In v x.
Proof.
  unfold index. destruct (nth_error x i) eqn:Hn; [|discriminate].
  intros [= <-]. eapply nth_error_In; eauto.
Qed.

(** The classification loop records distances of the trimmed window only. *)
Lemma detect_step_hits (P : float -> Prop) slope curve spacing_trimmed i
    st st' :
  Forall P spacing_trimmed ->
  Forall P (back_reflections st) /\ Forall P (fiber_issues st) ->
  detect_step slope curve spacing_trimmed i st = Ok st' ->
  Forall P (back_reflections st') /\ Forall P (fiber_issues st').
Proof.
  intros Hsp [Hbr Hfi]. rewrite Forall_forall in Hsp.
  unfold detect_step.
  assert (Hback :
    forall drop_amount,
      (if PrimFloat.ltb drop_amount (-0.005)%float then
         match index curve i with
         | Raise e => Raise e
         | Ok c =>
           if PrimFloat.ltb c 0%float then
             match index spacing_trimmed i with
             | Raise e => Raise e
             | Ok d =>
               Ok {| last_detected_point := last_detected_point st;
                     back_reflections := back_reflections st ++ [d];
                     fiber_issues := fiber_issues st |}
             end
           else Ok st
         end
       else Ok st) = Ok st' ->
      Forall P (back_reflections st') /\ Forall P (fiber_issues st')).
  { intros drop_amount.
    destruct (PrimFloat.ltb drop_amount (-0.005)%float);
      [|intros [= <-]; auto].
    destruct (index curve i) as [c|e]; [|discriminate].
    destruct (PrimFloat.ltb c 0%float); [|intros [= <-]; auto].
    destruct (index spacing_trimmed i) as [d|e] eqn:Hd; [|discriminate].
    intros [= <-]. simpl. split; [|exact Hfi].
    apply Forall_app. split; [exact Hbr|].
    constructor; [|constructor]. apply Hsp. eapply index_In; eauto. }
  destruct (index slope i) as [drop_amount|e]; [|discriminate].
  destruct (PrimFloat.leb 0.005%float drop_amount); [|apply Hback].
  destruct (index spacing_trimmed i) as [d|e] eqn:Hd; [|discriminate].
  destruct (PrimFloat.leb 10%float _); [|apply Hback].
  intros [= <-]. simpl. split; [exact Hbr|].
  apply Forall_app. split; [exact Hfi|].
  constructor; [|constructor]. apply Hsp. eapply index_In; eauto.
Qed.

Lemma detect_loop_hits (P : float -> Prop) slope curve spacing_trimmed
    indices :
  forall st st',
    Forall P spacing_trimmed ->
    Forall P (back_reflections st) /\ Forall P (fiber_issues st) ->
    detect_loop slope curve spacing_trimmed indices st = Ok st' ->
    Forall P (back_reflections st') /\ Forall P (fiber_issues st').
Proof.
  induction indices as [|i rest IH]; intros st st' Hsp Hst; simpl.
  - intros [= <-]. exact Hst.
  - destruct (detect_step slope curve spacing_trimmed i st) as [st1|e] eqn:H1;
      [|discriminate].
    apply IH; [exact Hsp|]. eapply detect_step_hits; eauto.
Qed.

(** What the body of [plot_and_detect] raises by itself derives from
    [Exception]. *)
Lemma rbind_raises {A B : Type} (r : result A) (f : A -> result B) :
  raises_Exception r -> (forall a, raises_Exception (f a)) ->
  raises_Exception (rbind r f).
Proof.
  intros Hr Hf e. destruct r as [a|e0]; simpl.
  - apply Hf.
  - intros [= <-]. apply Hr. reflexivity.
Qed.

Lemma Ok_raises {A : Type} (a : A) : raises_Exception (Ok a).
Proof. intros e. discriminate. Qed.

Lemma getattr_raises {A B : Type} (x : option A) (attr : A -> B)
    (name : string) :
  raises_Exception (getattr x attr name).
Proof. intros e. destruct x; simpl; [discriminate|]. intros [= <-]. reflexivity. Qed.

Lemma first_item_raises {A : Type} (x : list A) :
  raises_Exception (first_item x).
Proof. intros e. destruct x; simpl; [|discriminate]. intros [= <-]. reflexivity. Qed.

Lemma float_of_Z_raises (n : Z) : raises_Exception (float_of_Z n).
Proof.
  intros e. unfold float_of_Z.
  destruct (PrimFloat.is_infinity _); [|discriminate].
  intros [= <-]. reflexivity.
Qed.

Lemma py_truediv_raises (a b : float) : raises_Exception (py_truediv a b).
Proof.
  intros e. unfold py_truediv.
  destruct (PrimFloat.eqb b 0); [|discriminate]. intros [= <-]. reflexivity.
Qed.

Lemma np_bool_index_raises {A : Type} (x : list A) (mask : list bool) :
  raises_Exception (np_bool_index x mask).
Proof.
  intros e. unfold np_bool_index.
  destruct (_ =? _)%nat; [discriminate|]. intros [= <-]. reflexivity.
Qed.

Lemma filter_window_raises scan_type fiber_distance spacing scaled_data :
  raises_Exception
    (filter_window scan_type fiber_distance spacing scaled_data).
Proof.
  intros e. unfold filter_window.
  destruct (np_bool_index spacing _) as [kept|e1] eqn:H1.
  - destruct (np_bool_index scaled_data _) as [kept'|e2] eqn:H2;
      [discriminate|].
    intros [= <-]. exact (np_bool_index_raises _ _ _ H2).
  - intros [= <-]. exact (np_bool_index_raises _ _ _ H1).
Qed.

Lemma index_raises {A : Type} (x : list A) (i : nat) :
  raises_Exception (index x i).
Proof.
  intros e. unfold index. destruct (nth_error x i); [discriminate|].
  intros [= <-]. reflexivity.
Qed.

Lemma detect_step_raises slope curve spacing_trimmed i st :
  raises_Exception (detect_step slope curve spacing_trimmed i st).
Proof.
  intros e. unfold detect_step.
  destruct (index slope i) as [drop_amount|e0] eqn:Hs;
    [|intros [= <-]; exact (index_raises _ _ _ Hs)].
  assert (Hback :
    (if PrimFloat.ltb drop_amount (-0.005)%float then
       match index curve i with
       | Raise e => Raise e
       | Ok c =>
         if PrimFloat.ltb c 0%float then
           match index spacing_trimmed i with
           | Raise e => Raise e
           | Ok d =>
             Ok {| last_detected_point := last_detected_point st;
                   back_reflections := back_reflections st ++ [d];
                   fiber_issues := fiber_issues st |}
           end
         else Ok st
       end
     else Ok st) = Raise e -> is_Exception e = true).
  { destruct (PrimFloat.ltb drop_amount (-0.005)%float); [|discriminate].
    destruct (index curve i) as [c|e0] eqn:Hc;
      [|intros [= <-]; exact (index_raises _ _ _ Hc)].
    destruct (PrimFloat.ltb c 0%float); [|discriminate].
    destruct (index spacing_trimmed i) as [d|e0] eqn:Hd; [discriminate|].
    intros [= <-]. exact (index_raises _ _ _ Hd). }
  destruct (PrimFloat.leb 0.005%float drop_amount); [|exact Hback].
  destruct (index spacing_trimmed i) as [d|e0] eqn:Hd;
    [|intros [= <-]; exact (index_raises _ _ _ Hd)].
  destruct (PrimFloat.leb 10%float _); [discriminate|exact Hback].
Qed.

Lemma detect_loop_raises slope curve spacing_trimmed indices :
  forall st : detect_state,
    raises_Exception (detect_loop slope curve spacing_trimmed indices st).
Proof.
  induction indices as [|i rest IH]; intros st e; simpl; [discriminate|].
  destruct (detect_step slope curve spacing_trimmed i st) as [st1|e0] eqn:H1.
  - apply IH.
  - intros [= <-]. exact (detect_step_raises _ _ _ _ _ _ H1).
Qed.

Section AnalyzerFacts.

Variable np_scale_samples : list Z -> Z -> result (list float).
Variable np_arange : float -> float -> float -> result (list float).
Variable gaussian_filter1d : list float -> Z -> result (list float).
Variable np_gradient : list float -> list float -> result (list float).

(** The library routines raise subclasses of [Exception] only. *)
Hypothesis np_scale_samples_raises :
  forall data sf, raises_Exception (np_scale_samples data sf).
Hypothesis np_arange_raises :
  forall start stop step, raises_Exception (np_arange start stop step).
Hypothesis gaussian_filter1d_raises :
  forall x sigma, raises_Exception (gaussian_filter1d x sigma).
Hypothesis np_gradient_raises :
  forall f x, raises_Exception (np_gradient f x).

Let analysis' :=
  analysis np_scale_samples np_arange gaussian_filter1d np_gradient.
Let plot_and_detect' :=
  plot_and_detect np_scale_samples np_arange gaussian_filter1d np_gradient.

Lemma analysis_raises_Exception sor_file plot_name start_panel
    fiber_distance scan_type :
  raises_Exception
    (analysis' sor_file plot_name start_panel fiber_distance scan_type).
Proof.
  unfold analysis', analysis, trim_window.
  repeat (cbv beta zeta;
          first
            [ apply Ok_raises
            | apply rbind_raises;
              [ first [ apply getattr_raises | apply first_item_raises
                      | apply float_of_Z_raises | apply py_truediv_raises
                      | apply filter_window_raises | apply detect_loop_raises
                      | apply np_scale_samples_raises
                      | apply np_arange_raises
                      | apply gaussian_filter1d_raises
                      | apply np_gradient_raises ]
              | intros ? ]
            | match goal with
              | |- raises_Exception (let '(_, _) := ?p in _) => destruct p
              end ]).
Qed.

(** Whatever [plot_and_detect] reports lies in the analysis window: both
    ends of every merged interval are at most the window's cap. *)
Lemma analysis_hits_in_window sor_file plot_name start_panel fiber_distance
    scan_type merged_back_reflections merged_fiber_issues :
  analysis' sor_file plot_name start_panel fiber_distance scan_type
    = Ok (merged_back_reflections, merged_fiber_issues) ->
  ends_satisfy (at_most (window_cap scan_type fiber_distance))
    merged_back_reflections
  /\ ends_satisfy (at_most (window_cap scan_type fiber_distance))
       merged_fiber_issues.
Proof.
  unfold analysis', analysis. intros H.
  repeat (apply rbind_ok in H; destruct H as (? & ? & H); cbv zeta in H).
  match goal with
  | Hw : filter_window _ _ _ _ = Ok ?p |- _ => destruct p as [kept_x kept_y]
  end.
  repeat (apply rbind_ok in H; destruct H as (? & ? & H); cbv zeta in H).
  unfold trim_window in H.
  repeat (apply rbind_ok in H; destruct H as (? & ? & H); cbv zeta in H).
  injection H as <- <-.
  match goal with
  | Hw : filter_window _ _ _ _ = Ok _,
    Hl : detect_loop _ _ ?sp _ ?st0 = Ok _ |- _ =>
    assert (Hsp : Forall (at_most (window_cap scan_type fiber_distance)) sp)
      by (apply Forall_forall; intros d Hd; apply In_skipn_In in Hd;
          exact (proj1 (filter_window_cap _ _ _ _ _ _ d Hw Hd)));
    assert (Hinit : Forall (at_most (window_cap scan_type fiber_distance))
                      (back_reflections st0)
                    /\ Forall (at_most (window_cap scan_type fiber_distance))
                         (fiber_issues st0))
      by (split; constructor);
    destruct (detect_loop_hits _ _ _ _ _ _ _ Hsp Hinit Hl) as [Hbr Hfi]
  end.
  split; apply coallesce_results_ends; assumption.
Qed.

(** C2 (amended).  Provided the NumPy and SciPy routines raise nothing but
    subclasses of [Exception], [plot_and_detect] never raises: it returns
    the success pair with the two merged lists when the analysis goes
    through, and otherwise the failure pair whose text is "Failed to analyze
    sor file with error " followed by the text of the exception, whatever
    raised it: a missing block, an empty array, a zero group index, or one
    of the library routines. *)
Theorem plot_and_detect_never_raises (sor_file : SORFile)
    (plot_name : string) (start_panel fiber_distance : float)
    (scan_type : string) :
  (exists flag diagnostics,
     plot_and_detect' sor_file plot_name start_panel fiber_distance scan_type
     = Ok (flag, diagnostics))
  /\ match analysis' sor_file plot_name start_panel fiber_distance
             scan_type with
     | Ok (merged_back_reflections, merged_fiber_issues) =>
       plot_and_detect' sor_file plot_name start_panel fiber_distance
         scan_type
       = Ok (true, Logs merged_back_reflections merged_fiber_issues)
     | Raise e =>
       plot_and_detect' sor_file plot_name start_panel fiber_distance
         scan_type
       = Ok (false,
             Error (String.append "Failed to analyze sor file with error "
                      (exn_str e)))
     end
  /\ (fixed_parameters sor_file = None ->
      plot_and_detect' sor_file plot_name start_panel fiber_distance
        scan_type
      = Ok (false,
            Error "Failed to analyze sor file with error 'NoneType' object has no attribute 'group_index'"))
  /\ (forall fp : FixedParametersBlock,
        fixed_parameters sor_file = Some fp ->
        (group_index fp = 0 ->
         plot_and_detect' sor_file plot_name start_panel fiber_distance
           scan_type
         = Ok (false,
               Error "Failed to analyze sor file with error float division by zero"))
        /\ (group_index fp = 146800 -> data_spacing fp = [] ->
            plot_and_detect' sor_file plot_name start_panel fiber_distance
              scan_type
            = Ok (false,
                  Error "Failed to analyze sor file with error list index out of range"))
        /\ (group_index fp = 146800 -> data_spacing fp = [100] ->
            data_points sor_file = None ->
            plot_and_detect' sor_file plot_name start_panel fiber_distance
              scan_type
            = Ok (false,
                  Error "Failed to analyze sor file with error 'NoneType' object has no attribute 'scale_factors'"))
        /\ (forall (dp : DataPoints) (sf0 : DataPointsAtScaleFactor)
                   (others : list DataPointsAtScaleFactor) (e : exn),
              group_index fp = 146800 -> data_spacing fp = [100] ->
              data_points sor_file = Some dp ->
              scale_factors dp = sf0 :: others ->
              np_scale_samples (dp_data sf0) (scale_factor sf0) = Raise e ->
              plot_and_detect' sor_file plot_name start_panel fiber_distance
                scan_type
              = Ok (false,
                    Error (String.append
                             "Failed to analyze sor file with error "
                             (exn_str e))))).
Proof.
  pose proof (analysis_raises_Exception sor_file plot_name start_panel
                fiber_distance scan_type) as Hexn.
  assert (Hcases :
    match analysis' sor_file plot_name start_panel fiber_distance
            scan_type with
    | Ok (merged_back_reflections, merged_fiber_issues) =>
      plot_and_detect' sor_file plot_name start_panel fiber_distance scan_type
      = Ok (true, Logs merged_back_reflections merged_fiber_issues)
    | Raise e =>
      plot_and_detect' sor_file plot_name start_panel fiber_distance scan_type
      = Ok (false,
            Error (String.append "Failed to analyze sor file with error "
                     (exn_str e)))
    end).
  { unfold plot_and_detect', plot_and_detect. fold analysis'.
    destruct (analysis' _ _ _ _ _) as [[br fi]|e]; [reflexivity|].
    rewrite (Hexn e eq_refl). reflexivity. }
  assert (Hfail : forall e,
    analysis' sor_file plot_name start_panel fiber_distance scan_type
      = Raise e ->
    plot_and_detect' sor_file plot_name start_panel fiber_distance scan_type
      = Ok (false,
            Error (String.append "Failed to analyze sor file with error "
                     (exn_str e)))).
  { intros e He. rewrite He in Hcases. exact Hcases. }
  split; [|split; [exact Hcases|split]].
  - destruct (analysis' _ _ _ _ _) as [[br fi]|e]; rewrite Hcases; eauto.
  - intros Hfp.
    refine (Hfail (AttributeError
                     "'NoneType' object has no attribute 'group_index'") _).
    unfold analysis', analysis. rewrite Hfp. reflexivity.
  - intros fp Hfp. split; [|split; [|split]].
    + intros Hgi.
      refine (Hfail (ZeroDivisionError "float division by zero") _).
      unfold analysis', analysis. rewrite Hfp. simpl. rewrite Hgi.
      reflexivity.
    + intros Hgi Hds.
      refine (Hfail (IndexError "list index out of range") _).
      unfold analysis', analysis. rewrite Hfp. simpl. rewrite Hgi, Hds.
      reflexivity.
    + intros Hgi Hds Hdp.
      refine (Hfail (AttributeError
                       "'NoneType' object has no attribute 'scale_factors'")
                _).
      unfold analysis', analysis. rewrite Hfp, Hdp. simpl.
      rewrite Hgi, Hds. reflexivity.
    + intros dp sf0 others e Hgi Hds Hdp Hsf Hraise. apply Hfail.
      unfold analysis', analysis. rewrite Hfp, Hdp. simpl.
      rewrite Hgi, Hds, Hsf. simpl. rewrite Hraise. reflexivity.
Qed.

End AnalyzerFacts.

Lemma library_raises_Exception {A B C : Type} (msg : string) (a : A) (b : B) :
  raises_Exception (@library_raises A B C msg a b).
Proof. intros e [= <-]. reflexivity. Qed.

Lemma plot_and_detect_never_raises_witness :
  plot_and_detect (library_raises "array") (fun _ => library_raises "arange")
    (library_raises "gaussian_filter1d") (library_raises "gradient")
    (sor_with (Some (fxd_block 0 1 [10] [100] [5])) None None)
    "trace" 50%float 25000%float "short"
  = Ok (false,
        Error "Failed to analyze sor file with error float division by zero")
  /\ plot_and_detect (library_raises "array")
       (fun _ => library_raises "arange")
       (library_raises "gaussian_filter1d") (library_raises "gradient")
       (sor_with (Some (fxd_block 146800 1 [10] [100] [5])) None
          (Some {| number_of_data_points := 2;
                   total_number_scale_factors_used := 1;
                   scale_factors := [ {| n_points := 2; scale_factor := 1000;
                                         dp_data := [65000; 64000] |} ] |}))
       "trace" 50%float 25000%float "short"
     = Ok (false, Error "Failed to analyze sor file with error array").
Proof.
  split.
  - exact (proj1 (proj2 (proj2 (proj2
             (plot_and_detect_never_raises
                (library_raises "array") (fun _ => library_raises "arange")
                (library_raises "gaussian_filter1d")
                (library_raises "gradient")
                (library_raises_Exception "array")
                (fun _ => library_raises_Exception "arange")
                (library_raises_Exception "gaussian_filter1d")
                (library_raises_Exception "gradient")
                (sor_with (Some (fxd_block 0 1 [10] [100] [5])) None None)
                "trace" 50%float 25000%float "short"))) _ eq_refl)
             eq_refl).
  - exact (proj1 (proj2
             (plot_and_detect_never_raises
                (library_raises "array") (fun _ => library_raises "arange")
                (library_raises "gaussian_filter1d")
                (library_raises "gradient")
                (library_raises_Exception "array")
                (fun _ => library_raises_Exception "arange")
                (library_raises_Exception "gaussian_filter1d")
                (library_raises_Exception "gradient")
                (sor_with (Some (fxd_block 146800 1 [10] [100] [5])) None
                   (Some {| number_of_data_points := 2;
                            total_number_scale_factors_used := 1;
                            scale_factors :=
                              [ {| n_points := 2; scale_factor := 1000;
                                   dp_data := [65000; 64000] |} ] |}))
                "trace" 50%float 25000%float "short"))).
Defined.

(** Non-finite powers are not a failure for [plot_and_detect]: with a zero
    scale factor the division yields infinities and a NaN, nothing raises,
    and the success pair comes back.  And an exception that does not derive
    from [Exception], raised inside a library routine, is not captured. *)
Lemma nonfinite_powers_reported_as_success :
  np_scale_ieee [65000; 64000; 65535] 0
  = Ok [neg_infinity; neg_infinity; nan]%float
  /\ plot_and_detect np_scale_ieee
       (fun _ => fixed_array [0; 0.0002; 0.0004]%float) all_nan all_nan
       zero_scale_trace "trace" 0%float 25000%float "short"
     = Ok (true, Logs [] [])
  /\ plot_and_detect interrupted (fun _ => interrupted) interrupted
       interrupted zero_scale_trace "trace" 0%float 25000%float "short"
     = Raise KeyboardInterrupt.
Proof.
  repeat split; vm_compute; reflexivity.
Qed.

(* ================================================================== *)
(** * Further properties of the codec *)

(** ** What the decoders raise, and the values they return *)

(** X1.  [parse_file] raises nothing but [ParseError]: whatever the buffer,
    the decode either returns an aggregate or fails with the module's own
    exception, never with [struct.error], [IndexError] or a decoding error
    of the standard library. *)
Theorem parse_file_raises_only_ParseError (data : bytes) :
  match parse_file data with
  | Ok _ => True
  | Raise e => exists msg, e = ParseError msg
  end.
Proof.
  unfold parse_file.
  pose proof (sound_map_block data 0 ltac:(lia)) as Hmap.
  destruct (map_block data 0) as [[map_blk offset]|e].
  - pose proof (parse_entries_sound data map_blk (block_info map_blk)
                  no_blocks) as Hent.
    destruct (parse_entries data map_blk (block_info map_blk) no_blocks)
      as [st|e]; [exact I|].
    apply is_ParseError_inv. exact Hent.
  - apply is_ParseError_inv. exact Hmap.
Qed.

Lemma le_unsigned_range (raw : bytes) :
  0 <= le_unsigned raw < 256 ^ len raw.
Proof.
  induction raw as [|b r IH].
  - simpl. unfold len. simpl. lia.
  - replace (len (b :: r)) with (len r + 1) by (unfold len; simpl; lia).
    rewrite Z.pow_add_r by (pose proof (len_nonneg r); lia).
    change (le_unsigned (b :: r)) with (byte_val b + 256 * le_unsigned r).
    unfold byte_val.
    pose proof (Byte.to_N_bounded b) as Hb.
    assert (0 <= Z.of_N (Byte.to_N b) <= 255) by lia.
    change (256 ^ 1) with 256. set (P := 256 ^ len r) in *. lia.
Qed.

Lemma to_signed_range (bits u : Z) :
  0 < bits -> 0 <= u < 2 ^ bits ->
  - 2 ^ (bits - 1) <= to_signed bits u < 2 ^ (bits - 1).
Proof.
  intros Hbits Hu. unfold to_signed.
  assert (Hpow : 2 ^ bits = 2 * 2 ^ (bits - 1)).
  { replace bits with (1 + (bits - 1)) at 1 by lia.
    rewrite Z.pow_add_r by lia. reflexivity. }
  destruct (Z.ltb_spec u (2 ^ (bits - 1))); lia.
Qed.

Lemma int_reader_raw width decode msg data offset v offset' :
  0 <= width ->
  int_reader width decode msg data offset = Ok (v, offset') ->
  exists raw, len raw = width /\ v = decode raw.
Proof.
  intros Hw Hok.
  destruct (int_reader_inside _ _ _ _ _ _ _ Hw Hok)
    as (_ & raw & _ & Hlen & Hv & _).
  exists raw. auto.
Qed.

Lemma parse_le_i16_range data offset v offset' :
  parse_le_i16 data offset = Ok (v, offset') -> is_i16 v.
Proof.
  rewrite parse_le_i16_reader. intros Hok. unfold is_i16.
  destruct (int_reader_raw 2 _ _ _ _ _ _ ltac:(lia) Hok) as (raw & Hlen & ->).
  pose proof (le_unsigned_range raw) as Hr. rewrite Hlen in Hr.
  change (256 ^ 2) with (2 ^ 16) in Hr.
  pose proof (to_signed_range 16 (le_unsigned raw) ltac:(lia) Hr) as Hs.
  change (2 ^ (16 - 1)) with 32768 in Hs. lia.
Qed.

Lemma parse_le_u16_range data offset v offset' :
  parse_le_u16 data offset = Ok (v, offset') -> is_u16 v.
Proof.
  rewrite parse_le_u16_reader. intros Hok. unfold is_u16.
  destruct (int_reader_raw 2 _ _ _ _ _ _ ltac:(lia) Hok) as (raw & Hlen & ->).
  pose proof (le_unsigned_range raw) as Hr. rewrite Hlen in Hr.
  change (256 ^ 2) with 65536 in Hr. lia.
Qed.

Lemma parse_le_i32_range data offset v offset' :
  parse_le_i32 data offset = Ok (v, offset') -> is_i32 v.
Proof.
  rewrite parse_le_i32_reader. intros Hok. unfold is_i32.
  destruct (int_reader_raw 4 _ _ _ _ _ _ ltac:(lia) Hok) as (raw & Hlen & ->).
  pose proof (le_unsigned_range raw) as Hr. rewrite Hlen in Hr.
  change (256 ^ 4) with (2 ^ 32) in Hr.
  pose proof (to_signed_range 32 (le_unsigned raw) ltac:(lia) Hr) as Hs.
  change (2 ^ (32 - 1)) with 2147483648 in Hs. lia.
Qed.

Lemma parse_le_u32_range data offset v offset' :
  parse_le_u32 data offset = Ok (v, offset') -> is_u32 v.
Proof.
  rewrite parse_le_u32_reader. intros Hok. unfold is_u32.
  destruct (int_reader_raw 4 _ _ _ _ _ _ ltac:(lia) Hok) as (raw & Hlen & ->).
  pose proof (le_unsigned_range raw) as Hr. rewrite Hlen in Hr.
  change (256 ^ 4) with 4294967296 in Hr. lia.
Qed.

(** X2.  A value a primitive integer read returns lies in the range of its
    format: signed 16 and 32 bits in two's complement, unsigned 16 and 32
    bits. *)
Theorem integer_reads_in_range (data : bytes) (offset v offset' : Z) :
  (parse_le_i16 data offset = Ok (v, offset') -> is_i16 v)
  /\ (parse_le_u16 data offset = Ok (v, offset') -> is_u16 v)
  /\ (parse_le_i32 data offset = Ok (v, offset') -> is_i32 v)
  /\ (parse_le_u32 data offset = Ok (v, offset') -> is_u32 v).
Proof.
  split; [apply parse_le_i16_range|].
  split; [apply parse_le_u16_range|].
  split; [apply parse_le_i32_range|apply parse_le_u32_range].
Qed.

Lemma integer_reads_in_range_witness :
  parse_le_i16 [xff; xff; x40; x9c] 0 = Ok (-1, 2)
  /\ is_i16 (-1)
  /\ parse_le_u16 [xff; xff; x40; x9c] 2 = Ok (40000, 4)
  /\ is_u16 40000.
Proof.
  assert (H1 : parse_le_i16 [xff; xff; x40; x9c] 0 = Ok (-1, 2))
    by reflexivity.
  assert (H2 : parse_le_u16 [xff; xff; x40; x9c] 2 = Ok (40000, 4))
    by reflexivity.
  split; [exact H1|]. split.
  - exact (proj1 (integer_reads_in_range _ _ _ _) H1).
  - split; [exact H2|].
    exact (proj1 (proj2 (integer_reads_in_range _ _ _ _)) H2).
Defined.

(** ** Decoders keep the cursor inside the buffer *)

Lemma inside_ret {A : Type} (a : A) : stays_inside (ret a).
Proof.
  intros data offset a' offset' Ho [= _ <-].
  split; [apply Z.le_refl|apply Ho].
Qed.

Lemma inside_raise {A : Type} (msg : string) :
  stays_inside (fun _ _ => @Raise (A * Z) (ParseError msg)).
Proof. intros data offset a offset' Ho H. discriminate H. Qed.

Lemma inside_bind {A B : Type} (p : parser A) (f : A -> parser B) :
  stays_inside p -> (forall a, stays_inside (f a)) -> stays_inside (bind p f).
Proof.
  intros Hp Hf data offset b offset' Ho Hrun.
  apply bind_ok in Hrun. destruct Hrun as (a & o1 & H1 & H2).
  specialize (Hp _ _ _ _ Ho H1).
  specialize (Hf a data o1 b offset' ltac:(lia) H2). lia.
Qed.

Lemma inside_repeat_nat {A : Type} (n : nat) (p : parser A) :
  stays_inside p -> stays_inside (repeat_nat n p).
Proof.
  intros Hp. induction n as [|n IH]; simpl.
  - apply inside_ret.
  - apply inside_bind; [exact Hp|]. intros x.
    apply inside_bind; [exact IH|]. intros xs. apply inside_ret.
Qed.

Lemma inside_repeat_range {A : Type} (n : Z) (p : parser A) :
  stays_inside p -> stays_inside (repeat_range n p).
Proof. apply inside_repeat_nat. Qed.

Lemma inside_int_reader width decode msg :
  0 <= width -> stays_inside (int_reader width decode msg).
Proof.
  intros Hw data offset v offset' Ho. unfold int_reader.
  destruct (Z.ltb_spec (len data) (offset + width)); [discriminate|].
  destruct (unpack_from width data offset); [|discriminate].
  intros [= _ <-]. lia.
Qed.

Lemma inside_parse_le_i16 : stays_inside parse_le_i16.
Proof. rewrite parse_le_i16_reader. apply inside_int_reader. lia. Qed.

Lemma inside_parse_le_i32 : stays_inside parse_le_i32.
Proof. rewrite parse_le_i32_reader. apply inside_int_reader. lia. Qed.

Lemma inside_parse_le_u16 : stays_inside parse_le_u16.
Proof. rewrite parse_le_u16_reader. apply inside_int_reader. lia. Qed.

Lemma inside_parse_le_u32 : stays_inside parse_le_u32.
Proof. rewrite parse_le_u32_reader. apply inside_int_reader. lia. Qed.

Lemma inside_fixed_length_str (n : Z) :
  0 <= n -> stays_inside (fixed_length_str n).
Proof.
  intros Hn data offset v offset' Ho. unfold fixed_length_str.
  destruct (Z.ltb_spec (len data) (offset + n)); [discriminate|].
  destruct (utf8_decode _); [|discriminate].
  intros [= _ <-]. lia.
Qed.

Lemma find_nul_from_bounds (l : bytes) :
  forall i : Z,
    find_nul_from l i = -1 \/ i <= find_nul_from l i < i + len l.
Proof.
  induction l as [|b r IH]; intros i; simpl.
  - left. reflexivity.
  - replace (len (b :: r)) with (len r + 1) by (unfold len; simpl; lia).
    pose proof (len_nonneg r).
    destruct (Byte.eqb b x00); [right; lia|].
    destruct (IH (i + 1)) as [H1|H1]; [left; exact H1|right; lia].
Qed.

Lemma null_terminated_chunk_bounds data offset chunk offset' :
  0 <= offset <= len data ->
  null_terminated_chunk data offset = Ok (chunk, offset') ->
  offset < offset' <= len data.
Proof.
  intros Ho. unfold null_terminated_chunk, bytes_find_nul.
  rewrite slice_index_id by lia.
  pose proof (find_nul_from_bounds (skipn (Z.to_nat offset) data) offset) as Hb.
  set (e := find_nul_from _ _) in *.
  destruct (Z.eqb_spec e (-1)); [discriminate|].
  intros [= _ <-].
  assert (len (skipn (Z.to_nat offset) data) = len data - offset).
  { unfold len in *. rewrite length_skipn. lia. }
  lia.
Qed.

Lemma inside_null_terminated_str : stays_inside null_terminated_str.
Proof.
  intros data offset v offset' Ho. unfold null_terminated_str.
  destruct (null_terminated_chunk data offset) as [[chunk o]|e] eqn:Hc;
    [|discriminate].
  destruct (utf8_decode chunk); [|discriminate].
  intros [= _ <-].
  pose proof (null_terminated_chunk_bounds _ _ _ _ Ho Hc). lia.
Qed.

Lemma inside_block_header (header : string) :
  stays_inside (block_header header).
Proof.
  intros data offset u offset' Ho. unfold block_header.
  destruct (utf8_encode (str_lit header)) as [expected|]; [|discriminate].
  destruct (negb (bytes_eqb _ expected)); [discriminate|].
  destruct (bytes_eqb (py_slice data (offset + len expected)
                         (offset + len expected + 1)) [x00]) eqn:Hnul;
    [|discriminate].
  cbn [negb]. intros [= _ <-].
  pose proof (len_nonneg expected) as He.
  apply bytes_eqb_eq in Hnul.
  rewrite py_slice_prefix in Hnul by lia.
  destruct (Z.le_gt_cases (len data) (offset + len expected)) as [Hout|Hin].
  - rewrite skipn_all2 in Hnul by (unfold len in *; lia).
    rewrite firstn_nil in Hnul. discriminate Hnul.
  - lia.
Qed.

Lemma inside_proprietary_block : stays_inside proprietary_block.
Proof.
  intros data offset v offset' Ho. unfold proprietary_block.
  destruct (null_terminated_str data offset) as [[h o]|e]; [|discriminate].
  intros [= _ <-]. lia.
Qed.

Create HintDb inside_db.
#[local] Hint Resolve inside_ret inside_raise inside_parse_le_i16
  inside_parse_le_i32 inside_parse_le_u16 inside_parse_le_u32
  inside_null_terminated_str inside_proprietary_block inside_repeat_range
  inside_block_header : inside_db.

Ltac inside_chain :=
  repeat first
    [ solve [auto with inside_db]
    | apply inside_fixed_length_str; lia
    | match goal with
      | |- stays_inside (let _ := _ in _) => cbv zeta
      | |- stays_inside (if ?c then _ else _) => destruct c
      | |- stays_inside (bind _ _) => apply inside_bind; [|intros ?]
      end ].

Lemma inside_map_block_info : stays_inside map_block_info.
Proof. unfold map_block_info. inside_chain. Qed.

Lemma inside_key_event : stays_inside key_event.
Proof. unfold key_event. inside_chain. Qed.

Lemma inside_last_key_event : stays_inside last_key_event.
Proof. unfold last_key_event. inside_chain. Qed.

Lemma inside_landmark : stays_inside landmark.
Proof. unfold landmark. inside_chain. Qed.

Lemma inside_data_points_at_scale_factor :
  stays_inside data_points_at_scale_factor.
Proof. unfold data_points_at_scale_factor. inside_chain. Qed.

#[local] Hint Resolve inside_map_block_info inside_key_event
  inside_last_key_event inside_landmark inside_data_points_at_scale_factor
  : inside_db.

(** X3.  Every block decoder, started at a cursor inside the buffer, returns
    a cursor that is inside the buffer and not before the one it started
    from: no decoder reads past the end or moves backwards. *)
Theorem decoders_stay_inside :
  stays_inside map_block
  /\ stays_inside general_parameters_block
  /\ stays_inside supplier_parameters_block
  /\ stays_inside fixed_parameters_block
  /\ stays_inside key_events_block
  /\ stays_inside link_parameters_block
  /\ stays_inside data_points_block
  /\ stays_inside proprietary_block.
Proof.
  repeat match goal with |- _ /\ _ => split end.
  - unfold map_block. inside_chain.
  - unfold general_parameters_block. inside_chain.
  - unfold supplier_parameters_block. inside_chain.
  - unfold fixed_parameters_block. inside_chain.
  - unfold key_events_block. inside_chain.
  - unfold link_parameters_block. inside_chain.
  - unfold data_points_block. inside_chain.
  - apply inside_proprietary_block.
Qed.

Lemma decoders_stay_inside_witness :
  map_block map_buffer 0 = Ok (lone_map "GenParams", 28)
  /\ 0 <= 28 <= len map_buffer.
Proof.
  assert (H : map_block map_buffer 0 = Ok (lone_map "GenParams", 28))
    by (vm_compute; reflexivity).
  split; [exact H|].
  exact (proj1 decoders_stay_inside map_buffer 0 _ 28
           ltac:(vm_compute; split; discriminate) H).
Defined.

(** ** Count-driven blocks *)

Lemma repeat_nat_Forall {A : Type} (P : A -> Prop) (p : parser A) :
  (forall data offset a offset', p data offset = Ok (a, offset') -> P a) ->
  forall (n : nat) data offset xs offset',
    repeat_nat n p data offset = Ok (xs, offset') ->
    List.length xs = n /\ Forall P xs.
Proof.
  intros Hp. induction n as [|n IH]; intros data offset xs offset' Hrun.
  - simpl in Hrun. unfold ret in Hrun. injection Hrun as <- _.
    split; [reflexivity|constructor].
  - simpl in Hrun.
    apply bind_ok in Hrun. destruct Hrun as (x & o1 & Hx & Hrun).
    apply bind_ok in Hrun. destruct Hrun as (tl & o2 & Htl & Hrun).
    unfold ret in Hrun. injection Hrun as <- _.
    destruct (IH _ _ _ _ Htl) as [Hlen Hall].
    split; [simpl; lia|]. constructor; [eapply Hp; eauto|exact Hall].
Qed.

Lemma repeat_range_Forall {A : Type} (P : A -> Prop) (p : parser A) :
  (forall data offset a offset', p data offset = Ok (a, offset') -> P a) ->
  forall (n : Z) data offset xs offset',
    repeat_range n p data offset = Ok (xs, offset') ->
    len xs = Z.max 0 n /\ Forall P xs.
Proof.
  intros Hp n data offset xs offset' Hrun. unfold repeat_range in Hrun.
  destruct (repeat_nat_Forall P p Hp _ _ _ _ _ Hrun) as [Hlen Hall].
  split; [unfold len; lia|exact Hall].
Qed.

Lemma map_block_info_ranges data offset bi offset' :
  map_block_info data offset = Ok (bi, offset') ->
  is_u16 (bi_revision_number bi) /\ is_i32 (size bi).
Proof.
  unfold map_block_info. intros H.
  apply bind_ok in H. destruct H as (id & o1 & _ & H).
  apply bind_ok in H. destruct H as (rev & o2 & Hrev & H).
  apply bind_ok in H. destruct H as (sz & o3 & Hsz & H).
  unfold ret in H. injection H as <- _. simpl.
  split; [eapply parse_le_u16_range; eauto|eapply parse_le_i32_range; eauto].
Qed.

(** X4.  A Map that decodes declares a block count of at least 1 and lists
    one entry fewer than it declares (its own entry is implicit); its
    revision and block size, and every entry's revision and size, lie in the
    ranges of their formats, so an entry's size may be negative. *)
Theorem map_block_directory (data : bytes) (offset : Z) (map_blk : MapBlock)
    (offset' : Z) :
  map_block data offset = Ok (map_blk, offset') ->
  1 <= block_count map_blk <= 32767
  /\ len (block_info map_blk) = block_count map_blk - 1
  /\ is_u16 (revision_number map_blk)
  /\ is_i32 (block_size map_blk)
  /\ Forall (fun bi => is_u16 (bi_revision_number bi) /\ is_i32 (size bi))
            (block_info map_blk).
Proof.
  unfold map_block. intros H.
  apply bind_ok in H. destruct H as (u & o1 & _ & H).
  apply bind_ok in H. destruct H as (rev & o2 & Hrev & H).
  apply bind_ok in H. destruct H as (bs & o3 & Hbs & H).
  apply bind_ok in H. destruct H as (count & o4 & Hcount & H).
  cbv zeta in H.
  destruct (Z.ltb_spec (count - 1) 0) as [Hneg|Hpos]; [discriminate H|].
  apply bind_ok in H. destruct H as (infos & o5 & Hinfos & H).
  unfold ret in H. injection H as <- _. simpl.
  apply parse_le_i16_range in Hcount. unfold is_i16 in Hcount.
  destruct (repeat_range_Forall _ _ map_block_info_ranges _ _ _ _ _ Hinfos)
    as [Hlen Hall].
  split; [lia|]. split; [lia|].
  split; [eapply parse_le_u16_range; eauto|].
  split; [eapply parse_le_i32_range; eauto|exact Hall].
Qed.

Lemma map_block_directory_witness :
  map_block map_buffer 0 = Ok (lone_map "GenParams", 28)
  /\ len (block_info (lone_map "GenParams"))
     = block_count (lone_map "GenParams") - 1.
Proof.
  assert (H : map_block map_buffer 0 = Ok (lone_map "GenParams", 28))
    by (vm_compute; reflexivity).
  split; [exact H|].
  exact (proj1 (proj2 (map_block_directory _ _ _ _ H))).
Defined.

(** X5.  A KeyEvents block that decodes declares at least one event and
    holds one ordinary event fewer than it declares, followed by the last
    event. *)
Theorem key_events_count (data : bytes) (offset : Z) (ke : KeyEvents)
    (offset' : Z) :
  key_events_block data offset = Ok (ke, offset') ->
  1 <= number_of_key_events ke <= 32767
  /\ len (kes_key_events ke) = number_of_key_events ke - 1.
Proof.
  unfold key_events_block. intros H.
  apply bind_ok in H. destruct H as (u & o1 & _ & H).
  apply bind_ok in H. destruct H as (count & o2 & Hcount & H).
  cbv zeta in H.
  destruct (Z.ltb_spec (count - 1) 0) as [Hneg|Hpos]; [discriminate H|].
  apply bind_ok in H. destruct H as (events & o3 & Hevents & H).
  apply bind_ok in H. destruct H as (lke & o4 & _ & H).
  unfold ret in H. injection H as <- _. simpl.
  apply parse_le_i16_range in Hcount. unfold is_i16 in Hcount.
  destruct (repeat_range_Forall (fun _ => True) key_event
              ltac:(intros; exact I) _ _ _ _ _ Hevents) as [Hlen _].
  lia.
Qed.

Lemma data_points_at_scale_factor_samples data offset sf offset' :
  data_points_at_scale_factor data offset = Ok (sf, offset') ->
  len (dp_data sf) = Z.max 0 (n_points sf)
  /\ Forall is_u16 (dp_data sf)
  /\ is_i16 (scale_factor sf).
Proof.
  unfold data_points_at_scale_factor. intros H.
  apply bind_ok in H. destruct H as (n & o1 & _ & H).
  apply bind_ok in H. destruct H as (f & o2 & Hf & H).
  apply bind_ok in H. destruct H as (samples & o3 & Hs & H).
  unfold ret in H. injection H as <- _. simpl.
  destruct (repeat_range_Forall _ _ parse_le_u16_range _ _ _ _ _ Hs)
    as [Hlen Hall].
  split; [exact Hlen|]. split; [exact Hall|].
  eapply parse_le_i16_range; eauto.
Qed.

(** X6.  In a DataPts block that decodes, the number of scale-factor groups
    is the declared count (none when it is negative); each group holds as
    many samples as it declares (none when negative), every sample is an
    unsigned 16-bit value, and the scale factor is a signed 16-bit value. *)
Theorem data_points_samples (data : bytes) (offset : Z) (dp : DataPoints)
    (offset' : Z) :
  data_points_block data offset = Ok (dp, offset') ->
  len (scale_factors dp) = Z.max 0 (total_number_scale_factors_used dp)
  /\ Forall (fun sf => len (dp_data sf) = Z.max 0 (n_points sf)
                       /\ Forall is_u16 (dp_data sf)
                       /\ is_i16 (scale_factor sf))
            (scale_factors dp).
Proof.
  unfold data_points_block. intros H.
  apply bind_ok in H. destruct H as (u & o1 & _ & H).
  apply bind_ok in H. destruct H as (n & o2 & _ & H).
  apply bind_ok in H. destruct H as (count & o3 & _ & H).
  apply bind_ok in H. destruct H as (groups & o4 & Hgroups & H).
  unfold ret in H. injection H as <- _. simpl.
  exact (repeat_range_Forall _ _ data_points_at_scale_factor_samples
           _ _ _ _ _ Hgroups).
Qed.

Lemma data_points_samples_witness :
  (exists dp, data_points_block data_points_buffer 0 = Ok (dp, 26)
              /\ len (scale_factors dp) = 1
              /\ Forall (fun sf => Forall is_u16 (dp_data sf))
                        (scale_factors dp)).
Proof.
  destruct (data_points_block data_points_buffer 0) as [[dp o]|e] eqn:H;
    [|vm_compute in H; discriminate H].
  assert (Ho : o = 26) by (vm_compute in H; congruence).
  subst o. exists dp. split; [reflexivity|].
  pose proof (data_points_samples _ _ _ _ H) as [Hlen Hall].
  split.
  - rewrite Hlen. vm_compute in H. injection H as <-. reflexivity.
  - eapply Forall_impl; [|exact Hall]. simpl. tauto.
Defined.

Lemma key_events_count_witness :
  exists ke,
    key_events_block key_events_buffer 0 = Ok (ke, 80)
    /\ len (kes_key_events ke) = number_of_key_events ke - 1.
Proof.
  destruct (key_events_block key_events_buffer 0) as [[ke o]|e] eqn:H;
    [|vm_compute in H; discriminate H].
  assert (Ho : o = 80) by (vm_compute in H; congruence).
  subst o. exists ke. split; [reflexivity|].
  exact (proj2 (key_events_count _ _ _ _ H)).
Defined.

(** ** Null-terminated strings and opaque blocks *)

Lemma find_nul_from_split (l : bytes) :
  forall i : Z, 0 <= i ->
    (find_nul_from l i = -1 /\ ~ In x00 l)
    \/ exists chunk rest,
         l = chunk ++ x00 :: rest /\ ~ In x00 chunk
         /\ find_nul_from l i = i + len chunk.
Proof.
  induction l as [|b r IH]; intros i Hi; simpl.
  - left. split; [reflexivity|tauto].
  - destruct (Byte.eqb b x00) eqn:Hb.
    + apply Byte.byte_dec_bl in Hb. subst b. right.
      exists [], r. split; [reflexivity|]. split; [simpl; tauto|].
      unfold len. simpl. lia.
    + assert (Hne : b <> x00).
      { intros ->. discriminate Hb. }
      destruct (IH (i + 1) ltac:(lia)) as [[Hnone Hnotin]|Hfound].
      * left. split; [exact Hnone|]. intros [Heq|Hin]; [congruence|tauto].
      * destruct Hfound as (chunk & rest & -> & Hnotin & Hidx). right.
        exists (b :: chunk), rest. split; [reflexivity|].
        split; [intros [Heq|Hin]; [congruence|tauto]|].
        rewrite Hidx. unfold len. simpl. lia.
Qed.

(** The chunk read is the run of bytes up to the first NUL at or after the
    cursor; without one the read fails. *)
Lemma null_terminated_chunk_spec (data : bytes) (offset : Z) :
  0 <= offset <= len data ->
  (null_terminated_chunk data offset
     = Raise (ParseError "Null terminator not found")
   /\ ~ In x00 (skipn (Z.to_nat offset) data))
  \/ exists chunk rest,
       skipn (Z.to_nat offset) data = chunk ++ x00 :: rest
       /\ ~ In x00 chunk
       /\ null_terminated_chunk data offset
          = Ok (chunk, offset + len chunk + 1).
Proof.
  intros Ho. unfold null_terminated_chunk, bytes_find_nul.
  rewrite slice_index_id by lia.
  destruct (find_nul_from_split (skipn (Z.to_nat offset) data) offset
              ltac:(lia)) as [[Hnone Hnotin]|(chunk & rest & Hsplit & Hnotin & Hidx)].
  - left. rewrite Hnone. split; [reflexivity|exact Hnotin].
  - right. exists chunk, rest. split; [exact Hsplit|]. split; [exact Hnotin|].
    rewrite Hidx. pose proof (len_nonneg chunk) as Hc.
    destruct (Z.eqb_spec (offset + len chunk) (-1)); [lia|].
    f_equal. f_equal.
    rewrite py_slice_prefix by lia. rewrite Hsplit.
    replace (Z.to_nat (offset + len chunk - offset))
      with (List.length chunk + 0)%nat by (unfold len; lia).
    rewrite firstn_app_2. simpl. apply app_nil_r.
Qed.

(** X7.  [null_terminated_str] at a cursor inside the buffer reads the bytes
    up to the first NUL at or after the cursor, decodes them as UTF-8 and
    leaves the cursor just past that NUL.  It fails with [ParseError] when
    no NUL follows the cursor, and when the bytes before the NUL are not
    valid UTF-8. *)
Theorem null_terminated_str_spec (data : bytes) (offset : Z) :
  0 <= offset <= len data ->
  (~ In x00 (skipn (Z.to_nat offset) data)
   /\ null_terminated_str data offset
      = Raise (ParseError "Null terminator not found"))
  \/ exists chunk rest,
       skipn (Z.to_nat offset) data = chunk ++ x00 :: rest
       /\ ~ In x00 chunk
       /\ null_terminated_str data offset
          = match utf8_decode chunk with
            | Some decoded => Ok (decoded, offset + len chunk + 1)
            | None =>
              Raise (ParseError "Failed to decode null_terminated_str")
            end.
Proof.
  intros Ho. unfold null_terminated_str.
  destruct (null_terminated_chunk_spec data offset Ho)
    as [[Hraise Hnotin]|(chunk & rest & Hsplit & Hnotin & Hok)].
  - left. rewrite Hraise. split; [exact Hnotin|reflexivity].
  - right. exists chunk, rest. rewrite Hok. auto.
Qed.

Lemma null_terminated_str_spec_witness :
  null_terminated_str vendor_buffer 0 = Ok (str_lit "VendorX", 8)
  \/ null_terminated_str vendor_buffer 0
     = Raise (ParseError "Null terminator not found").
Proof.
  destruct (null_terminated_str_spec vendor_buffer 0
              ltac:(vm_compute; split; discriminate))
    as [[_ Hraise]|_].
  - right. exact Hraise.
  - left. reflexivity.
Defined.

(** X8.  A proprietary block keeps its bytes: the header is the decoded run
    up to the first NUL, the payload is every byte after that NUL, verbatim,
    and the cursor returned is the end of the buffer. *)
Theorem proprietary_block_passthrough (data : bytes) (offset : Z)
    (pb : ProprietaryBlock) (offset' : Z) :
  0 <= offset <= len data ->
  proprietary_block data offset = Ok (pb, offset') ->
  offset' = len data
  /\ exists chunk,
       skipn (Z.to_nat offset) data = chunk ++ x00 :: pb_data pb
       /\ ~ In x00 chunk
       /\ utf8_decode chunk = Some (pb_header pb).
Proof.
  intros Ho. unfold proprietary_block, null_terminated_str.
  destruct (null_terminated_chunk_spec data offset Ho)
    as [[Hraise _]|(chunk & rest & Hsplit & Hnotin & Hok)].
  - rewrite Hraise. discriminate.
  - rewrite Hok. destruct (utf8_decode chunk) as [decoded|] eqn:Hdec;
      [|discriminate].
    intros [= <- <-]. split; [reflexivity|].
    exists chunk. simpl. split; [|split; [exact Hnotin|exact Hdec]].
    rewrite Hsplit. f_equal. f_equal.
    unfold py_slice_from. pose proof (len_nonneg chunk) as Hc.
    assert (Hlen : len data = offset + len chunk + 1 + len rest).
    { assert (Hl : List.length (skipn (Z.to_nat offset) data)
                   = List.length (chunk ++ x00 :: rest)) by (rewrite Hsplit; reflexivity).
      rewrite length_skipn, length_app in Hl. simpl in Hl.
      unfold len in *. lia. }
    pose proof (len_nonneg rest) as Hr.
    rewrite slice_index_id by lia.
    replace (Z.to_nat (offset + len chunk + 1))
      with ((List.length chunk + 1) + Z.to_nat offset)%nat
      by (unfold len; lia).
    rewrite <- skipn_skipn. rewrite Hsplit. rewrite skipn_app.
    replace (List.length chunk + 1 - List.length chunk)%nat with 1%nat by lia.
    rewrite skipn_all2 by lia. reflexivity.
Qed.

Lemma proprietary_block_passthrough_witness :
  proprietary_block vendor_buffer 0
    = Ok ({| pb_header := str_lit "VendorX"; pb_data := [x01; x00; xff] |}, 11)
  /\ 11 = len vendor_buffer.
Proof.
  assert (H : proprietary_block vendor_buffer 0
              = Ok ({| pb_header := str_lit "VendorX";
                       pb_data := [x01; x00; xff] |}, 11))
    by (vm_compute; reflexivity).
  split; [exact H|].
  exact (proj1 (proprietary_block_passthrough vendor_buffer 0 _ _
                  ltac:(vm_compute; split; discriminate) H)).
Defined.

(** ** What the aggregate holds *)

Lemma run_ok {A B : Type} (p : parser A) (block_data : bytes) (k : A -> B)
    (b : B) :
  run p block_data k = Ok b -> exists a, b = k a.
Proof.
  unfold run. destruct (p block_data 0) as [[a o]|e]; [|discriminate].
  intros [= <-]. eauto.
Qed.

(** One dispatched entry sets the field of its own kind and no other; the
    link parameters are never set; an unknown identifier adds one
    proprietary block. *)
Lemma dispatch_effect bi block_data st st' :
  dispatch bi block_data st = Ok st' ->
  present (b_general_parameters st')
    = present (b_general_parameters st)
      || pystr_eqb (identifier bi) (str_lit "GenParams")
  /\ present (b_supplier_parameters st')
    = present (b_supplier_parameters st)
      || pystr_eqb (identifier bi) (str_lit "SupParams")
  /\ present (b_fixed_parameters st')
    = present (b_fixed_parameters st)
      || pystr_eqb (identifier bi) (str_lit "FxdParams")
  /\ present (b_key_events st')
    = present (b_key_events st)
      || pystr_eqb (identifier bi) (str_lit "KeyEvents")
  /\ present (b_data_points st')
    = present (b_data_points st)
      || pystr_eqb (identifier bi) (str_lit "DataPts")
  /\ b_link_parameters st' = b_link_parameters st
  /\ len (b_proprietary_blocks st')
    = len (b_proprietary_blocks st)
      + (if known_id (identifier bi) then 0 else 1).
Proof.
  unfold dispatch, known_id.
  destruct (pystr_eqb (identifier bi) (str_lit "SupParams")) eqn:E1.
  { apply pystr_eqb_eq in E1. rewrite E1. intros H.
    apply run_ok in H. destruct H as [a ->]. simpl.
    rewrite !orb_false_r, !orb_true_r. repeat split; lia. }
  destruct (pystr_eqb (identifier bi) (str_lit "GenParams")) eqn:E2.
  { apply pystr_eqb_eq in E2. rewrite E2. intros H.
    apply run_ok in H. destruct H as [a ->]. simpl.
    rewrite !orb_false_r, !orb_true_r. repeat split; lia. }
  destruct (pystr_eqb (identifier bi) (str_lit "FxdParams")) eqn:E3.
  { apply pystr_eqb_eq in E3. rewrite E3. intros H.
    apply run_ok in H. destruct H as [a ->]. simpl.
    rewrite !orb_false_r, !orb_true_r. repeat split; lia. }
  destruct (pystr_eqb (identifier bi) (str_lit "KeyEvents")) eqn:E4.
  { apply pystr_eqb_eq in E4. rewrite E4. intros H.
    apply run_ok in H. destruct H as [a ->]. simpl.
    rewrite !orb_false_r, !orb_true_r. repeat split; lia. }
  destruct (pystr_eqb (identifier bi) (str_lit "LnkParams")) eqn:E5.
  { apply pystr_eqb_eq in E5. rewrite E5. intros [= <-]. simpl.
    rewrite !orb_false_r. repeat split; lia. }
  destruct (pystr_eqb (identifier bi) (str_lit "DataPts")) eqn:E6.
  { apply pystr_eqb_eq in E6. rewrite E6. intros H.
    apply run_ok in H. destruct H as [a ->]. simpl.
    rewrite !orb_false_r, !orb_true_r. repeat split; lia. }
  destruct (pystr_eqb (identifier bi) (str_lit "Cksum")) eqn:E7.
  { intros [= <-]. simpl. rewrite !orb_false_r. repeat split; lia. }
  intros H. apply run_ok in H. destruct H as [a ->]. simpl.
  rewrite !orb_false_r. repeat split; try reflexivity.
  unfold len. rewrite length_app. simpl. lia.
Qed.

Lemma parse_entries_effect data map_blk infos :
  forall st st',
    parse_entries data map_blk infos st = Ok st' ->
    present (b_general_parameters st')
      = present (b_general_parameters st) || listed "GenParams" infos
    /\ present (b_supplier_parameters st')
      = present (b_supplier_parameters st) || listed "SupParams" infos
    /\ present (b_fixed_parameters st')
      = present (b_fixed_parameters st) || listed "FxdParams" infos
    /\ present (b_key_events st')
      = present (b_key_events st) || listed "KeyEvents" infos
    /\ present (b_data_points st')
      = present (b_data_points st) || listed "DataPts" infos
    /\ b_link_parameters st' = b_link_parameters st
    /\ len (b_proprietary_blocks st')
      = len (b_proprietary_blocks st) + len (unknown_entries infos).
Proof.
  induction infos as [|bi rest IH]; intros st st'; simpl.
  - intros [= <-]. rewrite !orb_false_r. unfold len. simpl.
    repeat split; lia.
  - unfold parse_entry.
    pose proof (block_data_of_cases data bi map_blk) as Hd.
    assert (Hbd : exists d, block_data_of data bi map_blk = Ok d).
    { destruct (extract_block_data data (identifier bi) map_blk); eauto. }
    destruct Hbd as [d ->].
    destruct (dispatch bi d st) as [st1|e] eqn:Hdis; [|discriminate].
    intros Hrest. apply IH in Hrest. apply dispatch_effect in Hdis.
    destruct Hdis as (G1 & S1 & F1 & K1 & D1 & L1 & P1).
    destruct Hrest as (G & S & F & K & D & L & P).
    rewrite G, S, F, K, D, L, P, G1, S1, F1, K1, D1, L1, P1.
    rewrite !orb_assoc.
    repeat split; try reflexivity.
    unfold unknown_entries. simpl filter.
    destruct (known_id (identifier bi)); unfold len; simpl; lia.
Qed.

Lemma parse_file_ok data sor :
  parse_file data = Ok sor ->
  exists offset st,
    map_block data 0 = Ok (sor_map sor, offset)
    /\ parse_entries data (sor_map sor) (block_info (sor_map sor)) no_blocks
       = Ok st
    /\ general_parameters sor = b_general_parameters st
    /\ supplier_parameters sor = b_supplier_parameters st
    /\ fixed_parameters sor = b_fixed_parameters st
    /\ key_events sor = b_key_events st
    /\ link_parameters sor = b_link_parameters st
    /\ data_points sor = b_data_points st
    /\ proprietary_blocks sor = b_proprietary_blocks st.
Proof.
  unfold parse_file.
  destruct (map_block data 0) as [[map_blk offset]|e]; [|discriminate].
  destruct (parse_entries data map_blk (block_info map_blk) no_blocks)
    as [st|e] eqn:Hst; [|discriminate].
  intros [= <-]. simpl. exists offset, st. repeat split. exact Hst.
Qed.

(** X9.  [parse_file] never populates the link parameters: in every
    aggregate it returns, they are absent, whether or not the directory
    lists a [LnkParams] block. *)
Theorem link_parameters_always_absent (data : bytes) (sor : SORFile) :
  parse_file data = Ok sor -> link_parameters sor = None.
Proof.
  intros H. apply parse_file_ok in H.
  destruct H as (offset & st & _ & Hst & _ & _ & _ & _ & -> & _).
  apply parse_entries_effect in Hst.
  destruct Hst as (_ & _ & _ & _ & _ & -> & _). reflexivity.
Qed.

Lemma link_parameters_always_absent_witness :
  parse_file (lone_map_buffer "LnkParams")
    = Ok (empty_sor (lone_map "LnkParams"))
  /\ link_parameters (empty_sor (lone_map "LnkParams")) = None.
Proof.
  assert (H : parse_file (lone_map_buffer "LnkParams")
              = Ok (empty_sor (lone_map "LnkParams")))
    by (vm_compute; reflexivity).
  split; [exact H|]. exact (link_parameters_always_absent _ _ H).
Defined.

(** X10.  In an aggregate [parse_file] returns, the Map is the one decoded
    at offset 0; each of the general, supplier and fixed parameters, the key
    events and the data points is present exactly when the directory lists
    an entry with its identifier; and there is one proprietary block for
    each entry whose identifier is none of the seven known tags. *)
Theorem parse_file_presence (data : bytes) (sor : SORFile) :
  parse_file data = Ok sor ->
  (exists offset, map_block data 0 = Ok (sor_map sor, offset))
  /\ present (general_parameters sor)
     = listed "GenParams" (block_info (sor_map sor))
  /\ present (supplier_parameters sor)
     = listed "SupParams" (block_info (sor_map sor))
  /\ present (fixed_parameters sor)
     = listed "FxdParams" (block_info (sor_map sor))
  /\ present (key_events sor)
     = listed "KeyEvents" (block_info (sor_map sor))
  /\ present (data_points sor)
     = listed "DataPts" (block_info (sor_map sor))
  /\ len (proprietary_blocks sor)
     = len (unknown_entries (block_info (sor_map sor))).
Proof.
  intros H. apply parse_file_ok in H.
  destruct H as (offset & st & Hmap & Hst & -> & -> & -> & -> & _ & -> & ->).
  apply parse_entries_effect in Hst.
  destruct Hst as (G & S & F & K & D & _ & P).
  split; [eauto|]. simpl in *. repeat split; assumption.
Qed.

Lemma parse_file_presence_witness :
  exists sor,
    parse_file vendor_file = Ok sor
    /\ present (general_parameters sor) = false
    /\ len (proprietary_blocks sor) = 1.
Proof.
  destruct (parse_file vendor_file) as [sor|e] eqn:H;
    [|vm_compute in H; discriminate H].
  exists sor. split; [reflexivity|].
  pose proof (parse_file_presence _ _ H) as (_ & G & _ & _ & _ & _ & P).
  rewrite G, P. vm_compute in H. injection H as <-.
  split; reflexivity.
Defined.

(* ------------------------------------------------------------------ *)
(** * The encoders against the decoders *)

(** ** Integers *)

Lemma byte_val_of_Z (z : Z) : 0 <= z < 256 -> byte_val (byte_of_Z z) = z.
Proof.
  intros Hz. unfold byte_val, byte_of_Z.
  destruct (Byte.of_N (Z.to_N z)) as [b|] eqn:Hb.
  - apply Byte.to_of_N in Hb. rewrite Hb. lia.
  - apply Byte.of_N_None_iff in Hb. lia.
Qed.

Lemma le_bytes_length (width : nat) :
  forall v : Z, List.length (le_bytes width v) = width.
Proof.
  induction width as [|w IH]; intros v; simpl; [reflexivity|].
  rewrite IH. reflexivity.
Qed.

Lemma le_unsigned_le_bytes (width : nat) :
  forall v : Z, le_unsigned (le_bytes width v) = v mod 256 ^ Z.of_nat width.
Proof.
  induction width as [|w IH]; intros v.
  - simpl. rewrite Z.mod_1_r. reflexivity.
  - change (le_bytes (S w) v)
      with (byte_of_Z (v mod 256) :: le_bytes w (v / 256)).
    change (le_unsigned (byte_of_Z (v mod 256) :: le_bytes w (v / 256)))
      with (byte_val (byte_of_Z (v mod 256))
            + 256 * le_unsigned (le_bytes w (v / 256))).
    rewrite IH.
    rewrite byte_val_of_Z by (apply Z.mod_pos_bound; lia).
    replace (Z.of_nat (S w)) with (1 + Z.of_nat w) by lia.
    rewrite Z.pow_add_r by lia. change (256 ^ 1) with 256.
    rewrite Z.rem_mul_r by (try apply Z.pow_pos_nonneg; lia).
    reflexivity.
Qed.

Lemma to_signed_mod (bits val : Z) :
  0 < bits -> - 2 ^ (bits - 1) <= val < 2 ^ (bits - 1) ->
  to_signed bits (val mod 2 ^ bits) = val.
Proof.
  intros Hbits Hval. unfold to_signed.
  assert (Hpow : 2 ^ bits = 2 * 2 ^ (bits - 1)).
  { replace bits with (1 + (bits - 1)) at 1 by lia.
    rewrite Z.pow_add_r by lia. reflexivity. }
  set (H := 2 ^ (bits - 1)) in *.
  destruct (Z.le_gt_cases 0 val) as [Hpos|Hneg].
  - rewrite Z.mod_small by lia.
    destruct (Z.ltb_spec val H); lia.
  - replace (val mod 2 ^ bits) with (val + 2 ^ bits).
    + destruct (Z.ltb_spec (val + 2 ^ bits) H); lia.
    + apply Z.mod_unique with (q := -1); lia.
Qed.

(** The bytes an encoder appended, read back in place. *)
Lemma field_app (b e rest : bytes) :
  field ((b ++ e) ++ rest) (len b) (len e) = e.
Proof.
  unfold field, len. rewrite !Nat2Z.id. rewrite <- app_assoc.
  rewrite skipn_app, skipn_all, Nat.sub_diag. simpl.
  rewrite firstn_app, firstn_all, Nat.sub_diag. simpl. apply app_nil_r.
Qed.

Lemma len_app {A : Type} (a b : list A) : len (a ++ b) = len a + len b.
Proof. unfold len. rewrite length_app. lia. Qed.

Lemma struct_pack_ok (bits : Z) (msg : string) (val : Z) :
  0 < bits <= 64 -> - 2 ^ (bits - 1) <= val < 2 ^ (bits - 1) ->
  struct_pack bits msg val
  = Ok (le_bytes (Z.to_nat (bits / 8)) (val mod 2 ^ bits)).
Proof.
  intros Hbits Hval. unfold struct_pack.
  assert (Hmono : 2 ^ (bits - 1) <= 2 ^ 63)
    by (apply Z.pow_le_mono_r; lia).
  destruct (Z.ltb_spec val (- 2 ^ 63)); [lia|].
  destruct (Z.leb_spec (2 ^ 63) val); [lia|]. simpl.
  destruct (Z.ltb_spec val (- 2 ^ (bits - 1))); [lia|].
  destruct (Z.leb_spec (2 ^ (bits - 1)) val); [lia|]. reflexivity.
Qed.

Lemma struct_pack_raises (bits : Z) (msg : string) (val : Z) :
  ~ (- 2 ^ (bits - 1) <= val < 2 ^ (bits - 1)) ->
  exists text, struct_pack bits msg val = Raise (StructError text).
Proof.
  intros Hval. unfold struct_pack.
  destruct ((val <? - 2 ^ 63) || (2 ^ 63 <=? val)); [eexists; reflexivity|].
  destruct (Z.ltb_spec val (- 2 ^ (bits - 1))); simpl;
    [eexists; reflexivity|].
  destruct (Z.leb_spec (2 ^ (bits - 1)) val); [eexists; reflexivity|lia].
Qed.

Lemma encode_le_i16_round_trip (b rest : bytes) (val : Z) :
  is_i16 val ->
  exists packed,
    encode_le_i16 b val = Ok (b ++ packed) /\ len packed = 2
    /\ parse_le_i16 ((b ++ packed) ++ rest) (len b) = Ok (val, len b + 2).
Proof.
  intros Hval. unfold is_i16 in Hval. unfold encode_le_i16.
  rewrite (struct_pack_ok 16) by (change (2 ^ (16 - 1)) with 32768; lia).
  change (Z.to_nat (16 / 8)) with 2%nat.
  set (packed := le_bytes 2 (val mod 2 ^ 16)).
  assert (Hlen : len packed = 2)
    by (unfold len, packed; rewrite le_bytes_length; reflexivity).
  exists packed. split; [reflexivity|]. split; [exact Hlen|].
  rewrite parse_le_i16_reader. pose proof (len_nonneg b) as Hb.
  pose proof (len_nonneg rest) as Hr.
  rewrite int_reader_ok by (rewrite ?len_app; lia).
  rewrite <- Hlen at 1. rewrite field_app. unfold packed.
  rewrite le_unsigned_le_bytes. change (256 ^ Z.of_nat 2) with (2 ^ 16).
  rewrite Z.mod_mod by (change (2 ^ 16) with 65536; lia).
  rewrite to_signed_mod by (change (2 ^ (16 - 1)) with 32768; lia).
  reflexivity.
Qed.

Lemma encode_le_i32_round_trip (b rest : bytes) (val : Z) :
  is_i32 val ->
  exists packed,
    encode_le_i32 b val = Ok (b ++ packed) /\ len packed = 4
    /\ parse_le_i32 ((b ++ packed) ++ rest) (len b) = Ok (val, len b + 4).
Proof.
  intros Hval. unfold is_i32 in Hval. unfold encode_le_i32.
  rewrite (struct_pack_ok 32) by (change (2 ^ (32 - 1)) with 2147483648; lia).
  change (Z.to_nat (32 / 8)) with 4%nat.
  set (packed := le_bytes 4 (val mod 2 ^ 32)).
  assert (Hlen : len packed = 4)
    by (unfold len, packed; rewrite le_bytes_length; reflexivity).
  exists packed. split; [reflexivity|]. split; [exact Hlen|].
  rewrite parse_le_i32_reader. pose proof (len_nonneg b) as Hb.
  pose proof (len_nonneg rest) as Hr.
  rewrite int_reader_ok by (rewrite ?len_app; lia).
  rewrite <- Hlen at 1. rewrite field_app. unfold packed.
  rewrite le_unsigned_le_bytes. change (256 ^ Z.of_nat 4) with (2 ^ 32).
  rewrite Z.mod_mod by (change (2 ^ 32) with 4294967296; lia).
  rewrite to_signed_mod by (change (2 ^ (32 - 1)) with 2147483648; lia).
  reflexivity.
Qed.

(** X11.  [encode_le_i16] and [encode_le_i32] append two and four bytes to
    the buffer for a value in the range of the format, and the matching
    reader, placed where the encoder started writing, returns that value and
    the cursor just past it, whatever follows in the buffer.  A value
    outside the range makes the encoder raise [struct.error]. *)
Theorem integer_round_trip (b rest : bytes) (val : Z) :
  (is_i16 val ->
   exists packed,
     encode_le_i16 b val = Ok (b ++ packed) /\ len packed = 2
     /\ parse_le_i16 ((b ++ packed) ++ rest) (len b) = Ok (val, len b + 2))
  /\ (is_i32 val ->
      exists packed,
        encode_le_i32 b val = Ok (b ++ packed) /\ len packed = 4
        /\ parse_le_i32 ((b ++ packed) ++ rest) (len b)
           = Ok (val, len b + 4))
  /\ (~ is_i16 val ->
      exists text, encode_le_i16 b val = Raise (StructError text))
  /\ (~ is_i32 val ->
      exists text, encode_le_i32 b val = Raise (StructError text)).
Proof.
  split; [apply encode_le_i16_round_trip|].
  split; [apply encode_le_i32_round_trip|].
  split; intros Hout.
  - unfold encode_le_i16.
    destruct (struct_pack_raises 16
                "short format requires -32768 <= number <= 32767" val)
      as [text ->]; [|eexists; reflexivity].
    change (2 ^ (16 - 1)) with 32768. unfold is_i16 in Hout. lia.
  - unfold encode_le_i32.
    destruct (struct_pack_raises 32
                "'i' format requires -2147483648 <= number <= 2147483647" val)
      as [text ->]; [|eexists; reflexivity].
    change (2 ^ (32 - 1)) with 2147483648. unfold is_i32 in Hout. lia.
Qed.

Lemma integer_round_trip_witness :
  (exists packed,
     encode_le_i16 [x4d] (-30) = Ok ([x4d] ++ packed) /\ len packed = 2
     /\ parse_le_i16 (([x4d] ++ packed) ++ [xff]) 1 = Ok (-30, 3))
  /\ exists text, encode_le_i16 [x4d] 40000 = Raise (StructError text).
Proof.
  split.
  - exact (proj1 (integer_round_trip [x4d] [xff] (-30))
             ltac:(unfold is_i16; lia)).
  - exact (proj1 (proj2 (proj2 (integer_round_trip [x4d] [xff] 40000)))
             ltac:(unfold is_i16; lia)).
Defined.

(** ** Strings *)

Ltac euclid := Z.to_euclidean_division_equations; lia.

Ltac zbool :=
  repeat
    (cbv beta iota;
     match goal with
     | |- context [?a <? ?b] =>
       destruct (Z.ltb_spec a b); try (exfalso; euclid)
     | |- context [?a =? ?b] =>
       destruct (Z.eqb_spec a b); try (exfalso; euclid)
     | |- context [?a <=? ?b] =>
       destruct (Z.leb_spec a b); try (exfalso; euclid)
     end).


Ltac name_bytes :=
  repeat match goal with
  | |- context [byte_of_Z ?z] =>
    lazymatch z with
    | _ + _ => let v := fresh "z" in remember z as v
    end
  end.

(** Decoding undoes the encoding of one character, whatever follows. *)
Lemma utf8_decode_encode_char (c : Z) (e r : bytes) :
  utf8_encode_char c = Some e ->
  utf8_decode (e ++ r) = option_map (cons c) (utf8_decode r).
Proof.
  unfold utf8_encode_char, in_range.
  destruct (Z.ltb_spec c 0); [discriminate|].
  destruct (Z.ltb_spec c 128).
  { intros [= <-]. cbn [app utf8_decode].
    rewrite byte_val_of_Z by lia. zbool. reflexivity. }
  destruct (Z.ltb_spec c 2048).
  { name_bytes. intros [= <-]. cbn [app utf8_decode]. unfold is_cont.
    rewrite !byte_val_of_Z by euclid. zbool. cbn [andb].
    f_equal. f_equal. euclid. }
  destruct (Z.leb_spec 55296 c); destruct (Z.leb_spec c 57343);
    cbn [andb]; try discriminate; try lia.
  all: destruct (Z.ltb_spec c 65536);
    [|destruct (Z.ltb_spec c 1114112); [|discriminate]].
  all: cbv beta iota; name_bytes; intros [= <-]; cbn [app utf8_decode];
    unfold is_cont, in_range; rewrite !byte_val_of_Z by euclid;
    zbool; cbn [andb]; try lia; f_equal; f_equal; euclid.
Qed.

Lemma utf8_round_trip (s : pystr) :
  forall encoded : bytes,
    utf8_encode s = Some encoded -> utf8_decode encoded = Some s.
Proof.
  induction s as [|c s' IH]; intros encoded; simpl.
  - intros [= <-]. reflexivity.
  - destruct (utf8_encode_char c) as [e|] eqn:He; [|discriminate].
    destruct (utf8_encode s') as [r|]; [|discriminate].
    intros [= <-]. rewrite (utf8_decode_encode_char _ _ _ He).
    rewrite (IH r eq_refl). reflexivity.
Qed.

Lemma byte_of_Z_nul (z : Z) : 0 <= z < 256 -> byte_of_Z z = x00 -> z = 0.
Proof.
  intros Hz Hb. rewrite <- (byte_val_of_Z z Hz), Hb. reflexivity.
Qed.

Lemma utf8_encode_char_no_nul (c : Z) (e : bytes) :
  utf8_encode_char c = Some e -> c <> 0 -> ~ In x00 e.
Proof.
  unfold utf8_encode_char, in_range. intros He Hc Hin.
  assert (Hbyte : forall z, 0 < z < 256 -> byte_of_Z z <> x00).
  { intros z Hz Heq. apply byte_of_Z_nul in Heq; lia. }
  revert He.
  destruct (Z.ltb_spec c 0); [discriminate|].
  destruct (Z.ltb_spec c 128).
  { intros [= <-]. destruct Hin as [Heq|[]]. revert Heq. apply Hbyte. lia. }
  destruct (Z.ltb_spec c 2048).
  { name_bytes. intros [= <-]. simpl in Hin.
    repeat destruct Hin as [Hin|Hin]; try contradiction;
      revert Hin; apply Hbyte; euclid. }
  destruct (Z.leb_spec 55296 c); destruct (Z.leb_spec c 57343);
    cbn [andb]; try discriminate; try lia.
  all: destruct (Z.ltb_spec c 65536);
    [|destruct (Z.ltb_spec c 1114112); [|discriminate]].
  all: cbv beta iota; name_bytes; intros [= <-]; simpl in Hin;
    repeat destruct Hin as [Hin|Hin]; try contradiction;
    revert Hin; apply Hbyte; euclid.
Qed.

Lemma utf8_encode_no_nul (s : pystr) :
  forall encoded : bytes,
    utf8_encode s = Some encoded -> ~ In 0 s -> ~ In x00 encoded.
Proof.
  induction s as [|c s' IH]; intros encoded; simpl.
  - intros [= <-] _ [].
  - destruct (utf8_encode_char c) as [e|] eqn:He; [|discriminate].
    destruct (utf8_encode s') as [r|]; [|discriminate].
    intros [= <-] Hs Hin. apply in_app_or in Hin. destruct Hin as [Hin|Hin].
    + apply (utf8_encode_char_no_nul _ _ He); [|exact Hin].
      intros ->. apply Hs. left. reflexivity.
    + apply (IH r eq_refl); [|exact Hin]. intros H0. apply Hs. right. exact H0.
Qed.

Lemma utf8_encode_app (s1 s2 : pystr) :
  forall encoded : bytes,
    utf8_encode (s1 ++ s2) = Some encoded ->
    exists e1 e2,
      utf8_encode s1 = Some e1 /\ utf8_encode s2 = Some e2
      /\ encoded = e1 ++ e2.
Proof.
  induction s1 as [|c s1' IH]; intros encoded; simpl.
  - intros H. exists [], encoded. auto.
  - destruct (utf8_encode_char c) as [e|]; [|discriminate].
    destruct (utf8_encode (s1' ++ s2)) as [r|]; [|discriminate].
    intros [= <-]. destruct (IH r eq_refl) as (e1 & e2 & -> & -> & ->).
    exists (e ++ e1), e2. rewrite app_assoc. auto.
Qed.

Lemma find_nul_from_app (e r : bytes) :
  forall i : Z, ~ In x00 e -> find_nul_from (e ++ x00 :: r) i = i + len e.
Proof.
  induction e as [|x e IH]; intros i Hnotin; simpl.
  - unfold len. simpl. lia.
  - destruct (Byte.eqb x x00) eqn:Hx.
    + apply Byte.byte_dec_bl in Hx. subst x. exfalso. apply Hnotin. now left.
    + rewrite IH by (intros H; apply Hnotin; now right).
      unfold len. simpl. lia.
Qed.

(** A string read back from where it was written: the chunk found is the
    run [e] that holds no NUL. *)
Lemma null_terminated_chunk_app (b e rest : bytes) :
  ~ In x00 e ->
  null_terminated_chunk ((b ++ e) ++ x00 :: rest) (len b)
  = Ok (e, len b + len e + 1).
Proof.
  intros Hnotin. unfold null_terminated_chunk, bytes_find_nul.
  pose proof (len_nonneg b) as Hb. pose proof (len_nonneg e) as He.
  pose proof (len_nonneg rest) as Hr.
  assert (Hlen : len ((b ++ e) ++ x00 :: rest) = len b + len e + 1 + len rest).
  { rewrite !len_app. unfold len. simpl. lia. }
  rewrite slice_index_id by lia.
  assert (Hskip : skipn (Z.to_nat (len b)) ((b ++ e) ++ x00 :: rest)
                  = e ++ x00 :: rest).
  { unfold len. rewrite Nat2Z.id, <- app_assoc, skipn_app, skipn_all,
      Nat.sub_diag. reflexivity. }
  rewrite Hskip, find_nul_from_app by exact Hnotin.
  destruct (Z.eqb_spec (len b + len e) (-1)); [lia|].
  f_equal. f_equal.
  rewrite py_slice_prefix by lia. rewrite Hskip.
  replace (Z.to_nat (len b + len e - len b))
    with (List.length e + 0)%nat by (unfold len; lia).
  rewrite firstn_app_2. simpl. apply app_nil_r.
Qed.

Lemma in_split_first (s : pystr) :
  In 0 s -> exists s1 s2, s = s1 ++ 0 :: s2 /\ ~ In 0 s1.
Proof.
  induction s as [|c s' IH]; [intros []|].
  intros Hin. destruct (Z.eq_dec c 0) as [->|Hc].
  - exists [], s'. split; [reflexivity|intros []].
  - destruct Hin as [Heq|Hin]; [contradiction|].
    destruct (IH Hin) as (s1 & s2 & -> & Hnotin).
    exists (c :: s1), s2. split; [reflexivity|].
    intros [Heq|H1]; [congruence|contradiction].
Qed.

(** X12.  A string [encode_null_terminated_str] appended to a buffer is read
    back by [null_terminated_str] from the place it was written, with the
    cursor just past its NUL, whatever follows in the buffer, provided the
    string holds no U+0000.  A string that holds one does not survive: the
    reader returns only the characters before the first U+0000. *)
Theorem null_terminated_round_trip (b rest : bytes) (s : pystr) (b' : bytes) :
  encode_null_terminated_str b s = Ok b' ->
  (~ In 0 s ->
   null_terminated_str (b' ++ rest) (len b) = Ok (s, len b'))
  /\ (In 0 s ->
      exists s1 s2 offset',
        s = s1 ++ 0 :: s2 /\ ~ In 0 s1
        /\ null_terminated_str (b' ++ rest) (len b) = Ok (s1, offset')
        /\ offset' <= len b').
Proof.
  unfold encode_null_terminated_str.
  destruct (utf8_encode s) as [encoded|] eqn:Henc; [|discriminate].
  intros [= <-]. split.
  - intros Hs. unfold null_terminated_str.
    replace (((b ++ encoded) ++ [x00]) ++ rest)
      with ((b ++ encoded) ++ x00 :: rest)
      by (rewrite <- !app_assoc; reflexivity).
    rewrite null_terminated_chunk_app
      by (apply (utf8_encode_no_nul s); assumption).
    rewrite (utf8_round_trip s encoded Henc).
    f_equal. f_equal. rewrite !len_app. unfold len. simpl. lia.
  - intros Hs. destruct (in_split_first s Hs) as (s1 & s2 & -> & Hnotin).
    destruct (utf8_encode_app _ _ _ Henc) as (e1 & e2 & He1 & He2 & ->).
    simpl in He2. destruct (utf8_encode s2) as [r2|]; [|discriminate].
    change (utf8_encode_char 0) with (Some [x00]) in He2.
    injection He2 as <-.
    exists s1, s2, (len b + len e1 + 1). split; [reflexivity|].
    split; [exact Hnotin|]. split.
    + unfold null_terminated_str.
      match goal with
      | |- context [null_terminated_chunk ?d _] =>
        replace d with ((b ++ e1) ++ x00 :: (r2 ++ [x00] ++ rest))
          by (rewrite <- !app_assoc; reflexivity)
      end.
      rewrite null_terminated_chunk_app
        by (apply (utf8_encode_no_nul s1); assumption).
      rewrite (utf8_round_trip s1 e1 He1). reflexivity.
    + rewrite !len_app. pose proof (len_nonneg r2). unfold len. simpl.
      unfold len in *. lia.
Qed.

Lemma null_terminated_round_trip_witness :
  null_terminated_str
    (([x4d] ++ [x63; xc3; xa9; x00]) ++ [xff]) 1 = Ok ([99; 233], 5).
Proof.
  exact (proj1 (null_terminated_round_trip [x4d] [xff] [99; 233]
                  ([x4d] ++ [x63; xc3; xa9; x00]) eq_refl)
           ltac:(simpl; intros [H|[H|[]]]; discriminate)).
Defined.

(** ** Fixed-length strings written and read back *)

Lemma encode_chars_ascii (s : pystr) :
  forall acc : bytes,
    all_ascii s -> encode_chars s acc = Ok (acc ++ map byte_of_Z s).
Proof.
  induction s as [|c s' IH]; intros acc Hs; simpl.
  - rewrite app_nil_r. reflexivity.
  - inversion Hs as [|? ? Hc Hs']; subst.
    unfold utf8_encode_char.
    destruct (Z.ltb_spec c 0); [lia|]. destruct (Z.ltb_spec c 128); [|lia].
    simpl. rewrite (IH _ Hs'). rewrite <- app_assoc. reflexivity.
Qed.

Lemma utf8_decode_ascii (s : pystr) :
  all_ascii s -> utf8_decode (map byte_of_Z s) = Some s.
Proof.
  induction 1 as [|c s' Hc Hs IH]; [reflexivity|].
  cbn [map utf8_decode]. rewrite byte_val_of_Z by lia.
  destruct (Z.ltb_spec c 128); [|lia]. rewrite IH. reflexivity.
Qed.

(** X13.  For a string of ASCII characters [encode_fixed_length_str] appends
    exactly one byte per character, whatever [length] it is given (it
    neither pads nor truncates), and [fixed_length_str], asked for that many
    bytes at the place they were written, returns the string and the cursor
    just past it. *)
Theorem fixed_length_ascii_round_trip (b rest : bytes) (s : pystr)
    (length : Z) :
  all_ascii s ->
  exists written,
    encode_fixed_length_str b s length = Ok (b ++ written)
    /\ len written = len s
    /\ fixed_length_str (len s) ((b ++ written) ++ rest) (len b)
       = Ok (s, len b + len s).
Proof.
  intros Hs. exists (map byte_of_Z s).
  assert (Hlen : len (map byte_of_Z s) = len s)
    by (unfold len; rewrite length_map; reflexivity).
  split; [|split; [exact Hlen|]].
  - unfold encode_fixed_length_str. rewrite encode_chars_ascii by exact Hs.
    reflexivity.
  - unfold fixed_length_str.
    pose proof (len_nonneg b) as Hb. pose proof (len_nonneg s) as Hl.
    pose proof (len_nonneg rest) as Hr.
    destruct (Z.ltb_spec (len ((b ++ map byte_of_Z s) ++ rest))
                (len b + len s)) as [Hshort|_].
    { rewrite !len_app in Hshort. lia. }
    rewrite py_slice_field by (rewrite ?len_app; lia).
    rewrite <- Hlen at 1. rewrite field_app.
    rewrite utf8_decode_ascii by exact Hs. reflexivity.
Qed.

Lemma fixed_length_ascii_round_trip_witness :
  exists written,
    encode_fixed_length_str [x4d] (str_lit "km") 8 = Ok ([x4d] ++ written)
    /\ len written = 2
    /\ fixed_length_str 2 (([x4d] ++ written) ++ [xff]) 1
       = Ok (str_lit "km", 3).
Proof.
  exact (fixed_length_ascii_round_trip [x4d] [xff] (str_lit "km") 8
           ltac:(repeat constructor; lia)).
Defined.

(* ------------------------------------------------------------------ *)
(** * Writing a directory and reading it back *)

Lemma sum_sizes_app (a b : list BlockInfo) :
  sum_sizes (a ++ b) = sum_sizes a + sum_sizes b.
Proof. induction a as [|x a IH]; simpl; lia. Qed.

Lemma sum_sizes_entry_bound (infos : list BlockInfo) :
  Forall (fun bi => 0 <= size bi) infos ->
  forall (k : nat) (bi : BlockInfo),
    nth_error infos k = Some bi ->
    0 <= sum_sizes (firstn k infos)
    /\ sum_sizes (firstn k infos) + size bi <= sum_sizes infos.
Proof.
  induction 1 as [|b0 rest Hb0 Hrest IH]; intros k bi Hk.
  - destruct k; discriminate.
  - destruct k as [|k]; simpl in *.
    + injection Hk as ->. pose proof (sum_sizes_nonneg rest Hrest). lia.
    + destruct (IH k bi Hk). lia.
Qed.

(** The positive half of the directory walk, for an entry at index [k]. *)
Lemma extract_entry (data : bytes) (map_blk : MapBlock) (k : nat)
    (bi : BlockInfo) :
  NoDup (map identifier (block_info map_blk)) ->
  Forall (fun b => 0 <= size b) (block_info map_blk) ->
  nth_error (block_info map_blk) k = Some bi ->
  0 <= entry_start map_blk k ->
  entry_start map_blk k + size bi <= len data ->
  extract_block_data data (identifier bi) map_blk
  = Ok (field data (entry_start map_blk k) (size bi)).
Proof.
  intros Hnd Hpos Hk Hstart Hend.
  assert (Hbi : 0 <= size bi).
  { rewrite Forall_forall in Hpos. apply Hpos. eapply nth_error_In; eauto. }
  assert (Hpre : Forall (fun b => 0 <= size b) (firstn k (block_info map_blk))).
  { rewrite <- (firstn_skipn k (block_info map_blk)) in Hpos.
    apply Forall_app in Hpos. tauto. }
  unfold extract_block_data.
  rewrite (walk_to_entry _ k bi _ _ Hnd Hpre Hk).
  fold (entry_start map_blk k).
  destruct (Z.ltb_spec (len data) (entry_start map_blk k)); [lia|].
  destruct (Z.ltb_spec (len data) (entry_start map_blk k + size bi)); [lia|].
  simpl. f_equal. apply py_slice_field; lia.
Qed.

(** A run of the block area, seen from the whole file. *)
Lemma field_inner (header b tail : bytes) (o w : Z) :
  0 <= o -> 0 <= w -> o + w <= len b ->
  field (header ++ b ++ tail) (len header + o) w = field b o w.
Proof.
  intros Ho Hw Hle. unfold field, len in *.
  replace (Z.to_nat (Z.of_nat (List.length header) + o))
    with (List.length header + Z.to_nat o)%nat by lia.
  rewrite skipn_app.
  rewrite (skipn_all2 header) by lia.
  replace (List.length header + Z.to_nat o - List.length header)%nat
    with (Z.to_nat o) by lia.
  simpl. rewrite skipn_app, firstn_app.
  replace (Z.to_nat w - List.length (skipn (Z.to_nat o) b))%nat with 0%nat
    by (rewrite length_skipn; lia).
  rewrite firstn_O, app_nil_r. reflexivity.
Qed.

Lemma field_app_last (header b e : bytes) :
  field (header ++ b ++ e) (len header + len b) (len e) = e.
Proof.
  rewrite app_assoc. rewrite <- len_app.
  rewrite <- (app_nil_r ((header ++ b) ++ e)). apply field_app.
Qed.

Lemma find_block_info_entry (block_id : pystr) (infos : list BlockInfo)
    (found : BlockInfo) :
  find_block_info block_id infos = Some found ->
  In found infos /\ identifier found = block_id.
Proof.
  induction infos as [|x rest IH]; simpl; [discriminate|].
  destruct (pystr_eqb (identifier x) block_id) eqn:Hx.
  - intros [= <-]. apply pystr_eqb_eq in Hx. auto.
  - intros H. destruct (IH H). auto.
Qed.

Lemma add_block_some {B : Type} (b : bytes) (m nm : MapBlock) (x : B)
    (gen_block_func : unit -> result bytes) (block_id : pystr)
    (b' : bytes) (nm' : MapBlock) :
  add_block b m nm (Some x) gen_block_func block_id = Ok (b', nm') ->
  exists block_bytes found,
    gen_block_func tt = Ok block_bytes
    /\ find_block_info block_id (block_info m) = Some found
    /\ b' = b ++ block_bytes
    /\ block_info nm'
       = block_info nm ++ [ {| identifier := block_id;
                               bi_revision_number := bi_revision_number found;
                               size := len block_bytes |} ]
    /\ block_count nm' = block_count nm + 1
    /\ block_size nm' = block_size nm + (len block_id + 1 + 2 + 4).
Proof.
  unfold add_block.
  destruct (gen_block_func tt) as [block_bytes|e];
    [|destruct (is_Exception e); discriminate].
  destruct (find_block_info block_id (block_info m)) as [found|];
    [|discriminate].
  intros [= <- <-]. exists block_bytes, found. simpl. repeat split.
Qed.

(** X14.  [add_block] keeps the books straight.  If the entry count is one
    more than the entries listed, every listed size is nonnegative and the
    sizes add up to the bytes written so far, the same holds after the call;
    the bytes already written are never changed, only extended; and with
    [block] being [None] neither the buffer nor the map changes at all. *)
Theorem add_block_bookkeeping {B : Type} (b : bytes) (m nm : MapBlock)
    (block : option B) (gen_block_func : unit -> result bytes)
    (block_id : pystr) (b' : bytes) (nm' : MapBlock) :
  consistent b nm ->
  add_block b m nm block gen_block_func block_id = Ok (b', nm') ->
  consistent b' nm'
  /\ (exists block_bytes, b' = b ++ block_bytes)
  /\ firstn (List.length (block_info nm)) (block_info nm') = block_info nm
  /\ (block = None -> b' = b /\ nm' = nm).
Proof.
  intros (Hcount & Hpos & Hsum) Hadd. destruct block as [x|].
  - destruct (add_block_some _ _ _ _ _ _ _ _ Hadd)
      as (block_bytes & found & _ & _ & -> & Hinfo & Hc & _).
    split; [|split; [|split]].
    + unfold consistent. rewrite Hinfo, Hc. split; [|split].
      * rewrite len_app.
        match goal with
        | |- context [len [?e]] => change (len [e]) with 1
        end. lia.
      * apply Forall_app. split; [exact Hpos|].
        constructor; [simpl; apply len_nonneg|constructor].
      * rewrite len_app, sum_sizes_app. simpl. lia.
    + exists block_bytes. reflexivity.
    + rewrite Hinfo, firstn_app, firstn_all, Nat.sub_diag. simpl.
      apply app_nil_r.
    + discriminate.
  - simpl in Hadd. injection Hadd as <- <-.
    split; [repeat split; assumption|].
    split; [exists []; symmetry; apply app_nil_r|].
    split; [apply firstn_all|auto].
Qed.

Lemma add_block_bookkeeping_witness :
  consistent [] new_map
  /\ consistent [x01; x02; x03]
       {| revision_number := 200; block_size := 28; block_count := 2;
          block_info :=
            [ {| identifier := str_lit "GenParams";
                 bi_revision_number := 201; size := 3 |} ] |}.
Proof.
  assert (H0 : consistent [] new_map).
  { repeat split; [constructor]. }
  split; [exact H0|].
  exact (proj1 (add_block_bookkeeping [] source_map new_map (Some tt)
                  (gen_bytes [x01; x02; x03]) (str_lit "GenParams")
                  _ _ H0 eq_refl)).
Defined.

(** X15.  What [add_block] writes, [extract_block_data] finds.  Let the
    books be straight and the new map list pairwise distinct identifiers,
    [block_id] not among them.  After [add_block] has appended a block, in
    any file made of a Map area of [block_size] bytes followed by the bytes
    written, asking for [block_id] returns exactly the bytes the generator
    produced, and asking for an entry listed before returns the same bytes
    of the block area as before the call. *)
Theorem add_block_then_extract {B : Type} (header b : bytes)
    (m nm : MapBlock) (x : B) (gen_block_func : unit -> result bytes)
    (block_id : pystr) (b' : bytes) (nm' : MapBlock) :
  consistent b nm ->
  NoDup (identifiers nm) ->
  ~ In block_id (identifiers nm) ->
  add_block b m nm (Some x) gen_block_func block_id = Ok (b', nm') ->
  len header = block_size nm' ->
  extract_block_data (header ++ b') block_id nm' = gen_block_func tt
  /\ forall (k : nat) (bi : BlockInfo),
       nth_error (block_info nm) k = Some bi ->
       extract_block_data (header ++ b') (identifier bi) nm'
       = Ok (field b (sum_sizes (firstn k (block_info nm))) (size bi)).
Proof.
  unfold identifiers.
  intros (Hcount & Hpos & Hsum) Hnd Hnew Hadd Hheader.
  destruct (add_block_some _ _ _ _ _ _ _ _ Hadd)
    as (block_bytes & found & Hgen & _ & -> & Hinfo & _ & _).
  set (new_block_info :=
         {| identifier := block_id;
            bi_revision_number := bi_revision_number found;
            size := len block_bytes |}) in *.
  assert (Hnd' : NoDup (map identifier (block_info nm'))).
  { rewrite Hinfo, map_app. simpl.
    apply NoDup_app; [exact Hnd|repeat constructor; intros []|].
    intros id Hin [<-|[]]. exact (Hnew Hin). }
  assert (Hpos' : Forall (fun bi => 0 <= size bi) (block_info nm')).
  { rewrite Hinfo. apply Forall_app. split; [exact Hpos|].
    constructor; [simpl; apply len_nonneg|constructor]. }
  pose proof (len_nonneg header) as Hh. pose proof (len_nonneg b) as Hb.
  pose proof (len_nonneg block_bytes) as Hbb.
  split.
  - rewrite Hgen.
    assert (Hk : nth_error (block_info nm') (List.length (block_info nm))
                 = Some new_block_info).
    { rewrite Hinfo, nth_error_app2, Nat.sub_diag by lia. reflexivity. }
    assert (Hstart : entry_start nm' (List.length (block_info nm))
                     = len header + len b).
    { unfold entry_start. rewrite Hinfo, firstn_app, firstn_all, Nat.sub_diag.
      simpl. rewrite app_nil_r. lia. }
    change block_id with (identifier new_block_info).
    rewrite (extract_entry _ nm' _ _ Hnd' Hpos' Hk)
      by (rewrite Hstart; simpl; rewrite ?len_app; lia).
    rewrite Hstart. simpl. f_equal. apply field_app_last.
  - intros k bi Hk.
    destruct (sum_sizes_entry_bound _ Hpos k bi Hk) as [Hlo Hhi].
    assert (Hlt : (k < List.length (block_info nm))%nat)
      by (apply nth_error_Some; congruence).
    assert (Hk' : nth_error (block_info nm') k = Some bi).
    { rewrite Hinfo, nth_error_app1 by exact Hlt. exact Hk. }
    assert (Hstart : entry_start nm' k
                     = len header + sum_sizes (firstn k (block_info nm))).
    { unfold entry_start. rewrite Hinfo, firstn_app.
      replace (k - List.length (block_info nm))%nat with 0%nat by lia.
      simpl. rewrite app_nil_r. lia. }
    assert (Hbi : 0 <= size bi).
    { rewrite Forall_forall in Hpos. apply Hpos. eapply nth_error_In; eauto. }
    rewrite (extract_entry _ nm' _ _ Hnd' Hpos' Hk')
      by (rewrite Hstart; rewrite ?len_app; lia).
    rewrite Hstart. f_equal. apply field_inner; lia.
Qed.

Lemma add_block_then_extract_witness :
  extract_block_data
    (le_bytes 28 0 ++ [x01; x02; x03]) (str_lit "GenParams")
    {| revision_number := 200; block_size := 28; block_count := 2;
       block_info :=
         [ {| identifier := str_lit "GenParams";
              bi_revision_number := 201; size := 3 |} ] |}
  = Ok [x01; x02; x03].
Proof.
  assert (H0 : consistent [] new_map).
  { repeat split; [constructor]. }
  exact (proj1 (add_block_then_extract (le_bytes 28 0) [] source_map new_map
                  tt (gen_bytes [x01; x02; x03]) (str_lit "GenParams") _ _
                  H0 (NoDup_nil _) (fun H => H) eq_refl eq_refl)).
Defined.

(** ** An identifier the directory does not list *)

Lemma last_default {A : Type} (l : list A) :
  forall a d d' : A, last (a :: l) d = last (a :: l) d'.
Proof.
  induction l as [|b l IH]; intros a d d'; [reflexivity|].
  change (last (a :: b :: l) d) with (last (b :: l) d).
  change (last (a :: b :: l) d') with (last (b :: l) d').
  apply IH.
Qed.

Lemma last_cons {A : Type} (l : list A) (a d : A) :
  last (a :: l) d = last l a.
Proof.
  destruct l as [|b l]; [reflexivity|].
  change (last (a :: b :: l) d) with (last (b :: l) d). apply last_default.
Qed.

Lemma walk_unlisted (header : pystr) (infos : list BlockInfo) :
  forall offset length : Z,
    ~ In header (map identifier infos) ->
    Forall (fun bi => 0 <= size bi) infos ->
    walk_block_info header infos offset length
    = Ok (offset + sum_sizes infos, last (map size infos) length).
Proof.
  induction infos as [|b0 rest IH]; intros offset length Hnot Hpos.
  - simpl. f_equal. f_equal. lia.
  - inversion Hpos as [|? ? Hb0 Hrest]; subst.
    cbn [walk_block_info].
    rewrite pystr_eqb_neq by (intros Heq; apply Hnot; left; exact Heq).
    destruct (Z.ltb_spec (offset + size b0) offset); [lia|].
    rewrite IH; [|intros Hin; apply Hnot; right; exact Hin|exact Hrest].
    cbn [map sum_sizes]. rewrite last_cons. f_equal. f_equal. lia.
Qed.

Lemma last_size_nonneg (infos : list BlockInfo) :
  Forall (fun bi => 0 <= size bi) infos ->
  forall d : Z, 0 <= d -> 0 <= last (map size infos) d.
Proof.
  induction 1 as [|b0 rest Hb0 Hrest IH]; intros d Hd; [exact Hd|].
  cbn [map]. rewrite last_cons. apply IH. exact Hb0.
Qed.

(** X16.  [extract_block_data] has no error for an identifier the directory
    does not list.  With nonnegative sizes and a nonnegative [block_size]
    the walk runs off the end of the directory and the function answers
    with the bytes that follow the last listed block, as many as the last
    entry's size (none for an empty directory); it raises the position error
    when the buffer does not hold that many. *)
Theorem extract_unlisted (data : bytes) (header : pystr) (map_blk : MapBlock) :
  ~ In header (identifiers map_blk) ->
  Forall (fun bi => 0 <= size bi) (block_info map_blk) ->
  0 <= block_size map_blk ->
  (blocks_end map_blk + last_size (block_info map_blk) <= len data ->
   extract_block_data data header map_blk
   = Ok (field data (blocks_end map_blk) (last_size (block_info map_blk))))
  /\ (len data < blocks_end map_blk + last_size (block_info map_blk) ->
      extract_block_data data header map_blk
      = Raise (ParseError MSG_POSITION)).
Proof.
  unfold identifiers, blocks_end, last_size. intros Hnot Hpos Hbs.
  unfold extract_block_data. rewrite walk_unlisted by assumption.
  pose proof (sum_sizes_nonneg _ Hpos) as Hsum.
  pose proof (last_size_nonneg _ Hpos 0 ltac:(lia)) as Hlast.
  split.
  - intros Hfit.
    match goal with
    | |- context [(?a <? ?b) || _] => destruct (Z.ltb_spec a b); [lia|]
    end.
    match goal with
    | |- context [?a <? ?b] => destruct (Z.ltb_spec a b); [lia|]
    end.
    simpl. f_equal. apply py_slice_field; lia.
  - intros Hshort.
    match goal with
    | |- context [_ || (?a <? ?b)] => destruct (Z.ltb_spec a b); [|lia]
    end.
    rewrite orb_true_r. reflexivity.
Qed.

Lemma extract_unlisted_witness :
  extract_block_data demo_buffer (str_lit "DataPts") demo_map
  = Raise (ParseError MSG_POSITION).
Proof.
  exact (proj2 (extract_unlisted demo_buffer (str_lit "DataPts") demo_map
                  ltac:(simpl; intuition discriminate)
                  ltac:(repeat constructor; simpl; lia)
                  ltac:(simpl; lia))
           ltac:(vm_compute; reflexivity)).
Defined.

(* ------------------------------------------------------------------ *)
(** * The classification loop *)

Lemma spaced_snoc (hits : list float) :
  forall prev d : float,
    spaced prev hits ->
    PrimFloat.leb 10%float (PrimFloat.sub d (last hits prev)) = true ->
    spaced prev (hits ++ [d]).
Proof.
  induction hits as [|h rest IH]; intros prev d Hsp Hd.
  - simpl in *. auto.
  - destruct Hsp as [Hh Hrest]. rewrite last_cons in Hd.
    cbn [app spaced]. split; [exact Hh|]. apply IH; assumption.
Qed.

Lemma last_snoc {A : Type} (l : list A) (a d : A) : last (l ++ [a]) d = a.
Proof. apply last_last. Qed.

(** What one iteration does to the state: nothing, or one distance added to
    exactly one of the two lists. *)
Lemma detect_step_cases slope curve spacing_trimmed i st st' :
  detect_step slope curve spacing_trimmed i st = Ok st' ->
  st' = st
  \/ (exists d,
        rising_at slope spacing_trimmed d
        /\ PrimFloat.leb 10%float (PrimFloat.sub d (last_detected_point st))
           = true
        /\ st' = {| last_detected_point := d;
                    back_reflections := back_reflections st;
                    fiber_issues := fiber_issues st ++ [d] |})
  \/ (exists d,
        falling_at slope curve spacing_trimmed d
        /\ st' = {| last_detected_point := last_detected_point st;
                    back_reflections := back_reflections st ++ [d];
                    fiber_issues := fiber_issues st |}).
Proof.
  unfold detect_step.
  destruct (index slope i) as [drop_amount|e] eqn:Hslope; [|discriminate].
  assert (Hback :
    (if PrimFloat.ltb drop_amount (-0.005)%float then
       match index curve i with
       | Raise e => Raise e
       | Ok c =>
         if PrimFloat.ltb c 0%float then
           match index spacing_trimmed i with
           | Raise e => Raise e
           | Ok d =>
             Ok {| last_detected_point := last_detected_point st;
                   back_reflections := back_reflections st ++ [d];
                   fiber_issues := fiber_issues st |}
           end
         else Ok st
       end
     else Ok st) = Ok st' ->
    st' = st
    \/ (exists d,
          rising_at slope spacing_trimmed d
          /\ PrimFloat.leb 10%float
               (PrimFloat.sub d (last_detected_point st)) = true
          /\ st' = {| last_detected_point := d;
                      back_reflections := back_reflections st;
                      fiber_issues := fiber_issues st ++ [d] |})
    \/ (exists d,
          falling_at slope curve spacing_trimmed d
          /\ st' = {| last_detected_point := last_detected_point st;
                      back_reflections := back_reflections st ++ [d];
                      fiber_issues := fiber_issues st |})).
  { destruct (PrimFloat.ltb drop_amount (-0.005)%float) eqn:Hdrop;
      [|intros [= <-]; auto].
    destruct (index curve i) as [c|e] eqn:Hcurve; [|discriminate].
    destruct (PrimFloat.ltb c 0%float) eqn:Hc; [|intros [= <-]; auto].
    destruct (index spacing_trimmed i) as [d|e] eqn:Hd; [|discriminate].
    intros [= <-]. right. right. exists d. split; [|reflexivity].
    exists i, drop_amount, c. auto. }
  destruct (PrimFloat.leb 0.005%float drop_amount) eqn:Hrise;
    [|exact Hback].
  destruct (index spacing_trimmed i) as [d|e] eqn:Hd; [|discriminate].
  destruct (PrimFloat.leb 10%float
              (PrimFloat.sub d (last_detected_point st))) eqn:Hgap;
    [|exact Hback].
  intros [= <-]. right. left. exists d.
  split; [exists i, drop_amount; auto|]. split; [exact Hgap|reflexivity].
Qed.

Lemma detect_loop_spaced slope curve spacing_trimmed indices :
  forall (prev : float) (st st' : detect_state),
    spaced prev (fiber_issues st) ->
    last_detected_point st = last (fiber_issues st) prev ->
    detect_loop slope curve spacing_trimmed indices st = Ok st' ->
    spaced prev (fiber_issues st')
    /\ last_detected_point st' = last (fiber_issues st') prev.
Proof.
  induction indices as [|i rest IH]; intros prev st st' Hsp Hlast; simpl.
  - intros [= <-]. auto.
  - destruct (detect_step slope curve spacing_trimmed i st) as [st1|e] eqn:H1;
      [|discriminate].
    apply IH.
    + destruct (detect_step_cases _ _ _ _ _ _ H1)
        as [->|[(d & _ & Hgap & ->)|(d & _ & ->)]]; simpl;
        [exact Hsp| |exact Hsp].
      apply spaced_snoc; [exact Hsp|]. rewrite <- Hlast. exact Hgap.
    + destruct (detect_step_cases _ _ _ _ _ _ H1)
        as [->|[(d & _ & Hgap & ->)|(d & _ & ->)]]; simpl;
        [exact Hlast| |exact Hlast].
      symmetry. apply last_snoc.
Qed.

(** X17.  The fiber issues the classification loop records are spaced: each
    is at least [MIN_SPACING] metres (on float64, [d - prev >= 10]) past the
    one recorded before it, the first at least [MIN_SPACING] past
    [-MIN_SPACING]; and [last_detected_point] is always the last issue
    recorded. *)
Theorem fiber_issues_spaced (slope curve spacing_trimmed : list float)
    (indices : list nat) (st : detect_state) :
  detect_loop slope curve spacing_trimmed indices initial_state = Ok st ->
  spaced (-10)%float (fiber_issues st)
  /\ last_detected_point st = last (fiber_issues st) (-10)%float.
Proof.
  apply detect_loop_spaced; [exact I|reflexivity].
Qed.

Lemma fiber_issues_spaced_witness :
  spaced (-10)%float [5; 20]%float.
Proof.
  exact (proj1 (fiber_issues_spaced
                  [0; 0.01; 0.02; 0.03; -0.01]%float
                  [0; 0; 0; 0; -1]%float
                  [0; 5; 10; 20; 30]%float [1; 2; 3; 4]%nat
                  {| last_detected_point := 20%float;
                     back_reflections := [30%float];
                     fiber_issues := [5; 20]%float |}
                  ltac:(vm_compute; reflexivity))).
Defined.

Lemma detect_loop_classes slope curve spacing_trimmed indices :
  forall st st' : detect_state,
    Forall (rising_at slope spacing_trimmed) (fiber_issues st) ->
    Forall (falling_at slope curve spacing_trimmed) (back_reflections st) ->
    detect_loop slope curve spacing_trimmed indices st = Ok st' ->
    Forall (rising_at slope spacing_trimmed) (fiber_issues st')
    /\ Forall (falling_at slope curve spacing_trimmed) (back_reflections st')
    /\ (List.length (fiber_issues st') + List.length (back_reflections st')
        <= List.length (fiber_issues st) + List.length (back_reflections st)
           + List.length indices)%nat.
Proof.
  induction indices as [|i rest IH]; intros st st' Hfi Hbr; simpl.
  - intros [= <-]. repeat split; try assumption. lia.
  - destruct (detect_step slope curve spacing_trimmed i st) as [st1|e] eqn:H1;
      [|discriminate].
    intros Hloop.
    destruct (detect_step_cases _ _ _ _ _ _ H1)
      as [->|[(d & Hd & _ & ->)|(d & Hd & ->)]].
    + destruct (IH _ _ Hfi Hbr Hloop) as (H2 & H3 & H4).
      repeat split; try assumption. lia.
    + assert (Hfi' : Forall (rising_at slope spacing_trimmed)
                       (fiber_issues st ++ [d]))
        by (apply Forall_app; split;
            [exact Hfi|repeat constructor; exact Hd]).
      pose proof (fun Ha Hb => IH _ _ Ha Hb Hloop) as IH'. simpl in IH'.
      destruct (IH' Hfi' Hbr) as (H2 & H3 & H4).
      rewrite length_app in H4. simpl in H4.
      repeat split; try assumption. lia.
    + assert (Hbr' : Forall (falling_at slope curve spacing_trimmed)
                       (back_reflections st ++ [d]))
        by (apply Forall_app; split;
            [exact Hbr|repeat constructor; exact Hd]).
      pose proof (fun Ha Hb => IH _ _ Ha Hb Hloop) as IH'. simpl in IH'.
      destruct (IH' Hfi Hbr') as (H2 & H3 & H4).
      rewrite length_app in H4. simpl in H4.
      repeat split; try assumption. lia.
Qed.

(** X18.  The classification loop reports a distance as a fiber issue only
    for a sample whose slope is at least [0.005], and as a back reflection
    only for a sample whose slope is below [-0.005] and whose curvature is
    negative (so a sample with a NaN slope is never reported); and it
    records at most one distance per sample visited. *)
Theorem detection_classes (slope curve spacing_trimmed : list float)
    (indices : list nat) (st : detect_state) :
  detect_loop slope curve spacing_trimmed indices initial_state = Ok st ->
  Forall (rising_at slope spacing_trimmed) (fiber_issues st)
  /\ Forall (falling_at slope curve spacing_trimmed) (back_reflections st)
  /\ (List.length (fiber_issues st) + List.length (back_reflections st)
      <= List.length indices)%nat.
Proof.
  intros Hloop.
  destruct (detect_loop_classes slope curve spacing_trimmed indices
              initial_state st (Forall_nil _) (Forall_nil _) Hloop)
    as (H1 & H2 & H3).
  repeat split; assumption.
Qed.

Lemma detection_classes_witness :
  Forall (rising_at [0; 0.01; 0.02; 0.03; -0.01]%float
            [0; 5; 10; 20; 30]%float) [5; 20]%float
  /\ Forall (falling_at [0; 0.01; 0.02; 0.03; -0.01]%float
               [0; 0; 0; 0; -1]%float [0; 5; 10; 20; 30]%float)
       [30%float].
Proof.
  destruct (detection_classes
              [0; 0.01; 0.02; 0.03; -0.01]%float
              [0; 0; 0; 0; -1]%float
              [0; 5; 10; 20; 30]%float [1; 2; 3; 4]%nat
              {| last_detected_point := 20%float;
                 back_reflections := [30%float];
                 fiber_issues := [5; 20]%float |}
              ltac:(vm_compute; reflexivity)) as (H1 & H2 & _).
  split; assumption.
Defined.

(* ------------------------------------------------------------------ *)
(** * The analysis window keeps samples and distances together *)

Lemma mask_select_combine {A B : Type} (f : A -> bool) (x : list A) :
  forall y : list B,
    List.length x = List.length y ->
    combine (mask_select x (map f x)) (mask_select y (map f x))
    = filter (fun p => f (fst p)) (combine x y)
    /\ List.length (mask_select x (map f x))
       = List.length (mask_select y (map f x)).
Proof.
  induction x as [|a x IH]; intros [|b y] Hlen; simpl in *;
    try discriminate; [auto|].
  injection Hlen as Hlen. destruct (IH y Hlen) as [Hc Hl].
  destruct (f a); simpl; [rewrite Hc, Hl|]; auto.
Qed.

Lemma combine_skipn {A B : Type} (n : nat) :
  forall (x : list A) (y : list B),
    combine (skipn n x) (skipn n y) = skipn n (combine x y).
Proof.
  induction n as [|n IH]; intros x y; [reflexivity|].
  destruct x as [|a x]; [reflexivity|].
  destruct y as [|b y]; simpl; [apply combine_nil|apply IH].
Qed.

(** X19.  The analysis window keeps each sample with its distance.
    [filter_window] succeeds exactly when there are as many distances as
    samples (otherwise NumPy's [IndexError] comes out); the pairs it keeps
    are, in order, the (distance, sample) pairs whose distance passes the
    window test; and the trim at the start panel drops the same number of
    leading entries from both arrays. *)
Theorem window_alignment (scan_type : string)
    (start_panel fiber_distance : float) (spacing scaled_data : list float) :
  (List.length spacing <> List.length scaled_data ->
   exists msg,
     filter_window scan_type fiber_distance spacing scaled_data
     = Raise (IndexError msg))
  /\ (List.length spacing = List.length scaled_data ->
      exists spacing_filtered scaled_data_filtered,
        filter_window scan_type fiber_distance spacing scaled_data
        = Ok (spacing_filtered, scaled_data_filtered)
        /\ combine spacing_filtered scaled_data_filtered
           = filter (in_window scan_type fiber_distance)
               (combine spacing scaled_data)
        /\ List.length spacing_filtered = List.length scaled_data_filtered
        /\ exists start_idx : nat,
             combine
               (fst (trim_window start_panel spacing_filtered
                       scaled_data_filtered))
               (snd (trim_window start_panel spacing_filtered
                       scaled_data_filtered))
             = skipn start_idx
                 (combine spacing_filtered scaled_data_filtered)).
Proof.
  unfold filter_window, np_bool_index. rewrite valid_indices_cap.
  rewrite !length_map, Nat.eqb_refl. split.
  - intros Hne. apply Nat.neq_sym in Hne. apply Nat.eqb_neq in Hne.
    rewrite Hne. eexists. reflexivity.
  - intros Heq. rewrite <- Heq, Nat.eqb_refl.
    destruct (mask_select_combine
                (fun d => PrimFloat.leb d (window_cap scan_type fiber_distance))
                spacing scaled_data Heq) as [Hc Hl].
    eexists. eexists. split; [reflexivity|].
    split; [exact Hc|]. split; [exact Hl|].
    eexists. unfold trim_window. simpl. apply combine_skipn.
Qed.

Lemma window_alignment_witness :
  exists spacing_filtered scaled_data_filtered,
    filter_window "short" 25000%float [0; 5000; 9000]%float
      [-3; -4; -5]%float
    = Ok (spacing_filtered, scaled_data_filtered)
    /\ combine spacing_filtered scaled_data_filtered
       = [(0, -3); (5000, -4)]%float.
Proof.
  destruct (proj2 (window_alignment "short" 50%float 25000%float
                     [0; 5000; 9000]%float [-3; -4; -5]%float) eq_refl)
    as (sf & df & Hw & Hc & _).
  exists sf, df. split; [exact Hw|]. rewrite Hc. vm_compute. reflexivity.
Defined.

(* ------------------------------------------------------------------ *)
(** * What the analyzer reports *)

Section ReportFacts.

Variable np_scale_samples : list Z -> Z -> result (list float).
Variable np_arange : float -> float -> float -> result (list float).
Variable gaussian_filter1d : list float -> Z -> result (list float).
Variable np_gradient : list float -> list float -> result (list float).

(** X20.  Every interval [plot_and_detect] reports on success, back
    reflection or fiber issue, has both ends inside the analysis window: at
    most 8500 for a "short" scan asked beyond 8000, at most the requested
    distance otherwise, whatever the array routines return. *)
Theorem reported_intervals_in_window (sor_file : SORFile)
    (plot_name : string) (start_panel fiber_distance : float)
    (scan_type : string)
    (merged_back_reflections merged_fiber_issues : list (float * float)) :
  plot_and_detect np_scale_samples np_arange gaussian_filter1d np_gradient
    sor_file plot_name start_panel fiber_distance scan_type
  = Ok (true, Logs merged_back_reflections merged_fiber_issues) ->
  ends_satisfy (at_most (window_cap scan_type fiber_distance))
    merged_back_reflections
  /\ ends_satisfy (at_most (window_cap scan_type fiber_distance))
       merged_fiber_issues.
Proof.
  unfold plot_and_detect.
  destruct (analysis np_scale_samples np_arange gaussian_filter1d np_gradient
              sor_file plot_name start_panel fiber_distance scan_type)
    as [[br fi]|e] eqn:Han.
  - intros [= <- <-].
    exact (analysis_hits_in_window _ _ _ _ _ _ _ _ _ _ _ Han).
  - destruct (is_Exception e); discriminate.
Qed.

End ReportFacts.

Lemma reported_intervals_in_window_witness :
  plot_and_detect (fixed_array [-3; -4; -5]%float)
    (fun _ => fixed_array [0; 5000; 9000]%float) pass_through pass_through
    three_samples "trace" 0%float 25000%float "short"
  = Ok (true, Logs [(5000, 5000)]%float [])
  /\ ends_satisfy (at_most 8500%float) [(5000, 5000)]%float.
Proof.
  assert (H : plot_and_detect (fixed_array [-3; -4; -5]%float)
                (fun _ => fixed_array [0; 5000; 9000]%float)
                pass_through pass_through
                three_samples "trace" 0%float 25000%float "short"
              = Ok (true, Logs [(5000, 5000)]%float []))
    by (vm_compute; reflexivity).
  split; [exact H|].
  exact (proj1 (reported_intervals_in_window _ _ _ _ _ _ _ _ _ _ _ H)).
Defined.

(* ------------------------------------------------------------------ *)
(** * The tag every block starts with *)

Lemma bytes_eqb_refl (a : bytes) : bytes_eqb a a = true.
Proof.
  induction a as [|x a IH]; simpl; [reflexivity|].
  rewrite IH, (Byte.byte_dec_lb eq_refl). reflexivity.
Qed.

Lemma bytes_eqb_iff (a b : bytes) : bytes_eqb a b = true <-> a = b.
Proof.
  split; [apply bytes_eqb_eq|intros ->; apply bytes_eqb_refl].
Qed.

(** X21.  [block_header], at a cursor inside the buffer, accepts exactly the
    buffers that go on with the tag's bytes and a NUL: it then returns the
    cursor just past that NUL; on any other buffer it raises
    [ParseError]. *)
Theorem block_header_spec (header : string) (expected data : bytes)
    (offset : Z) :
  utf8_encode (str_lit header) = Some expected ->
  0 <= offset <= len data ->
  (forall rest : bytes,
     skipn (Z.to_nat offset) data = expected ++ x00 :: rest ->
     block_header header data offset = Ok (tt, offset + len expected + 1))
  /\ ((forall rest : bytes,
         skipn (Z.to_nat offset) data <> expected ++ x00 :: rest) ->
      exists msg, block_header header data offset = Raise (ParseError msg)).
Proof.
  intros Henc Ho. unfold block_header. rewrite Henc.
  pose proof (len_nonneg expected) as He.
  rewrite !py_slice_prefix by lia.
  replace (Z.to_nat (offset + len expected - offset))
    with (List.length expected) by (unfold len; lia).
  replace (Z.to_nat (offset + len expected + 1 - (offset + len expected)))
    with 1%nat by lia.
  replace (Z.to_nat (offset + len expected))
    with (List.length expected + Z.to_nat offset)%nat by (unfold len; lia).
  rewrite <- skipn_skipn.
  set (tail := skipn (Z.to_nat offset) data).
  split.
  - intros rest Htail. rewrite Htail.
    rewrite firstn_app, firstn_all, Nat.sub_diag, firstn_O, app_nil_r.
    rewrite bytes_eqb_refl. simpl.
    rewrite skipn_app, skipn_all, Nat.sub_diag. simpl. reflexivity.
  - intros Hnot.
    destruct (bytes_eqb (firstn (List.length expected) tail) expected)
      eqn:Hhead; cbn [negb]; [|eexists; reflexivity].
    destruct (bytes_eqb (firstn 1 (skipn (List.length expected) tail))
                [x00]) eqn:Hnul; cbn [negb]; [|eexists; reflexivity].
    exfalso. apply bytes_eqb_eq in Hhead. apply bytes_eqb_eq in Hnul.
    destruct (skipn (List.length expected) tail) as [|z rest] eqn:Hskip;
      [discriminate|].
    simpl in Hnul. injection Hnul as ->.
    apply (Hnot rest).
    rewrite <- (firstn_skipn (List.length expected) tail), Hhead, Hskip.
    reflexivity.
Qed.

Lemma block_header_spec_witness :
  block_header "VendorX" vendor_buffer 0 = Ok (tt, 8).
Proof.
  exact (proj1 (block_header_spec "VendorX" (list_byte_of_string "VendorX")
                  vendor_buffer 0 eq_refl
                  ltac:(vm_compute; split; discriminate))
           [x01; x00; xff] eq_refl).
Defined.

(* ------------------------------------------------------------------ *)
(** * Coalescing cuts the hit list into runs *)

Section RunFacts.
Context {T : Type} `{Distance T}.

Lemma coalesce_from_runs (hits : list T) :
  forall (start finish : T) (pre : list T),
    last pre start = finish ->
    Forall (fun hit => gap_exceeds_75 hit start = false) pre ->
    exists (tail : list T) (later : list hit_run),
      List.concat (map run_hits ((start, tail) :: later))
      = start :: pre ++ hits
      /\ coalesce_from start finish hits
         = map run_ends ((start, tail) :: later)
      /\ Forall run_within ((start, tail) :: later)
      /\ runs_split ((start, tail) :: later).
Proof.
  induction hits as [|hit rest IH]; intros start finish pre Hlast Hpre.
  - exists pre, []. simpl. rewrite !app_nil_r.
    split; [reflexivity|]. split; [unfold run_ends; simpl; congruence|].
    split; [repeat constructor; exact Hpre|exact I].
  - cbn [coalesce_from]. destruct (gap_exceeds_75 hit start) eqn:Hgap.
    + destruct (IH hit hit [] eq_refl (Forall_nil _))
        as (tail & later & Hflat & Hco & Hwithin & Hsplit).
      exists pre, ((hit, tail) :: later).
      split; [|split; [|split]].
      * cbn [map List.concat] in *. rewrite Hflat. unfold run_hits. simpl.
        reflexivity.
      * rewrite Hco. cbn [map]. f_equal. unfold run_ends. simpl. congruence.
      * constructor; [exact Hpre|exact Hwithin].
      * cbn [runs_split]. split; [exact Hgap|exact Hsplit].
    + destruct (IH start hit (pre ++ [hit]) (last_last _ _ _)
                  ltac:(apply Forall_app; split;
                          [exact Hpre|repeat constructor; exact Hgap]))
        as (tail & later & Hflat & Hco & Hwithin & Hsplit).
      exists tail, later.
      split; [|split; [|split]]; try assumption.
      rewrite Hflat, <- app_assoc. reflexivity.
Qed.

End RunFacts.

(** X22.  For hits of any distance type and in any order,
    [coallesce_results] cuts the hit list into consecutive runs and returns,
    in order, the first and the last hit of each run: no hit is dropped or
    moved, no hit of a run lies more than 75 past the run's first hit, and
    each run after the first opens with a hit more than 75 past the first
    hit of the run before it. *)
Theorem coallesce_results_runs :
  forall (T : Type) (D : Distance T) (hits : list T),
  exists runs : list hit_run,
    List.concat (map run_hits runs) = hits
    /\ coallesce_results hits = map run_ends runs
    /\ Forall run_within runs
    /\ runs_split runs.
Proof.
  intros T D hits. rewrite coallesce_results_spec.
  destruct hits as [|first rest].
  - exists []. simpl. repeat split; constructor.
  - destruct (coalesce_from_runs rest first first [] eq_refl (Forall_nil _))
      as (tail & later & Hflat & Hco & Hwithin & Hsplit).
    exists ((first, tail) :: later). simpl in Hflat.
    repeat match goal with |- _ /\ _ => split end; assumption.
Qed.
